(** * The game state machine of own-game-server (game.py, app.py)

    A shallow embedding of the Python classes [Player], [Question] and
    [Game] of game.py and of the socket handlers of app.py, followed by
    the properties of the state machine.

    Python objects have identity and are mutated in place: the same
    [Player] is referenced from the roster and from a question, the same
    [Question] from the board and from [current_question].  Objects
    therefore live in a store and are designated by references; a method
    is a function on the store that ends with a returned value or with a
    raised exception, and in both cases with the store as the method left
    it. *)

From stdpp Require Import gmap strings list.
From Stdlib Require Import ZArith Lia.

Local Open Scope Z_scope.

(** References are positions in the store of their class. *)
Abbreviation PlayerRef := nat (only parsing).
Abbreviation QuestionRef := nat (only parsing).

(** [Theme = str] *)
Abbreviation Theme := string (only parsing).

(** ** class Player *)
Module Player.

Record t : Type := init { name : string; score : Z }.

Definition set_score (v : Z) (self : t) : t :=
  {| name := name self; score := v |}.

End Player.

(** ** class Question (the attributes; its methods need the store) *)
Module Question.

Record t : Type := mk {
  text : string;
  answer : string;
  score : Z;
  disabled : bool;
  answering_player : option PlayerRef
}.

(** [__init__] with the defaults [disabled=False], [answering_player=None]. *)
Definition init (text answer : string) (score : Z) : t :=
  mk text answer score false None.

Definition set_disabled (v : bool) (self : t) : t :=
  mk (text self) (answer self) (score self) v (answering_player self).

Definition set_answering_player (v : option PlayerRef) (self : t) : t :=
  mk (text self) (answer self) (score self) (disabled self) v.

End Question.

(** ** Exceptions *)

(** The subclasses of [GameError] declared inside [Game], with the
    attributes their [__init__] stores. *)
Inductive GameError : Type :=
| ThemeNotFound (theme : Theme)
| QuestionNotFound (theme : Theme) (score : Z)
| QuestionDisabled (question : QuestionRef)
| QuestionIsAlreadySelected
| QuestionIsNotSelected
| PlayerIsNotSelected
| PlayerIsAlreadySelected (selecting_player : PlayerRef).

(** What a call can raise: a [GameError], the [ValueError] of
    [list.remove], the [AttributeError] of an attribute access on [None],
    and [InvalidReference] for a reference that designates no object of
    the store.  Python cannot produce the last one (a reference always
    designates a live object); it keeps the functions below total. *)
Inductive Exn : Type :=
| Game_error (e : GameError)
| ValueError
| AttributeError
| InvalidReference.

Inductive outcome (A : Type) : Type :=
| Return (a : A)
| Raise (e : Exn).
Arguments Return {A} a.
Arguments Raise {A} e.

(** ** The store and the attributes of a Game *)

(** [player_objs] and [question_objs] are the objects allocated so far;
    the other three fields are the attributes of the [Game] instance. *)
Record State : Type := mkState {
  player_objs : list Player.t;
  question_objs : list Question.t;
  players : list PlayerRef;
  themes_questions : gmap string (list nat);
  current_question : option QuestionRef
}.

(** ** Stateful computations that may raise *)

Definition M (A : Type) : Type := State → State * outcome A.

Global Instance M_ret : MRet M := λ A a s, (s, Return a).

Global Instance M_bind : MBind M := λ A B f m s,
  match m s with
  | (s', Return a) => f a s'
  | (s', Raise e) => (s', Raise e)
  end.

Definition raise {A} (e : Exn) : M A := λ s, (s, Raise e).

Definition read {A} (f : State → A) : M A := λ s, (s, Return (f s)).

Definition write (f : State → State) : M unit := λ s, (f s, Return tt).

(** The state a call leaves behind, returned or raised. *)
Definition state_after {A} (m : M A) (s : State) : State := (m s).1.

(** Attribute access through a reference. *)
Definition get_player (p : PlayerRef) : M Player.t := λ s,
  match player_objs s !! p with
  | Some obj => (s, Return obj)
  | None => (s, Raise InvalidReference)
  end.

Definition get_question (q : QuestionRef) : M Question.t := λ s,
  match question_objs s !! q with
  | Some obj => (s, Return obj)
  | None => (s, Raise InvalidReference)
  end.

(** Attribute assignment through a reference. *)
Definition update_player (p : PlayerRef) (f : Player.t → Player.t) : M unit :=
  obj ← get_player p;
  write (λ s, mkState (<[p := f obj]> (player_objs s)) (question_objs s)
                      (players s) (themes_questions s) (current_question s)).

Definition update_question (q : QuestionRef) (f : Question.t → Question.t) : M unit :=
  obj ← get_question q;
  write (λ s, mkState (player_objs s) (<[q := f obj]> (question_objs s))
                      (players s) (themes_questions s) (current_question s)).

(** Object creation: the new object gets a reference no live object has. *)
Definition new_player (obj : Player.t) : M PlayerRef := λ s,
  (mkState (player_objs s ++ [obj]) (question_objs s)
           (players s) (themes_questions s) (current_question s),
   Return (length (player_objs s))).

Definition new_question (obj : Question.t) : M QuestionRef := λ s,
  (mkState (player_objs s) (question_objs s ++ [obj])
           (players s) (themes_questions s) (current_question s),
   Return (length (question_objs s))).

(** A comprehension [[f(x) for x in l]]: [f] runs on the items in order
    and the first exception ends it. *)
Fixpoint for_each {A B} (f : A → M B) (l : list A) : M (list B) :=
  match l with
  | [] => mret []
  | x :: rest =>
      y ← f x;
      ys ← for_each f rest;
      mret (y :: ys)
  end.

Definition set_players (l : list PlayerRef) : M unit :=
  write (λ s, mkState (player_objs s) (question_objs s)
                      l (themes_questions s) (current_question s)).

Definition set_current_question (c : option QuestionRef) : M unit :=
  write (λ s, mkState (player_objs s) (question_objs s)
                      (players s) (themes_questions s) c).

(** [list.remove(x)]: drops the first item equal to [x]; [None] stands for
    the [ValueError] raised when there is none.  [Player] defines no
    [__eq__], so items are compared by identity. *)
Fixpoint list_remove (x : nat) (l : list nat) : option (list nat) :=
  match l with
  | [] => None
  | y :: l' => if decide (y = x) then Some l' else cons y <$> list_remove x l'
  end.

(** ** The methods of Question *)
Module QuestionMethods.

(** An attribute access on [self.answering_player] when it is [None]
    raises [AttributeError]. *)
Definition accept_answer (self : QuestionRef) : M unit :=
  q ← get_question self;
  match Question.answering_player q with
  | None => raise AttributeError
  | Some p =>
      (* self.answering_player.score += self.score *)
      update_player p (λ pl,
        Player.set_score (Player.score pl + Question.score q) pl);;
      (* self.answering_player = None *)
      update_question self (Question.set_answering_player None);;
      (* self.disabled = True *)
      update_question self (Question.set_disabled true)
  end.

Definition decline_answer (self : QuestionRef) : M unit :=
  q ← get_question self;
  match Question.answering_player q with
  | None => raise AttributeError
  | Some p =>
      (* self.answering_player.score -= self.score *)
      update_player p (λ pl,
        Player.set_score (Player.score pl - Question.score q) pl);;
      (* self.answering_player = None *)
      update_question self (Question.set_answering_player None)
  end.

(** [__copy__]: a new [Question] with the text, the answer and the score
    of this one and the defaults of [__init__] for the rest. *)
Definition copy (self : QuestionRef) : M QuestionRef :=
  q ← get_question self;
  new_question
    (Question.init (Question.text q) (Question.answer q) (Question.score q)).

End QuestionMethods.

(** ** class Game *)
Module Game.

(** [Game()]: no players, an empty board, no current question. *)
Definition init : State := mkState [] [] [] ∅ None.

(** [players_names]: the names of the roster, in its order (the
    generator, consumed at once). *)
Definition players_names : M (list string) :=
  roster ← read players;
  for_each (λ player, obj ← get_player player; mret (Player.name obj)) roster.

(** The inner loop of [is_over]: [false] is the early [return False]. *)
Fixpoint all_disabled (questions : list QuestionRef) : M bool :=
  match questions with
  | [] => mret true
  | question :: rest =>
      q ← get_question question;
      if Question.disabled q then all_disabled rest else mret false
  end.

Fixpoint is_over_loop (items : list (string * list nat)) : M bool :=
  match items with
  | [] => mret true
  | (theme, questions) :: rest =>
      all_disabled questions ≫= λ b : bool,
        if b then is_over_loop rest else mret false
  end.

(** The board is a dict; [map_to_list] lists its items (in the order of
    the keys, where Python has the order of insertion: the result below
    does not depend on it when every reference is live). *)
Definition is_over : M bool :=
  board ← read themes_questions;
  is_over_loop (map_to_list board).

Definition join (player_name : string) : M PlayerRef :=
  player ← new_player (Player.init player_name 0);
  roster ← read players;
  set_players (roster ++ [player]);;
  mret player.

Definition leave (player : PlayerRef) : M unit :=
  roster ← read players;
  match list_remove player roster with
  | Some roster' => set_players roster'
  | None => raise ValueError
  end.

(** The [for ... else] of [select_question]: the [else] branch runs when
    the list is exhausted without a [break]. *)
Fixpoint select_question_loop (theme : Theme) (score : Z)
    (theme_questions : list QuestionRef) : M unit :=
  match theme_questions with
  | [] => raise (Game_error (QuestionNotFound theme score))
  | question :: rest =>
      q ← get_question question;
      if bool_decide (Question.score q = score) then
        if Question.disabled q then
          raise (Game_error (QuestionDisabled question))
        else set_current_question (Some question)
      else select_question_loop theme score rest
  end.

(** [not theme_questions] holds for [None] (no such key) and for the
    empty list. *)
Definition select_question (theme : Theme) (score : Z) : M unit :=
  current ← read current_question;
  match current with
  | Some _ => raise (Game_error QuestionIsAlreadySelected)
  | None =>
      board ← read themes_questions;
      match board !! theme with
      | None | Some [] => raise (Game_error (ThemeNotFound theme))
      | Some theme_questions =>
          select_question_loop theme score theme_questions
      end
  end.

(** [Question] and [Player] define neither [__bool__] nor [__len__] nor
    [__eq__]: [not x] tests for [None] and [!=] compares identities. *)
Definition select_answering_player (player : PlayerRef) : M unit :=
  current ← read current_question;
  match current with
  | None => raise (Game_error QuestionIsNotSelected)
  | Some question =>
      q ← get_question question;
      if bool_decide (Question.answering_player q ≠ None
                      ∧ Question.answering_player q ≠ Some player)
      then raise (Game_error (PlayerIsAlreadySelected player))
      else update_question question
             (Question.set_answering_player (Some player))
  end.

Definition accept_answer : M unit :=
  current ← read current_question;
  match current with
  | None => raise (Game_error QuestionIsNotSelected)
  | Some question =>
      q ← get_question question;
      match Question.answering_player q with
      | None => raise (Game_error PlayerIsNotSelected)
      | Some _ =>
          QuestionMethods.accept_answer question;;
          set_current_question None
      end
  end.

Definition decline_answer : M unit :=
  current ← read current_question;
  match current with
  | None => raise (Game_error QuestionIsNotSelected)
  | Some question =>
      q ← get_question question;
      match Question.answering_player q with
      | None => raise (Game_error PlayerIsNotSelected)
      | Some _ => QuestionMethods.decline_answer question
      end
  end.

Definition skip_question : M unit :=
  current ← read current_question;
  match current with
  | None => raise (Game_error QuestionIsNotSelected)
  | Some question =>
      update_question question (Question.set_disabled true);;
      set_current_question None
  end.

End Game.

(** ** The socket layer of app.py *)
Module SocketIO.

(** A [SocketIOPlayer] carries a key, [str(uuid.uuid4())], that no other
    player has.  The key of a player is modelled by the player's own
    reference, which is as unique. *)
Abbreviation Key := nat (only parsing).

(** A [SocketIOGame]: the attributes of [Game] and [players_by_key].
    ([game_id] and [host_key] only serve to route a message to its game
    and to reject strangers, which leaves the game as it is.) *)
Record SocketIOGame : Type := mkGame {
  base : State;
  players_by_key : gmap nat nat
}.

(** The raw board of default_theme.json: per theme, the
    [{text, answer, score}] objects of its questions. *)
Record RawQuestion : Type := mkRaw {
  raw_text : string;
  raw_answer : string;
  raw_score : Z
}.

(** One round of the loop of [load_game_themes]: the raw objects of a
    theme are replaced by new [Question]s built from their fields. *)
Definition load_theme (acc : list Question.t * gmap string (list nat))
    (item : string * list RawQuestion) : list Question.t * gmap string (list nat) :=
  (acc.1 ++ ((λ r, Question.init (raw_text r) (raw_answer r) (raw_score r)) <$> item.2),
   <[item.1 := seq (length acc.1) (length item.2)]> acc.2).

Definition load_game_themes (file : list (string * list RawQuestion))
    : list Question.t * gmap string (list nat) :=
  foldl load_theme ([], ∅) file.

(** [start_game]: [SocketIOGame()], then the loaded board is assigned to
    [themes_questions]. *)
Definition start_game (file : list (string * list RawQuestion)) : SocketIOGame :=
  let new_game := Game.init in
  let loaded := load_game_themes file in
  mkGame (mkState (player_objs new_game) loaded.1 (players new_game)
                  loaded.2 (current_question new_game)) ∅.

(** [SocketIOGame.join] *)
Definition join (player_name : string) (g : SocketIOGame) : SocketIOGame :=
  match Game.join player_name (base g) with
  | (s, Return player) => mkGame s (<[player := player]> (players_by_key g))
  | (s, Raise _) => mkGame s (players_by_key g)
  end.

(** [SocketIOGame.leave] *)
Definition leave (player : PlayerRef) (g : SocketIOGame) : SocketIOGame :=
  match Game.leave player (base g) with
  | (s, Return _) => mkGame s (delete player (players_by_key g))
  | (s, Raise _) => mkGame s (players_by_key g)
  end.

(** The messages a game receives, once the handler has read its
    parameters from the fields of the message: the player name of
    [message["player_name"]] and the theme of [message["theme"]], both
    strings, the score that [int(message["score"])] returned, and the
    player key that [joined_player_only] looks up.  A message without
    one of these fields, or with a score that [int] refuses, raises at
    the line that reads it, before the game is touched; it changes no
    game and is no message of this type. *)
Inductive message : Type :=
| join_game (player_name : string)
| leave_game (player_key : Key)
| select_question (theme : Theme) (score : Z)
| select_answering_player (player_key : Key)
| accept_answer
| decline_answer
| skip_question.

(** A call of a core method from a handler: the handler catches the
    game errors and emits "fail"; the game stays as the method left it. *)
Definition call {A} (m : M A) (g : SocketIOGame) : SocketIOGame :=
  mkGame (state_after m (base g)) (players_by_key g).

(** [joined_player_only]: an unknown key is answered with "fail" and the
    handler is not run. *)
Definition joined_player_only (player_key : Key)
    (handler : PlayerRef → SocketIOGame → SocketIOGame)
    (g : SocketIOGame) : SocketIOGame :=
  match players_by_key g !! player_key with
  | None => g
  | Some player => handler player g
  end.

(** The handlers; what they emit is left out. *)
Definition handle (msg : message) : SocketIOGame → SocketIOGame :=
  match msg with
  | join_game player_name => join player_name
  | leave_game player_key => joined_player_only player_key leave
  | select_question theme score => call (Game.select_question theme score)
  | select_answering_player player_key =>
      joined_player_only player_key
        (λ player, call (Game.select_answering_player player))
  | accept_answer => call Game.accept_answer
  | decline_answer => call Game.decline_answer
  | skip_question => call Game.skip_question
  end.

(** The game after a sequence of messages, first message first. *)
Definition run (msgs : list message) (g : SocketIOGame) : SocketIOGame :=
  foldl (λ g msg, handle msg g) g msgs.

End SocketIO.

(** ** The handlers of app.py with what they emit *)
Module App.

(** The JSON objects of [get_player_dao], [get_game_question_dao] and
    [get_game_dao]. *)
Record PlayerDao : Type := mkPlayerDao {
  dao_name : string;
  dao_score : Z
}.

Record QuestionDao : Type := mkQuestionDao {
  dao_text : string;
  dao_question_score : Z;
  dao_disabled : bool
}.

Record GameDao : Type := mkGameDao {
  dao_players : list PlayerDao;
  dao_themes_questions : gmap string (list QuestionDao);
  dao_current_question : option QuestionDao;
  dao_is_over : bool
}.

Definition get_player_dao (player : PlayerRef) : M PlayerDao :=
  obj ← get_player player;
  mret (mkPlayerDao (Player.name obj) (Player.score obj)).

Definition get_game_question_dao (question : QuestionRef) : M QuestionDao :=
  obj ← get_question question;
  mret (mkQuestionDao (Question.text obj) (Question.score obj)
          (Question.disabled obj)).

(** The dict comprehension of [get_game_dao] over the items of the board. *)
Fixpoint themes_questions_dao (items : list (string * list nat))
    : M (gmap string (list QuestionDao)) :=
  match items with
  | [] => mret ∅
  | (theme, questions) :: rest =>
      daos ← for_each get_game_question_dao questions;
      others ← themes_questions_dao rest;
      mret (<[theme := daos]> others)
  end.

Definition get_game_dao : M GameDao :=
  current ← read current_question;
  current_question_dao ←
    match current with
    | None => mret None
    | Some question => dao ← get_game_question_dao question; mret (Some dao)
    end;
  roster ← read players;
  players_dao ← for_each get_player_dao roster;
  board ← read themes_questions;
  themes_dao ← themes_questions_dao (map_to_list board);
  over ← Game.is_over;
  mret (mkGameDao players_dao themes_dao current_question_dao over).

(** The events, with their payload. *)
Inductive event : Type :=
| fail (error : string) (status : Z)
| joined_game (key : nat)
| player_joined (players : list PlayerDao)
| player_left (players : list PlayerDao)
| question_selected (question : QuestionDao)
| selected_answering_player (player : PlayerDao)
| synced (game : GameDao).

(** [emit(...)] answers the sender, [emit(..., room=game.game_id)]
    everyone in the room of the game. *)
Inductive emit : Type :=
| to_sender (e : event)
| to_room (e : event).

(** What ends a handler without being caught: an exception of the core,
    or the [KeyError] of a [del] on a dict. *)
Inductive uncaught : Type :=
| from_core (e : Exn)
| KeyError.

(** A handler leaves a game, the events emitted, and possibly an
    exception that nothing caught. *)
Record reply : Type := mkReply {
  game : SocketIO.SocketIOGame;
  emitted : list emit;
  escaped : option uncaught
}.

(** [try: m except ...: return emit("fail", ...)] followed by the rest of
    the handler; [except] gives the "fail" of the classes that have an
    [except] clause. *)
Definition try_except {A} (m : M A) (except : GameError → option event)
    (rest : A → SocketIO.SocketIOGame → reply)
    (g : SocketIO.SocketIOGame) : reply :=
  match m (SocketIO.base g) with
  | (s, Return a) => rest a (SocketIO.mkGame s (SocketIO.players_by_key g))
  | (s, Raise (Game_error e)) =>
      match except e with
      | Some ev =>
          mkReply (SocketIO.mkGame s (SocketIO.players_by_key g))
                  [to_sender ev] None
      | None =>
          mkReply (SocketIO.mkGame s (SocketIO.players_by_key g))
                  [] (Some (from_core (Game_error e)))
      end
  | (s, Raise e) =>
      mkReply (SocketIO.mkGame s (SocketIO.players_by_key g))
              [] (Some (from_core e))
  end.

(** A final [emit] whose payload is computed from the game; [before] are
    the events already emitted. *)
Definition emit_computed {A} (before : list emit) (payload : M A)
    (ev : A → emit) (g : SocketIO.SocketIOGame) : reply :=
  match payload (SocketIO.base g) with
  | (s, Return a) =>
      mkReply (SocketIO.mkGame s (SocketIO.players_by_key g))
              (before ++ [ev a]) None
  | (s, Raise e) =>
      mkReply (SocketIO.mkGame s (SocketIO.players_by_key g))
              before (Some (from_core e))
  end.

(** [get_game_question_dao(game.current_question)] *)
Definition current_question_dao : M QuestionDao :=
  current ← read current_question;
  match current with
  | None => raise AttributeError
  | Some question => get_game_question_dao question
  end.

(** [get_player_dao(game.current_question.answering_player)] *)
Definition answering_player_dao : M PlayerDao :=
  current ← read current_question;
  match current with
  | None => raise AttributeError
  | Some question =>
      q ← get_question question;
      match Question.answering_player q with
      | None => raise AttributeError
      | Some player => get_player_dao player
      end
  end.

(** [[get_player_dao(game_player) for game_player in game.players]] *)
Definition players_dao : M (list PlayerDao) :=
  roster ← read players;
  for_each get_player_dao roster.

(** [join_game] from [game.join(player_name)] on; [player_name] is the
    string that the line before, [message["player_name"]], has read. *)
Definition join_game (player_name : string) (g : SocketIO.SocketIOGame) : reply :=
  match Game.join player_name (SocketIO.base g) with
  | (s, Return player) =>
      emit_computed [to_sender (joined_game player)] players_dao
        (λ daos, to_room (player_joined daos))
        (SocketIO.mkGame s (<[player := player]> (SocketIO.players_by_key g)))
  | (s, Raise e) =>
      mkReply (SocketIO.mkGame s (SocketIO.players_by_key g))
              [] (Some (from_core e))
  end.

(** [leave_game] after its guard: [SocketIOGame.leave], where
    [players.remove] may raise [ValueError] and the [del] of the player's
    key [KeyError], then "player_left". *)
Definition leave_game (player : PlayerRef) (g : SocketIO.SocketIOGame) : reply :=
  match Game.leave player (SocketIO.base g) with
  | (s, Return _) =>
      match SocketIO.players_by_key g !! player with
      | Some _ =>
          emit_computed [] players_dao (λ daos, to_room (player_left daos))
            (SocketIO.mkGame s (delete player (SocketIO.players_by_key g)))
      | None =>
          mkReply (SocketIO.mkGame s (SocketIO.players_by_key g))
                  [] (Some KeyError)
      end
  | (s, Raise e) =>
      mkReply (SocketIO.mkGame s (SocketIO.players_by_key g))
              [] (Some (from_core e))
  end.

(** [select_question] from its [try] on; [theme] is the string that
    [message["theme"]] has read and [score] the integer that
    [int(message["score"])] has returned in the two lines before. *)
Definition select_question (theme : Theme) (score : Z)
    : SocketIO.SocketIOGame → reply :=
  try_except (Game.select_question theme score)
    (λ e, match e with
          | QuestionIsAlreadySelected =>
              Some (fail "Question is already selected." 1)
          | ThemeNotFound _ => Some (fail "No such theme in this game." 2)
          | QuestionDisabled _ => Some (fail "Question is disabled." 3)
          | QuestionNotFound _ _ => Some (fail "Question is not found." 4)
          | _ => None
          end)
    (λ _, emit_computed [] current_question_dao
            (λ dao, to_room (question_selected dao))).

Definition select_answering_player (player : PlayerRef)
    : SocketIO.SocketIOGame → reply :=
  try_except (Game.select_answering_player player)
    (λ e, match e with
          | QuestionIsNotSelected => Some (fail "Question is not selected." 5)
          | PlayerIsAlreadySelected _ =>
              Some (fail "Player is already selected." 7)
          | _ => None
          end)
    (λ _, emit_computed [] answering_player_dao
            (λ dao, to_room (selected_answering_player dao))).

Definition decline_answer : SocketIO.SocketIOGame → reply :=
  try_except Game.decline_answer
    (λ e, match e with
          | QuestionIsNotSelected => Some (fail "Question is not selected." 5)
          | PlayerIsNotSelected => Some (fail "Player is not selected." 6)
          | _ => None
          end)
    (λ _, emit_computed [] get_game_dao (λ dao, to_room (synced dao))).

Definition accept_answer : SocketIO.SocketIOGame → reply :=
  try_except Game.accept_answer
    (λ e, match e with
          | QuestionIsNotSelected => Some (fail "Question is not selected." 5)
          | PlayerIsNotSelected => Some (fail "Player is not selected." 6)
          | _ => None
          end)
    (λ _, emit_computed [] get_game_dao (λ dao, to_room (synced dao))).

Definition skip_question : SocketIO.SocketIOGame → reply :=
  try_except Game.skip_question
    (λ e, match e with
          | QuestionIsNotSelected => Some (fail "Question is not selected." 5)
          | _ => None
          end)
    (λ _, emit_computed [] get_game_dao (λ dao, to_room (synced dao))).

(** [joined_player_only] with its "fail" for a key that is not
    registered.  (A message without a key is answered with status -5
    before that; the messages here carry one.) *)
Definition joined_player_only (player_key : nat)
    (handler : PlayerRef → SocketIO.SocketIOGame → reply)
    (g : SocketIO.SocketIOGame) : reply :=
  match SocketIO.players_by_key g !! player_key with
  | None => mkReply g [to_sender (fail "Wrong player key." (-6))] None
  | Some player => handler player g
  end.

Definition handle (msg : SocketIO.message) : SocketIO.SocketIOGame → reply :=
  match msg with
  | SocketIO.join_game player_name => join_game player_name
  | SocketIO.leave_game player_key => joined_player_only player_key leave_game
  | SocketIO.select_question theme score => select_question theme score
  | SocketIO.select_answering_player player_key =>
      joined_player_only player_key select_answering_player
  | SocketIO.accept_answer => accept_answer
  | SocketIO.decline_answer => decline_answer
  | SocketIO.skip_question => skip_question
  end.

End App.

(** ** The decorators of app.py, on messages as the clients send them *)
Module Wire.

(** A value of a message, as Python's [json] reads it: [None], a bool, an
    int, a float, a str, a list or a dict with strings for keys.  Of a
    float the decorators only look at whether it is zero. *)
#[warnings="-register-all"] Inductive json : Type :=
| jnull
| jbool (b : bool)
| jint (n : Z)
| jfloat (is_zero : bool)
| jstr (s : string)
| jlist (items : list json)
| jdict (fields : gmap string json).

(** The truth value of a value: [not v] is [negb (truthy v)].  [None],
    [False], zero, the empty string, the empty list and the empty dict
    are false. *)
Definition truthy (v : json) : bool :=
  match v with
  | jnull => false
  | jbool b => b
  | jint n => negb (bool_decide (n = 0))
  | jfloat is_zero => negb is_zero
  | jstr s => negb (bool_decide (s = ""))
  | jlist items => match items with [] => false | _ :: _ => true end
  | jdict fields => negb (bool_decide (dom fields = ∅))
  end.

(** [message.get(field)]: [None] for a field that is absent. *)
Definition get (message : gmap string json) (field : string) : json :=
  default jnull (message !! field).

(** [s != v] for a string [s]: only the same string is equal to it. *)
Definition differs (s : string) (v : json) : bool :=
  match v with
  | jstr s' => negb (bool_decide (s = s'))
  | _ => true
  end.

(** [key in d] and [d[key]] for a dict [d] whose keys are strings: a list
    and a dict cannot be hashed ([TypeError]), and a value that is not a
    string is equal to no key. *)
Inductive found (A : Type) : Type :=
| unhashable
| absent
| present (a : A).
Arguments unhashable {A}.
Arguments absent {A}.
Arguments present {A} a.

Definition find {A} (key : json) (d : gmap string A) : found A :=
  match key with
  | jlist _ | jdict _ => unhashable
  | jstr s =>
      match d !! s with
      | Some a => present a
      | None => absent
      end
  | _ => absent
  end.

(** A [SocketIOGame] with its keys as the strings they are (the module
    [SocketIO] stands each player key by the player it is the key of). *)
Record SocketIOGame : Type := mkGame {
  state : State;
  game_host_key : string;
  players_by_key : gmap string nat
}.

(** The exceptions that the decorators themselves can raise: [message.get]
    on a message that is not a dict, the hashing of a list or a dict, and
    a keyword argument given twice. *)
Inductive exception : Type :=
| AttributeError
| TypeError.

(** A decorated handler answers "fail" itself, raises, or runs the
    handler it wraps. *)
Inductive guarded (R : Type) : Type :=
| refused (error : string) (status : Z)
| raised (e : exception)
| ran (r : R).
Arguments refused {R} error status.
Arguments raised {R} e.
Arguments ran {R} r.

(** [game_method_decorator(message)], called with the one value the
    client sent.  [func(game=games[game_id], **message)] gives [game]
    twice when the message has a field of that name. *)
Definition game_method {R} (func : SocketIOGame → gmap string json → guarded R)
    (games : gmap string SocketIOGame) (message : json) : guarded R :=
  match message with
  | jdict message =>
      let game_id := get message "game_id" in
      if negb (truthy game_id) then refused "Game id is not specified." (-1)
      else
        match find game_id games with
        | unhashable => raised TypeError
        | absent => refused "No game with such id." (-2)
        | present game =>
            match message !! "game" with
            | Some _ => raised TypeError
            | None => func game message
            end
        end
  | _ => raised AttributeError
  end.

Definition game_host_only {R} (func : SocketIOGame → gmap string json → guarded R)
    : gmap string SocketIOGame → json → guarded R :=
  game_method (λ game kwargs,
    let host_key := get kwargs "host_key" in
    if negb (truthy host_key) then refused "Host key is required." (-3)
    else if differs (game_host_key game) host_key
    then refused "Wrong host key." (-4)
    else func game kwargs).

(** [func(game, **kwargs, player=player)] gives [player] twice when the
    message has a field of that name. *)
Definition joined_player_only {R}
    (func : SocketIOGame → PlayerRef → gmap string json → guarded R)
    : gmap string SocketIOGame → json → guarded R :=
  game_method (λ game kwargs,
    let player_key := get kwargs "player_key" in
    if negb (truthy player_key) then refused "Player key is required." (-5)
    else
      match find player_key (players_by_key game) with
      | unhashable => raised TypeError
      | absent => refused "Wrong player key." (-6)
      | present player =>
          match kwargs !! "player" with
          | Some _ => raised TypeError
          | None => func game player kwargs
          end
      end).

(** [sync]: what it emits to the sender when it is not refused is the
    outcome of [get_game_dao] on the game.  [host_key is not None] is
    false for a key that is absent or null only. *)
Definition sync : gmap string SocketIOGame → json
                  → guarded (State * outcome App.GameDao) :=
  game_method (λ game message,
    let host_key := get message "host_key" in
    match host_key with
    | jnull =>
        let player_key := get message "player_key" in
        match find player_key (players_by_key game) with
        | unhashable => raised TypeError
        | absent => refused "Wrong player key." (-6)
        | present _ => ran (App.get_game_dao (state game))
        end
    | _ =>
        if differs (game_host_key game) host_key
        then refused "Wrong host key." (-4)
        else ran (App.get_game_dao (state game))
    end).

End Wire.

(** ** Calls of the core methods in sequence *)

Inductive method_call : Type :=
| call_join (player_name : string)
| call_leave (player : PlayerRef)
| call_select_question (theme : Theme) (score : Z)
| call_select_answering_player (player : PlayerRef)
| call_accept_answer
| call_decline_answer
| call_skip_question.

(** The call itself ([join] hands back the new player, dropped here). *)
Definition invoke (c : method_call) : M unit :=
  match c with
  | call_join player_name => Game.join player_name;; mret tt
  | call_leave player => Game.leave player
  | call_select_question theme score => Game.select_question theme score
  | call_select_answering_player player => Game.select_answering_player player
  | call_accept_answer => Game.accept_answer
  | call_decline_answer => Game.decline_answer
  | call_skip_question => Game.skip_question
  end.

(** The state a call leaves, whether it returns or raises. *)
Definition exec (c : method_call) (s : State) : State :=
  state_after (invoke c) s.

Definition exec_all (cs : list method_call) (s : State) : State :=
  foldl (λ s c, exec c s) s cs.

(** ** The games of tests.py *)
Module Tests.

Definition test_theme : string := "TestTheme".

(** [setup_game_with_themes] *)
Definition setup_game_with_themes : State :=
  mkState []
    [Question.init "Test Question" "Test Answer" 100;
     Question.init "Test Other Question" "Test Answer" 200]
    [] {[ test_theme := [0%nat; 1%nat] ]} None.

(** [setup_game_players], [setup_game_selected_question] and
    [setup_game_answering_player] in sequence. *)
Definition setup_calls : list method_call :=
  [call_join "Test Player #1"; call_join "Test Player #2";
   call_join "Test Player #3";
   call_select_question test_theme 100;
   call_select_answering_player 0%nat].

Definition game_with_answering_player : State :=
  exec_all setup_calls setup_game_with_themes.

(** The same without [setup_game_answering_player]. *)
Definition game_with_selected_question : State :=
  exec_all (take 4 setup_calls) setup_game_with_themes.

End Tests.

(** ** The predicates of the properties *)

(** A question of the store whose score is not the one looked for. *)
Definition other_score (s : State) (score : Z) (question : nat) : Prop :=
  ∃ q, question_objs s !! question = Some q ∧ Question.score q ≠ score.

(** Every reference of the board designates a question of the store. *)
Definition live_board (s : State) : Prop :=
  ∀ theme theme_questions question,
    themes_questions s !! theme = Some theme_questions →
    question ∈ theme_questions →
    is_Some (question_objs s !! question).

(** Every question of every theme of the board is disabled. *)
Definition every_question_disabled (s : State) : Prop :=
  ∀ theme theme_questions question q,
    themes_questions s !! theme = Some theme_questions →
    question ∈ theme_questions →
    question_objs s !! question = Some q →
    Question.disabled q = true.

(** *** What a call can do to the state *)

(** Either nothing (the call raised, or assigned what was there), or the
    one change of its method. *)
Inductive transition (s : State) : method_call → State → Prop :=
| t_nothing c :
    transition s c s
| t_join player_name :
    transition s (call_join player_name)
      (mkState (player_objs s ++ [Player.init player_name 0]) (question_objs s)
         (players s ++ [length (player_objs s)])
         (themes_questions s) (current_question s))
| t_leave player roster :
    list_remove player (players s) = Some roster →
    transition s (call_leave player)
      (mkState (player_objs s) (question_objs s) roster
         (themes_questions s) (current_question s))
| t_select_question theme score question q :
    current_question s = None →
    question_objs s !! question = Some q →
    Question.disabled q = false →
    transition s (call_select_question theme score)
      (mkState (player_objs s) (question_objs s) (players s)
         (themes_questions s) (Some question))
| t_select_answering_player player question q :
    current_question s = Some question →
    question_objs s !! question = Some q →
    transition s (call_select_answering_player player)
      (mkState (player_objs s)
         (<[question := Question.set_answering_player (Some player) q]>
            (question_objs s))
         (players s) (themes_questions s) (current_question s))
| t_accept_answer question q p pl :
    current_question s = Some question →
    question_objs s !! question = Some q →
    Question.answering_player q = Some p →
    player_objs s !! p = Some pl →
    transition s call_accept_answer
      (mkState
         (<[p := Player.set_score (Player.score pl + Question.score q) pl]>
            (player_objs s))
         (<[question := Question.set_disabled true
                          (Question.set_answering_player None q)]>
            (question_objs s))
         (players s) (themes_questions s) None)
| t_decline_answer question q p pl :
    current_question s = Some question →
    question_objs s !! question = Some q →
    Question.answering_player q = Some p →
    player_objs s !! p = Some pl →
    transition s call_decline_answer
      (mkState
         (<[p := Player.set_score (Player.score pl - Question.score q) pl]>
            (player_objs s))
         (<[question := Question.set_answering_player None q]>
            (question_objs s))
         (players s) (themes_questions s) (Some question))
| t_skip_question question q :
    current_question s = Some question →
    question_objs s !! question = Some q →
    transition s call_skip_question
      (mkState (player_objs s)
         (<[question := Question.set_disabled true q]> (question_objs s))
         (players s) (themes_questions s) None).

(** The current question, when there is one, is enabled. *)
Definition current_enabled (s : State) : Prop :=
  ∀ question q,
    current_question s = Some question →
    question_objs s !! question = Some q →
    Question.disabled q = false.

(** A disabled question that is not the current one: what a call keeps. *)
Definition retired (s : State) (question : nat) : Prop :=
  (∃ q, question_objs s !! question = Some q ∧ Question.disabled q = true)
  ∧ current_question s ≠ Some question.

(** The answering player of the current question, when there is one, is
    in the roster. *)
Definition answering_player_in_roster (s : State) : Prop :=
  ∀ question q,
    current_question s = Some question →
    question_objs s !! question = Some q →
    Question.answering_player q = None
    ∨ ∃ p, Question.answering_player q = Some p ∧ p ∈ players s.

Module Scenario.

(** The board of tests.py as a theme file. *)
Definition file : list (string * list SocketIO.RawQuestion) :=
  [(Tests.test_theme,
    [SocketIO.mkRaw "Test Question" "Test Answer" 100;
     SocketIO.mkRaw "Test Other Question" "Test Answer" 200])].

(** A player joins and buzzes on the selected question, then leaves. *)
Definition buzz_then_leave : list SocketIO.message :=
  [SocketIO.join_game "Test Player #1";
   SocketIO.select_question Tests.test_theme 100;
   SocketIO.select_answering_player 0%nat;
   SocketIO.leave_game 0%nat].

End Scenario.

(** The references held by the game designate players of the store: the
    members of the roster, and the answering player of every question. *)
Definition players_live (s : State) : Prop :=
  (∀ p, p ∈ players s → (p < length (player_objs s))%nat)
  ∧ (∀ question q p,
       question_objs s !! question = Some q →
       Question.answering_player q = Some p →
       (p < length (player_objs s))%nat).

(** The two methods that change the roster. *)
Definition roster_call (c : method_call) : bool :=
  match c with
  | call_join _ | call_leave _ => true
  | _ => false
  end.

(** What holds of a game after the messages [msgs]: the references are
    live, a key of [players_by_key] is the key of a member of the roster,
    and a player of the store is in the roster unless a "leave_game" with
    the player's key is among the messages. *)
Record game_inv (msgs : list SocketIO.message) (g : SocketIO.SocketIOGame) : Prop := {
  inv_live : players_live (SocketIO.base g);
  inv_keys : ∀ k p, SocketIO.players_by_key g !! k = Some p →
                    k = p ∧ p ∈ players (SocketIO.base g);
  inv_left : ∀ p, (p < length (player_objs (SocketIO.base g)))%nat →
                  p ∈ players (SocketIO.base g) ∨ SocketIO.leave_game p ∈ msgs
}.

(** The roster holds live players, each once. *)
Definition roster_wf (s : State) : Prop :=
  NoDup (players s)
  ∧ ∀ p, p ∈ players s → (p < length (player_objs s))%nat.

(** What no method assigns: from [s] to [s'] the board is the same, the
    questions are the same objects with their text, answer and score, and
    the players that existed still exist with their name. *)
Definition keeps_fixed_parts (s s' : State) : Prop :=
  themes_questions s' = themes_questions s
  ∧ length (question_objs s') = length (question_objs s)
  ∧ (∀ question q, question_objs s !! question = Some q →
       ∃ q', question_objs s' !! question = Some q'
             ∧ Question.text q' = Question.text q
             ∧ Question.answer q' = Question.answer q
             ∧ Question.score q' = Question.score q)
  ∧ (∀ p pl, player_objs s !! p = Some pl →
       ∃ pl', player_objs s' !! p = Some pl'
              ∧ Player.name pl' = Player.name pl).

(** A computation that reads the game and leaves it as it is, whether
    it returns or raises. *)
Definition reads_only {A} (m : M A) : Prop := ∀ s, (m s).1 = s.

(** The references to questions held by the game, on the board and as
    current question, designate questions of the store. *)
Definition questions_live (s : State) : Prop :=
  live_board s
  ∧ ∀ question, current_question s = Some question →
                is_Some (question_objs s !! question).

(** The status and the text that the [except] clauses of app.py give to
    the classes of [GameError]. *)
Definition error_status (e : GameError) : Z :=
  match e with
  | QuestionIsAlreadySelected => 1
  | ThemeNotFound _ => 2
  | QuestionDisabled _ => 3
  | QuestionNotFound _ _ => 4
  | QuestionIsNotSelected => 5
  | PlayerIsNotSelected => 6
  | PlayerIsAlreadySelected _ => 7
  end.

Definition error_text (e : GameError) : string :=
  match e with
  | QuestionIsAlreadySelected => "Question is already selected."
  | ThemeNotFound _ => "No such theme in this game."
  | QuestionDisabled _ => "Question is disabled."
  | QuestionNotFound _ _ => "Question is not found."
  | QuestionIsNotSelected => "Question is not selected."
  | PlayerIsNotSelected => "Player is not selected."
  | PlayerIsAlreadySelected _ => "Player is already selected."
  end.

(** Two errors of the same class (their attributes apart). *)
Definition same_class (e1 e2 : GameError) : Prop :=
  match e1, e2 with
  | ThemeNotFound _, ThemeNotFound _
  | QuestionNotFound _ _, QuestionNotFound _ _
  | QuestionDisabled _, QuestionDisabled _
  | QuestionIsAlreadySelected, QuestionIsAlreadySelected
  | QuestionIsNotSelected, QuestionIsNotSelected
  | PlayerIsNotSelected, PlayerIsNotSelected
  | PlayerIsAlreadySelected _, PlayerIsAlreadySelected _ => True
  | _, _ => False
  end.

(** The method of [Game] that the handler of a message calls, once the
    key of the message is resolved; none for an unknown key. *)
Definition method_of (g : SocketIO.SocketIOGame) (msg : SocketIO.message)
    : option method_call :=
  match msg with
  | SocketIO.join_game player_name => Some (call_join player_name)
  | SocketIO.leave_game player_key =>
      call_leave <$> SocketIO.players_by_key g !! player_key
  | SocketIO.select_question theme score =>
      Some (call_select_question theme score)
  | SocketIO.select_answering_player player_key =>
      call_select_answering_player <$> SocketIO.players_by_key g !! player_key
  | SocketIO.accept_answer => Some call_accept_answer
  | SocketIO.decline_answer => Some call_decline_answer
  | SocketIO.skip_question => Some call_skip_question
  end.

(** The object sent for a player, and for a question, of the store. *)
Definition player_dao_of (s : State) (player : nat) (dao : App.PlayerDao) : Prop :=
  ∃ pl, player_objs s !! player = Some pl
        ∧ dao = App.mkPlayerDao (Player.name pl) (Player.score pl).

Definition question_dao_of (s : State) (question : nat) (dao : App.QuestionDao)
    : Prop :=
  ∃ q, question_objs s !! question = Some q
       ∧ dao = App.mkQuestionDao (Question.text q) (Question.score q)
                 (Question.disabled q).

(** A player object that is neither in the roster nor behind a key: a
    player who has left. *)
Definition gone (g : SocketIO.SocketIOGame) (p : nat) : Prop :=
  SocketIO.players_by_key g !! p = None
  ∧ (p ∉ players (SocketIO.base g))
  ∧ (p < length (player_objs (SocketIO.base g)))%nat.

Module WireScenario.

(** A registry with one game, its host key and one player key. *)
Definition the_game : Wire.SocketIOGame :=
  Wire.mkGame Tests.game_with_answering_player "host-key"
    {[ "player-key" := 0%nat ]}.

Definition games : gmap string Wire.SocketIOGame := {[ "game" := the_game ]}.

(** A message: a dict with these fields. *)
Definition fields (items : list (string * Wire.json)) : gmap string Wire.json :=
  list_to_map items.

Definition message (items : list (string * Wire.json)) : Wire.json :=
  Wire.jdict (fields items).

End WireScenario.

(** The player [p] was created by a "join_game" among the messages
    [msgs] handled from the game [g0]: the [join] of that message
    returned [p]. *)
Definition join_handled (g0 : SocketIO.SocketIOGame)
    (msgs : list SocketIO.message) (p : nat) : Prop :=
  ∃ before player_name after,
    msgs = before ++ SocketIO.join_game player_name :: after
    ∧ (Game.join player_name (SocketIO.base (SocketIO.run before g0))).2
      = Return p.

(** A leave of the player [p] was handled among the messages [msgs]: a
    "leave_game" arrived with a key that was then the key of [p], a member
    of the roster, and its handler took [p] out of the roster. *)
Definition leave_handled (g0 : SocketIO.SocketIOGame)
    (msgs : list SocketIO.message) (p : nat) : Prop :=
  ∃ before player_key after,
    msgs = before ++ SocketIO.leave_game player_key :: after
    ∧ SocketIO.players_by_key (SocketIO.run before g0) !! player_key = Some p
    ∧ p ∈ players (SocketIO.base (SocketIO.run before g0))
    ∧ (p ∉ players
         (SocketIO.base
            (SocketIO.run (before ++ [SocketIO.leave_game player_key]) g0))).

(** * Properties *)

Example test_setup :
  Tests.game_with_answering_player =
  mkState [Player.init "Test Player #1" 0; Player.init "Test Player #2" 0;
           Player.init "Test Player #3" 0]
    [Question.mk "Test Question" "Test Answer" 100 false (Some 0%nat);
     Question.init "Test Other Question" "Test Answer" 200]
    [0%nat; 1%nat; 2%nat] {[ Tests.test_theme := [0%nat; 1%nat] ]} (Some 0%nat).
Proof. vm_compute. reflexivity. Qed.

(** ** Running a method by hand *)

Ltac run_method :=
  unfold Game.accept_answer, Game.decline_answer, Game.skip_question,
    Game.select_answering_player, Game.select_question, Game.join, Game.leave,
    QuestionMethods.accept_answer, QuestionMethods.decline_answer,
    update_question, update_player, set_current_question, set_players,
    new_player, get_question, get_player, read, write, raise,
    mbind, M_bind, mret, M_ret; simpl.

Lemma set_answering_player_same (q : Question.t) (o : option nat) :
  Question.answering_player q = o → Question.set_answering_player o q = q.
Proof. destruct q; simpl; intros ->; reflexivity. Qed.

Lemma state_eta (s : State) :
  mkState (player_objs s) (question_objs s) (players s)
          (themes_questions s) (current_question s) = s.
Proof. destruct s; reflexivity. Qed.

Lemma accept_answer_run (s : State) (question p : nat)
    (q : Question.t) (pl : Player.t) :
  current_question s = Some question →
  question_objs s !! question = Some q →
  Question.answering_player q = Some p →
  player_objs s !! p = Some pl →
  Game.accept_answer s =
    (mkState
       (<[p := Player.set_score (Player.score pl + Question.score q) pl]>
          (player_objs s))
       (<[question := Question.set_disabled true
                        (Question.set_answering_player None q)]>
          (question_objs s))
       (players s) (themes_questions s) None, Return tt).
Proof.
  intros Hcur Hq Hap Hpl.
  assert (Hlt_q : (question < length (question_objs s))%nat)
    by (eapply lookup_lt_Some; eauto).
  run_method. rewrite Hcur. simpl. rewrite Hq, Hap. simpl.
  rewrite Hq, Hap. simpl. rewrite Hpl. simpl. rewrite Hq. simpl.
  rewrite list_lookup_insert_eq by done. simpl.
  rewrite list_insert_insert_eq. reflexivity.
Qed.

Lemma decline_answer_run (s : State) (question p : nat)
    (q : Question.t) (pl : Player.t) :
  current_question s = Some question →
  question_objs s !! question = Some q →
  Question.answering_player q = Some p →
  player_objs s !! p = Some pl →
  Game.decline_answer s =
    (mkState
       (<[p := Player.set_score (Player.score pl - Question.score q) pl]>
          (player_objs s))
       (<[question := Question.set_answering_player None q]>
          (question_objs s))
       (players s) (themes_questions s) (Some question), Return tt).
Proof.
  intros Hcur Hq Hap Hpl.
  run_method. rewrite Hcur. simpl. rewrite Hq, Hap. simpl.
  rewrite Hq, Hap. simpl. rewrite Hpl. simpl. rewrite Hq. simpl.
  rewrite Hcur. reflexivity.
Qed.

(** C3.  With a current question and an answering player, [accept_answer]
    returns; the answering player's score has grown by the question's
    score, the question has no answering player any more and is disabled,
    and there is no current question.  Nothing else changes. *)
Theorem accept_answer_effect (s : State) (question p : nat)
    (q : Question.t) (pl : Player.t) :
  current_question s = Some question →
  question_objs s !! question = Some q →
  Question.answering_player q = Some p →
  player_objs s !! p = Some pl →
  ∃ s' pl' q',
    Game.accept_answer s = (s', Return tt)
    ∧ player_objs s' !! p = Some pl'
    ∧ Player.score pl' = Player.score pl + Question.score q
    ∧ Player.name pl' = Player.name pl
    ∧ (∀ p', p' ≠ p → player_objs s' !! p' = player_objs s !! p')
    ∧ question_objs s' !! question = Some q'
    ∧ Question.answering_player q' = None
    ∧ Question.disabled q' = true
    ∧ (∀ question', question' ≠ question →
         question_objs s' !! question' = question_objs s !! question')
    ∧ players s' = players s
    ∧ themes_questions s' = themes_questions s
    ∧ current_question s' = None.
Proof.
  intros Hcur Hq Hap Hpl.
  assert (Hlt_q : (question < length (question_objs s))%nat)
    by (eapply lookup_lt_Some; eauto).
  assert (Hlt_p : (p < length (player_objs s))%nat)
    by (eapply lookup_lt_Some; eauto).
  eexists _, _, _. split; [apply accept_answer_run; eassumption |].
  simpl. rewrite !list_lookup_insert_eq by done.
  repeat split; try reflexivity.
  - intros p' Hne. apply list_lookup_insert_ne. congruence.
  - intros question' Hne. apply list_lookup_insert_ne. congruence.
Qed.

Lemma accept_answer_effect_witness :
  current_question Tests.game_with_answering_player = Some 0%nat
  ∧ ∃ s' pl' q',
    Game.accept_answer Tests.game_with_answering_player = (s', Return tt)
    ∧ player_objs s' !! 0%nat = Some pl'
    ∧ Player.score pl' = 0 + 100
    ∧ question_objs s' !! 0%nat = Some q'
    ∧ Question.answering_player q' = None
    ∧ Question.disabled q' = true
    ∧ current_question s' = None.
Proof.
  split; [reflexivity |].
  destruct (accept_answer_effect Tests.game_with_answering_player 0 0
              (Question.mk "Test Question" "Test Answer" 100 false (Some 0%nat))
              (Player.init "Test Player #1" 0))
    as (s' & pl' & q' & H1 & H2 & H3 & _ & _ & H4 & H5 & H6 & _ & _ & _ & H7);
    [reflexivity | reflexivity | reflexivity | reflexivity |].
  exists s', pl', q'. repeat split; assumption.
Defined.

(** C10.  With a current question that has an answering player,
    [skip_question] returns; the question is disabled and still references
    that player, there is no current question, and the players and their
    scores are as they were. *)
Theorem skip_question_keeps_answering_player (s : State) (question p : nat)
    (q : Question.t) :
  current_question s = Some question →
  question_objs s !! question = Some q →
  Question.answering_player q = Some p →
  ∃ s' q',
    Game.skip_question s = (s', Return tt)
    ∧ question_objs s' !! question = Some q'
    ∧ Question.disabled q' = true
    ∧ Question.answering_player q' = Some p
    ∧ current_question s' = None
    ∧ player_objs s' = player_objs s
    ∧ players s' = players s.
Proof.
  intros Hcur Hq Hap.
  assert (Hlt_q : (question < length (question_objs s))%nat)
    by (eapply lookup_lt_Some; eauto).
  eexists _, _. split.
  - run_method. rewrite Hcur. simpl. rewrite Hq. simpl. reflexivity.
  - simpl. rewrite list_lookup_insert_eq by done.
    repeat split; try reflexivity. exact Hap.
Qed.

Lemma skip_question_keeps_answering_player_witness :
  current_question Tests.game_with_answering_player = Some 0%nat
  ∧ ∃ s' q',
    Game.skip_question Tests.game_with_answering_player = (s', Return tt)
    ∧ question_objs s' !! 0%nat = Some q'
    ∧ Question.disabled q' = true
    ∧ Question.answering_player q' = Some 0%nat
    ∧ current_question s' = None
    ∧ player_objs s' = player_objs Tests.game_with_answering_player
    ∧ players s' = players Tests.game_with_answering_player.
Proof.
  split; [reflexivity |].
  apply (skip_question_keeps_answering_player
           Tests.game_with_answering_player 0 0
           (Question.mk "Test Question" "Test Answer" 100 false (Some 0%nat)));
    reflexivity.
Defined.

(** C7.  With a current question: selecting the player who is already
    the answering player returns and changes nothing; selecting another
    player while one is set raises [PlayerIsAlreadySelected] with the
    player of the call and changes nothing; selecting a player when none
    is set returns with that player set on the current question. *)
Theorem select_answering_player_arbitration (s : State) (question : nat)
    (q : Question.t) :
  current_question s = Some question →
  question_objs s !! question = Some q →
  (∀ p, Question.answering_player q = Some p →
        Game.select_answering_player p s = (s, Return tt))
  ∧ (∀ p p', Question.answering_player q = Some p → p' ≠ p →
        Game.select_answering_player p' s =
          (s, Raise (Game_error (PlayerIsAlreadySelected p'))))
  ∧ (∀ p, Question.answering_player q = None →
        ∃ s', Game.select_answering_player p s = (s', Return tt)
              ∧ question_objs s' !! question =
                  Some (Question.set_answering_player (Some p) q)
              ∧ s' = mkState (player_objs s)
                       (<[question := Question.set_answering_player (Some p) q]>
                          (question_objs s))
                       (players s) (themes_questions s) (current_question s)).
Proof.
  intros Hcur Hq.
  assert (Hlt_q : (question < length (question_objs s))%nat)
    by (eapply lookup_lt_Some; eauto).
  split; [| split].
  - intros p Hap. run_method. rewrite Hcur. simpl. rewrite Hq, Hap. simpl.
    case_bool_decide as Hd; [destruct Hd; congruence |].
    simpl. rewrite Hq. simpl.
    rewrite set_answering_player_same by exact Hap.
    rewrite list_insert_id by exact Hq.
    rewrite state_eta. reflexivity.
  - intros p p' Hap Hne. run_method. rewrite Hcur. simpl. rewrite Hq, Hap. simpl.
    case_bool_decide as Hd; [reflexivity |].
    destruct Hd. split; congruence.
  - intros p Hap. eexists. split; [| split].
    + run_method. rewrite Hcur. simpl. rewrite Hq, Hap. simpl.
      rewrite Hq. simpl. reflexivity.
    + simpl. rewrite list_lookup_insert_eq by done. reflexivity.
    + reflexivity.
Qed.

Lemma select_answering_player_arbitration_witness :
  Game.select_answering_player 0 Tests.game_with_answering_player =
    (Tests.game_with_answering_player, Return tt)
  ∧ Game.select_answering_player 1 Tests.game_with_answering_player =
    (Tests.game_with_answering_player,
     Raise (Game_error (PlayerIsAlreadySelected 1)))
  ∧ ∃ s', Game.select_answering_player 0 Tests.game_with_selected_question =
            (s', Return tt)
          ∧ question_objs s' !! 0%nat =
              Some (Question.mk "Test Question" "Test Answer" 100 false (Some 0%nat)).
Proof.
  destruct (select_answering_player_arbitration
              Tests.game_with_answering_player 0
              (Question.mk "Test Question" "Test Answer" 100 false (Some 0%nat)))
    as (Hsame & Hother & _); [reflexivity | reflexivity |].
  destruct (select_answering_player_arbitration
              Tests.game_with_selected_question 0
              (Question.init "Test Question" "Test Answer" 100))
    as (_ & _ & Hfirst); [reflexivity | reflexivity |].
  split; [| split].
  - apply Hsame. reflexivity.
  - apply (Hother 0%nat 1%nat); [reflexivity | lia].
  - destruct (Hfirst 0%nat eq_refl) as (s' & Hrun & Hq & _).
    exists s'. split; [exact Hrun | exact Hq].
Defined.

(** ** No partial mutation *)

Lemma select_question_loop_raise (theme : string) (score : Z)
    (theme_questions : list nat) (s s' : State) (e : Exn) :
  Game.select_question_loop theme score theme_questions s = (s', Raise e) →
  s' = s.
Proof.
  induction theme_questions as [| question rest IH]; simpl.
  - unfold raise. congruence.
  - run_method. destruct (question_objs s !! question) as [q |]; [| congruence].
    destruct (bool_decide (Question.score q = score)); [| exact IH].
    destruct (Question.disabled q); congruence.
Qed.

Lemma select_question_raise (theme : string) (score : Z) (s s' : State) (e : Exn) :
  Game.select_question theme score s = (s', Raise e) → s' = s.
Proof.
  run_method. destruct (current_question s); [congruence |].
  destruct (themes_questions s !! theme) as [[| question rest] |];
    [congruence | | congruence].
  apply select_question_loop_raise.
Qed.

Lemma select_answering_player_raise (p : nat) (s s' : State) (e : Exn) :
  Game.select_answering_player p s = (s', Raise e) → s' = s.
Proof.
  run_method. repeat case_match; simplify_eq; congruence.
Qed.

(** An attribute assignment does not make a live reference dangle. *)
Ltac live_after_update :=
  match goal with
  | Hnone : <[_ := _]> _ !! ?r = None, Hsome : ?l !! ?r = Some _ |- _ =>
      exfalso; apply lookup_ge_None in Hnone; apply lookup_lt_Some in Hsome;
      rewrite ?length_insert in Hnone; lia
  end.

Ltac split_method :=
  run_method; repeat (case_match; simplify_eq; simpl in * );
  try congruence; try live_after_update.

Lemma accept_answer_raise (s s' : State) (e : Exn) :
  Game.accept_answer s = (s', Raise e) → s' = s.
Proof. split_method. Qed.

Lemma decline_answer_raise (s s' : State) (e : Exn) :
  Game.decline_answer s = (s', Raise e) → s' = s.
Proof. split_method. Qed.

Lemma skip_question_raise (s s' : State) (e : Exn) :
  Game.skip_question s = (s', Raise e) → s' = s.
Proof. split_method. Qed.

(** C5.  When [select_question], [select_answering_player],
    [accept_answer], [decline_answer] or [skip_question] raises, the
    state (the players and their scores, the questions with their
    [disabled] flag and answering player, the roster, the board and the
    current question) is exactly the state before the call. *)
Theorem failure_leaves_state_unchanged (s s' : State) (e : Exn) :
  (∀ theme score, Game.select_question theme score s = (s', Raise e) → s' = s)
  ∧ (∀ player, Game.select_answering_player player s = (s', Raise e) → s' = s)
  ∧ (Game.accept_answer s = (s', Raise e) → s' = s)
  ∧ (Game.decline_answer s = (s', Raise e) → s' = s)
  ∧ (Game.skip_question s = (s', Raise e) → s' = s).
Proof.
  repeat split.
  - intros theme score. apply select_question_raise.
  - intros player. apply select_answering_player_raise.
  - apply accept_answer_raise.
  - apply decline_answer_raise.
  - apply skip_question_raise.
Qed.

Lemma failure_leaves_state_unchanged_witness :
  state_after (Game.select_question "InvalidTheme" 100) Tests.setup_game_with_themes
    = Tests.setup_game_with_themes
  ∧ state_after (Game.select_answering_player 1) Tests.game_with_answering_player
    = Tests.game_with_answering_player
  ∧ state_after Game.accept_answer Tests.game_with_selected_question
    = Tests.game_with_selected_question
  ∧ state_after Game.decline_answer Tests.game_with_selected_question
    = Tests.game_with_selected_question
  ∧ state_after Game.skip_question Tests.setup_game_with_themes
    = Tests.setup_game_with_themes.
Proof.
  split; [| split; [| split; [| split]]].
  - apply (proj1 (failure_leaves_state_unchanged Tests.setup_game_with_themes
                    _ (Game_error (ThemeNotFound "InvalidTheme")))
             "InvalidTheme" 100).
    reflexivity.
  - apply (proj1 (proj2 (failure_leaves_state_unchanged
                           Tests.game_with_answering_player
                           _ (Game_error (PlayerIsAlreadySelected 1)))) 1%nat).
    reflexivity.
  - apply (proj1 (proj2 (proj2 (failure_leaves_state_unchanged
                                  Tests.game_with_selected_question
                                  _ (Game_error PlayerIsNotSelected))))).
    reflexivity.
  - apply (proj1 (proj2 (proj2 (proj2 (failure_leaves_state_unchanged
                                         Tests.game_with_selected_question
                                         _ (Game_error PlayerIsNotSelected)))))).
    reflexivity.
  - apply (proj2 (proj2 (proj2 (proj2 (failure_leaves_state_unchanged
                                         Tests.setup_game_with_themes
                                         _ (Game_error QuestionIsNotSelected)))))).
    reflexivity.
Defined.

(** ** The scan of select_question *)

Lemma select_question_loop_found (theme : string) (score : Z) (s : State)
    (before after : list nat) (question : nat) (q : Question.t) :
  Forall (other_score s score) before →
  question_objs s !! question = Some q →
  Question.score q = score →
  Game.select_question_loop theme score (before ++ question :: after) s =
    if Question.disabled q
    then (s, Raise (Game_error (QuestionDisabled question)))
    else (mkState (player_objs s) (question_objs s) (players s)
                  (themes_questions s) (Some question), Return tt).
Proof.
  intros Hbefore Hq Hscore.
  induction Hbefore as [| r before (q' & Hq' & Hne) _ IH]; simpl.
  - run_method. rewrite Hq. simpl.
    rewrite bool_decide_eq_true_2 by exact Hscore.
    destruct (Question.disabled q); reflexivity.
  - run_method. rewrite Hq'. simpl.
    rewrite bool_decide_eq_false_2 by exact Hne.
    exact IH.
Qed.

Lemma select_question_loop_not_found (theme : string) (score : Z) (s : State)
    (theme_questions : list nat) :
  Forall (other_score s score) theme_questions →
  Game.select_question_loop theme score theme_questions s =
    (s, Raise (Game_error (QuestionNotFound theme score))).
Proof.
  induction 1 as [| r rest (q' & Hq' & Hne) _ IH]; simpl.
  - reflexivity.
  - run_method. rewrite Hq'. simpl.
    rewrite bool_decide_eq_false_2 by exact Hne.
    exact IH.
Qed.

(** C4.  [select_question] checks in this order: a current question
    raises [QuestionIsAlreadySelected], whatever the theme and the score;
    else a theme that is no key of the board, or whose list is empty,
    raises [ThemeNotFound] with the theme; else the first question of the
    theme with the score decides: disabled, it raises [QuestionDisabled]
    with that question; enabled, it becomes the current question and the
    call returns; and with no question of that score the call raises
    [QuestionNotFound] with the theme and the score. *)
Theorem select_question_order (theme : string) (score : Z) (s : State) :
  (is_Some (current_question s) →
     Game.select_question theme score s =
       (s, Raise (Game_error QuestionIsAlreadySelected)))
  ∧ (current_question s = None →
     themes_questions s !! theme = None ∨ themes_questions s !! theme = Some [] →
     Game.select_question theme score s =
       (s, Raise (Game_error (ThemeNotFound theme))))
  ∧ (∀ before question after q,
     current_question s = None →
     themes_questions s !! theme = Some (before ++ question :: after) →
     Forall (other_score s score) before →
     question_objs s !! question = Some q →
     Question.score q = score →
     (Question.disabled q = true →
        Game.select_question theme score s =
          (s, Raise (Game_error (QuestionDisabled question))))
     ∧ (Question.disabled q = false →
        Game.select_question theme score s =
          (mkState (player_objs s) (question_objs s) (players s)
                   (themes_questions s) (Some question), Return tt)))
  ∧ (∀ theme_questions,
     current_question s = None →
     themes_questions s !! theme = Some theme_questions →
     theme_questions ≠ [] →
     Forall (other_score s score) theme_questions →
     Game.select_question theme score s =
       (s, Raise (Game_error (QuestionNotFound theme score)))).
Proof.
  split; [| split; [| split]].
  - intros [c Hc]. run_method. rewrite Hc. reflexivity.
  - intros Hcur [Hth | Hth]; run_method; rewrite Hcur; simpl; rewrite Hth;
      reflexivity.
  - intros before question after q Hcur Hth Hbefore Hq Hscore.
    assert (Hrun : Game.select_question theme score s =
                   Game.select_question_loop theme score
                     (before ++ question :: after) s).
    { unfold Game.select_question. run_method. rewrite Hcur. simpl.
      rewrite Hth. destruct before; reflexivity. }
    rewrite Hrun.
    rewrite (select_question_loop_found _ _ _ _ _ _ q) by assumption.
    split; intros ->; reflexivity.
  - intros theme_questions Hcur Hth Hne Hall.
    unfold Game.select_question. run_method. rewrite Hcur. simpl. rewrite Hth.
    destruct theme_questions as [| r rest]; [congruence |].
    apply select_question_loop_not_found. exact Hall.
Qed.

Lemma select_question_order_witness :
  Game.select_question Tests.test_theme 200 Tests.game_with_selected_question
    = (Tests.game_with_selected_question,
       Raise (Game_error QuestionIsAlreadySelected))
  ∧ Game.select_question "InvalidTheme" 100 Tests.setup_game_with_themes
    = (Tests.setup_game_with_themes,
       Raise (Game_error (ThemeNotFound "InvalidTheme")))
  ∧ Game.select_question Tests.test_theme 100
      (exec call_accept_answer Tests.game_with_answering_player)
    = (exec call_accept_answer Tests.game_with_answering_player,
       Raise (Game_error (QuestionDisabled 0)))
  ∧ current_question
      (state_after (Game.select_question Tests.test_theme 200)
         Tests.setup_game_with_themes) = Some 1%nat
  ∧ Game.select_question Tests.test_theme (-100) Tests.setup_game_with_themes
    = (Tests.setup_game_with_themes,
       Raise (Game_error (QuestionNotFound Tests.test_theme (-100)))).
Proof.
  split; [| split; [| split; [| split]]].
  - apply (select_question_order Tests.test_theme 200
             Tests.game_with_selected_question).
    exists 0%nat. reflexivity.
  - apply (select_question_order "InvalidTheme" 100 Tests.setup_game_with_themes);
      [reflexivity | left; reflexivity].
  - apply (proj1 (proj2 (proj2 (select_question_order Tests.test_theme 100
             (exec call_accept_answer Tests.game_with_answering_player))))
             [] 0%nat [1%nat]
             (Question.mk "Test Question" "Test Answer" 100 true None));
      try reflexivity.
    constructor.
  - destruct (proj1 (proj2 (proj2 (select_question_order Tests.test_theme 200
               Tests.setup_game_with_themes)))
               [0%nat] 1%nat []
               (Question.init "Test Other Question" "Test Answer" 200))
      as [_ Henabled];
      [reflexivity | reflexivity | | reflexivity | reflexivity |].
    { repeat constructor. eexists. split; [reflexivity | discriminate]. }
    unfold state_after. rewrite Henabled by reflexivity. reflexivity.
  - apply (proj2 (proj2 (proj2 (select_question_order Tests.test_theme (-100)
             Tests.setup_game_with_themes))) [0%nat; 1%nat]);
      try reflexivity; [discriminate |].
    repeat constructor; eexists; (split; [reflexivity | discriminate]).
Defined.

(** ** is_over *)

Lemma all_disabled_spec (s : State) (questions : list nat) :
  Forall (λ question, is_Some (question_objs s !! question)) questions →
  ∃ b, Game.all_disabled questions s = (s, Return b)
       ∧ (b = true ↔
          ∀ question q, question ∈ questions →
            question_objs s !! question = Some q → Question.disabled q = true).
Proof.
  induction 1 as [| question rest [q Hq] _ (b & Hrun & Hb)]; simpl.
  - exists true. split; [reflexivity |]. split; [| reflexivity].
    intros _ question q Hin. inversion Hin.
  - run_method. rewrite Hq. simpl.
    destruct (Question.disabled q) eqn:Hdis.
    + exists b. split; [exact Hrun |]. rewrite Hb. split.
      * intros Hrest r q' Hin Hq'. apply elem_of_cons in Hin as [-> | Hin].
        -- congruence.
        -- eapply Hrest; eauto.
      * intros Hall r q' Hin. apply Hall. apply elem_of_cons. right. exact Hin.
    + exists false. split; [reflexivity |]. split; [discriminate |].
      intros Hall. rewrite (Hall question q) in Hdis; [discriminate | | exact Hq].
      apply elem_of_cons. left. reflexivity.
Qed.

Lemma is_over_loop_spec (s : State) (items : list (string * list nat)) :
  (∀ theme questions question, (theme, questions) ∈ items →
     question ∈ questions → is_Some (question_objs s !! question)) →
  ∃ b, Game.is_over_loop items s = (s, Return b)
       ∧ (b = true ↔
          ∀ theme questions question q, (theme, questions) ∈ items →
            question ∈ questions →
            question_objs s !! question = Some q → Question.disabled q = true).
Proof.
  induction items as [| [theme questions] rest IH]; intros Hlive; simpl.
  - exists true. split; [reflexivity |]. split; [| reflexivity].
    intros _ theme questions question q Hin. inversion Hin.
  - destruct (all_disabled_spec s questions) as (b1 & Hrun1 & Hb1).
    { apply Forall_forall. intros question Hin.
      apply (Hlive theme questions); [apply elem_of_cons; left; reflexivity | exact Hin]. }
    destruct IH as (b2 & Hrun2 & Hb2).
    { intros theme' questions' question Hin.
      apply (Hlive theme' questions'). apply elem_of_cons. right. exact Hin. }
    unfold mbind, M_bind. rewrite Hrun1. destruct b1.
    + exists b2. split; [exact Hrun2 |]. rewrite Hb2. split.
      * intros Hrest theme' questions' question q Hin Hin' Hq.
        apply elem_of_cons in Hin as [Heq | Hin].
        -- injection Heq as -> ->. apply (proj1 Hb1 eq_refl question); assumption.
        -- eapply Hrest; eauto.
      * intros Hall theme' questions' question q Hin.
        apply (Hall theme' questions'). apply elem_of_cons. right. exact Hin.
    + exists false. split; [reflexivity |]. split; [discriminate |].
      intros Hall. apply Hb1. intros question q Hin Hq.
      apply (Hall theme questions question q);
        [apply elem_of_cons; left; reflexivity | exact Hin | exact Hq].
Qed.

(** C6.  On a board whose references are live, [is_over] returns, without
    changing anything, [True] exactly when every question of every theme
    is disabled; with an enabled question on the board it returns
    [False]. *)
Theorem is_over_iff_every_question_disabled (s : State) :
  live_board s →
  ∃ b, Game.is_over s = (s, Return b)
       ∧ (b = true ↔ every_question_disabled s)
       ∧ ((∃ theme theme_questions question q,
             themes_questions s !! theme = Some theme_questions
             ∧ question ∈ theme_questions
             ∧ question_objs s !! question = Some q
             ∧ Question.disabled q = false) → b = false).
Proof.
  intros Hlive.
  destruct (is_over_loop_spec s (map_to_list (themes_questions s)))
    as (b & Hrun & Hb).
  { intros theme questions question Hin.
    apply elem_of_map_to_list in Hin. eapply Hlive; eauto. }
  assert (Hiff : b = true ↔ every_question_disabled s).
  { rewrite Hb. unfold every_question_disabled. split.
    - intros Hall theme questions question q Hth.
      apply (Hall theme questions). apply elem_of_map_to_list. exact Hth.
    - intros Hall theme questions question q Hin.
      apply (Hall theme questions). apply elem_of_map_to_list. exact Hin. }
  exists b. split; [| split].
  - unfold Game.is_over, read, mbind, M_bind. exact Hrun.
  - exact Hiff.
  - intros (theme & questions & question & q & Hth & Hin & Hq & Hdis).
    destruct b; [| reflexivity].
    rewrite (proj1 Hiff eq_refl theme questions question q Hth Hin Hq) in Hdis.
    discriminate.
Qed.

Lemma tests_board_live (objs : list Player.t) (q0 q1 : Question.t)
    (roster : list nat) (current : option nat) :
  live_board (mkState objs [q0; q1] roster
                {[ Tests.test_theme := [0%nat; 1%nat] ]} current).
Proof.
  intros theme questions question Hth Hin. simpl in *.
  apply lookup_singleton_Some in Hth as [_ <-].
  apply elem_of_cons in Hin as [-> | Hin]; [eexists; reflexivity |].
  apply list_elem_of_singleton in Hin as ->. eexists; reflexivity.
Qed.

Lemma is_over_iff_every_question_disabled_witness :
  live_board Tests.setup_game_with_themes
  ∧ ∃ b, Game.is_over Tests.setup_game_with_themes
           = (Tests.setup_game_with_themes, Return b)
         ∧ (b = true ↔ every_question_disabled Tests.setup_game_with_themes)
         ∧ b = false.
Proof.
  assert (Hlive : live_board Tests.setup_game_with_themes)
    by apply tests_board_live.
  split; [exact Hlive |].
  destruct (is_over_iff_every_question_disabled Tests.setup_game_with_themes Hlive)
    as (b & Hrun & Hiff & Henabled).
  exists b. split; [exact Hrun | split; [exact Hiff |]].
  apply Henabled.
  exists Tests.test_theme, [0%nat; 1%nat], 0%nat,
    (Question.init "Test Question" "Test Answer" 100).
  split; [reflexivity |]. split; [apply elem_of_cons; left; reflexivity |].
  split; reflexivity.
Defined.

Example test_start_game :
  Game.is_over Tests.setup_game_with_themes
    = (Tests.setup_game_with_themes, Return false).
Proof. vm_compute. reflexivity. Qed.

(** ** The roster *)

Lemma list_remove_last (x : nat) (l : list nat) :
  x ∉ l → list_remove x (l ++ [x]) = Some l.
Proof.
  induction l as [| y l IH]; intros Hnotin; simpl.
  - rewrite decide_True by reflexivity. reflexivity.
  - apply not_elem_of_cons in Hnotin as [Hne Hnotin].
    rewrite decide_False by congruence.
    rewrite IH by exact Hnotin. reflexivity.
Qed.

Lemma list_remove_elem_of (x y : nat) (l l' : list nat) :
  list_remove x l = Some l' → (y ∈ l ↔ y = x ∨ y ∈ l') ∧ x ∈ l.
Proof.
  revert l'. induction l as [| z l IH]; intros l'; simpl; [discriminate |].
  destruct (decide (z = x)) as [-> | Hne].
  - intros [= ->]. rewrite elem_of_cons. split; [tauto | left; reflexivity].
  - destruct (list_remove x l) as [l'' |] eqn:Hrem; simpl; [| discriminate].
    intros [= <-]. destruct (IH l'' eq_refl) as [Hiff Hin].
    rewrite !elem_of_cons, Hiff. split; [tauto | right; exact Hin].
Qed.

(** C8.  [join] returns a new player (a reference that designated nothing
    before), whose name is the given one and whose score is 0, appended at
    the end of the roster, and touches nothing else; [leave] of that
    player then returns and the roster is again the one before the join,
    in the same order.  (The members of a roster are live objects.) *)
Theorem join_then_leave (s : State) (player_name : string) :
  Forall (λ p, is_Some (player_objs s !! p)) (players s) →
  ∃ s1 player s2,
    Game.join player_name s = (s1, Return player)
    ∧ player_objs s !! player = None
    ∧ player_objs s1 !! player = Some (Player.init player_name 0)
    ∧ players s1 = players s ++ [player]
    ∧ s1 = mkState (player_objs s ++ [Player.init player_name 0])
             (question_objs s) (players s ++ [player])
             (themes_questions s) (current_question s)
    ∧ Game.leave player s1 = (s2, Return tt)
    ∧ players s2 = players s.
Proof.
  intros Hlive.
  assert (Hnew : length (player_objs s) ∉ players s).
  { intros Hin. rewrite Forall_forall in Hlive.
    destruct (Hlive _ Hin) as [obj Hobj].
    apply lookup_lt_Some in Hobj. lia. }
  eexists _, _, _. split; [| split; [| split; [| split; [| split; [| split]]]]].
  - run_method. reflexivity.
  - apply lookup_ge_None. lia.
  - simpl. rewrite lookup_app_r by lia. rewrite Nat.sub_diag. reflexivity.
  - reflexivity.
  - reflexivity.
  - run_method. rewrite list_remove_last by exact Hnew. reflexivity.
  - reflexivity.
Qed.

Lemma join_then_leave_witness :
  ∃ s1 s2,
    Game.join "Test Player #4" Tests.game_with_answering_player
      = (s1, Return 3%nat)
    ∧ players s1 = [0; 1; 2; 3]%nat
    ∧ Game.leave 3 s1 = (s2, Return tt)
    ∧ players s2 = [0; 1; 2]%nat.
Proof.
  destruct (join_then_leave Tests.game_with_answering_player "Test Player #4")
    as (s1 & player & s2 & Hjoin & _ & _ & Hroster & _ & Hleave & Hback).
  { repeat constructor; eexists; reflexivity. }
  assert (Hplayer : player = 3%nat).
  { assert (Hrun : Game.join "Test Player #4" Tests.game_with_answering_player
                   = (state_after (Game.join "Test Player #4")
                        Tests.game_with_answering_player, Return 3%nat))
      by reflexivity.
    rewrite Hrun in Hjoin. congruence. }
  subst player. exists s1, s2. repeat split; assumption.
Defined.

(** ** The calls as transitions *)

Lemma select_question_loop_transition (theme : string) (score : Z)
    (theme_questions : list nat) (s : State) :
  current_question s = None →
  transition s (call_select_question theme score)
    (state_after (Game.select_question_loop theme score theme_questions) s).
Proof.
  intros Hcur. unfold state_after.
  induction theme_questions as [| question rest IH]; simpl.
  - apply t_nothing.
  - run_method. destruct (question_objs s !! question) as [q |] eqn:Hq;
      [| apply t_nothing].
    destruct (bool_decide (Question.score q = score)); [| exact IH].
    destruct (Question.disabled q) eqn:Hdis; [apply t_nothing |].
    simpl. eapply t_select_question; eauto.
Qed.

Lemma exec_transition (c : method_call) (s : State) :
  transition s c (exec c s).
Proof.
  unfold exec. destruct c as [name | player | theme score | player | | |];
    simpl.
  - unfold state_after. run_method. apply t_join.
  - unfold state_after. run_method.
    destruct (list_remove player (players s)) eqn:Hrem;
      [apply t_leave; exact Hrem | apply t_nothing].
  - unfold Game.select_question, state_after, read, mbind, M_bind, raise.
    destruct (current_question s) eqn:Hcur; [apply t_nothing |].
    destruct (themes_questions s !! theme) as [[| question rest] |];
      [apply t_nothing | | apply t_nothing].
    apply select_question_loop_transition. exact Hcur.
  - destruct (current_question s) as [question |] eqn:Hcur;
      [| unfold state_after; run_method; rewrite Hcur; apply t_nothing].
    destruct (question_objs s !! question) as [q |] eqn:Hq;
      [| unfold state_after; run_method; rewrite Hcur; simpl; rewrite Hq;
         apply t_nothing].
    unfold state_after. run_method. rewrite Hcur. simpl. rewrite Hq. simpl.
    case_bool_decide; [apply t_nothing |].
    simpl. rewrite Hq. simpl.
    eapply t_select_answering_player; [exact Hcur | exact Hq].
  - destruct (current_question s) as [question |] eqn:Hcur;
      [| unfold state_after; run_method; rewrite Hcur; apply t_nothing].
    destruct (question_objs s !! question) as [q |] eqn:Hq;
      [| unfold state_after; run_method; rewrite Hcur; simpl; rewrite Hq;
         apply t_nothing].
    destruct (Question.answering_player q) as [p |] eqn:Hap;
      [| unfold state_after; run_method; rewrite Hcur; simpl; rewrite Hq, Hap;
         apply t_nothing].
    destruct (player_objs s !! p) as [pl |] eqn:Hpl.
    + unfold state_after.
      rewrite (accept_answer_run s question p q pl Hcur Hq Hap Hpl). simpl.
      eapply t_accept_answer; eauto.
    + unfold state_after. run_method. rewrite Hcur. simpl. rewrite Hq, Hap. simpl.
      rewrite Hq, Hap. simpl. rewrite Hpl. apply t_nothing.
  - destruct (current_question s) as [question |] eqn:Hcur;
      [| unfold state_after; run_method; rewrite Hcur; apply t_nothing].
    destruct (question_objs s !! question) as [q |] eqn:Hq;
      [| unfold state_after; run_method; rewrite Hcur; simpl; rewrite Hq;
         apply t_nothing].
    destruct (Question.answering_player q) as [p |] eqn:Hap;
      [| unfold state_after; run_method; rewrite Hcur; simpl; rewrite Hq, Hap;
         apply t_nothing].
    destruct (player_objs s !! p) as [pl |] eqn:Hpl.
    + unfold state_after.
      rewrite (decline_answer_run s question p q pl Hcur Hq Hap Hpl). simpl.
      eapply t_decline_answer; eauto.
    + unfold state_after. run_method. rewrite Hcur. simpl. rewrite Hq, Hap. simpl.
      rewrite Hq, Hap. simpl. rewrite Hpl. apply t_nothing.
  - destruct (current_question s) as [question |] eqn:Hcur;
      [| unfold state_after; run_method; rewrite Hcur; apply t_nothing].
    destruct (question_objs s !! question) as [q |] eqn:Hq;
      [| unfold state_after; run_method; rewrite Hcur; simpl; rewrite Hq;
         apply t_nothing].
    unfold state_after. run_method. rewrite Hcur. simpl. rewrite Hq. simpl.
    eapply t_skip_question; eauto.
Qed.

Lemma exec_all_cons (c : method_call) (cs : list method_call) (s : State) :
  exec_all (c :: cs) s = exec_all cs (exec c s).
Proof. reflexivity. Qed.

(** ** The current question is an enabled one *)

Lemma transition_keeps_current_enabled (s s' : State) (c : method_call) :
  transition s c s' → current_enabled s → current_enabled s'.
Proof.
  intros Hstep Hinv.
  destruct Hstep as [c | name | player roster Hrem
                    | theme score r q0 Hcur Hq0 Hen
                    | player r q0 Hcur Hq0
                    | r q0 p pl Hcur Hq0 Hap Hpl
                    | r q0 p pl Hcur Hq0 Hap Hpl
                    | r q0 Hcur Hq0];
    try exact Hinv; intros question q Hc Hq; simpl in *; try discriminate.
  - injection Hc as <-. congruence.
  - rewrite Hcur in Hc. injection Hc as <-.
    rewrite list_lookup_insert_eq in Hq by (eapply lookup_lt_Some; eauto).
    injection Hq as <-. simpl. eapply Hinv; eauto.
  - injection Hc as <-.
    rewrite list_lookup_insert_eq in Hq by (eapply lookup_lt_Some; eauto).
    injection Hq as <-. simpl. eapply Hinv; eauto.
Qed.

Lemma exec_all_current_enabled (cs : list method_call) (s : State) :
  current_enabled s → current_enabled (exec_all cs s).
Proof.
  revert s. induction cs as [| c cs IH]; intros s Hinv; [exact Hinv |].
  rewrite exec_all_cons. apply IH.
  eapply transition_keeps_current_enabled; [apply exec_transition | exact Hinv].
Qed.

(** C2.  With a current question and an answering player,
    [decline_answer] returns; the answering player's score has dropped by
    the question's score, the question has no answering player any more,
    its [disabled] flag is as it was, and the question is still the current
    one.  Nothing else changes.  The flag is false: a current question
    set by the calls of the methods is enabled. *)
Theorem decline_answer_effect (s : State) (question p : nat)
    (q : Question.t) (pl : Player.t) :
  current_question s = Some question →
  question_objs s !! question = Some q →
  Question.answering_player q = Some p →
  player_objs s !! p = Some pl →
  ∃ s' pl' q',
    Game.decline_answer s = (s', Return tt)
    ∧ player_objs s' !! p = Some pl'
    ∧ Player.score pl' = Player.score pl - Question.score q
    ∧ Player.name pl' = Player.name pl
    ∧ (∀ p', p' ≠ p → player_objs s' !! p' = player_objs s !! p')
    ∧ question_objs s' !! question = Some q'
    ∧ Question.answering_player q' = None
    ∧ Question.disabled q' = Question.disabled q
    ∧ (∀ s0 cs, current_question s0 = None → s = exec_all cs s0 →
         Question.disabled q' = false)
    ∧ (∀ question', question' ≠ question →
         question_objs s' !! question' = question_objs s !! question')
    ∧ players s' = players s
    ∧ themes_questions s' = themes_questions s
    ∧ current_question s' = Some question.
Proof.
  intros Hcur Hq Hap Hpl.
  assert (Hlt_q : (question < length (question_objs s))%nat)
    by (eapply lookup_lt_Some; eauto).
  assert (Hlt_p : (p < length (player_objs s))%nat)
    by (eapply lookup_lt_Some; eauto).
  eexists _, _, _. split; [apply decline_answer_run; eassumption |].
  simpl. rewrite !list_lookup_insert_eq by done.
  repeat split; auto.
  - intros p' Hne. apply list_lookup_insert_ne. congruence.
  - intros s0 cs Hnone ->. simpl.
    apply (exec_all_current_enabled cs s0) with (question := question);
      [| exact Hcur | exact Hq].
    intros r q0 Hr. congruence.
  - intros question' Hne. apply list_lookup_insert_ne. congruence.
Qed.

Lemma decline_answer_effect_witness :
  current_question Tests.game_with_answering_player = Some 0%nat
  ∧ ∃ s' pl' q',
    Game.decline_answer Tests.game_with_answering_player = (s', Return tt)
    ∧ player_objs s' !! 0%nat = Some pl'
    ∧ Player.score pl' = 0 - 100
    ∧ question_objs s' !! 0%nat = Some q'
    ∧ Question.answering_player q' = None
    ∧ Question.disabled q' = false
    ∧ current_question s' = Some 0%nat.
Proof.
  split; [reflexivity |].
  destruct (decline_answer_effect Tests.game_with_answering_player 0 0
              (Question.mk "Test Question" "Test Answer" 100 false (Some 0%nat))
              (Player.init "Test Player #1" 0))
    as (s' & pl' & q' & H1 & H2 & H3 & _ & _ & H4 & H5 & _ & H6 & _ & _ & _ & H7);
    [reflexivity | reflexivity | reflexivity | reflexivity |].
  exists s', pl', q'. repeat split; try assumption.
  apply (H6 Tests.setup_game_with_themes Tests.setup_calls); reflexivity.
Defined.

(** ** Disabled questions *)

Lemma transition_keeps_disabled (s s' : State) (c : method_call) (question : nat) :
  transition s c s' →
  (∃ q, question_objs s !! question = Some q ∧ Question.disabled q = true) →
  ∃ q, question_objs s' !! question = Some q ∧ Question.disabled q = true.
Proof.
  intros Hstep (q & Hq & Hdis).
  assert (Hlt : (question < length (question_objs s))%nat)
    by (eapply lookup_lt_Some; eauto).
  destruct Hstep as [c | name | player roster Hrem
                    | theme score r q0 Hcur Hq0 Hen
                    | player r q0 Hcur Hq0
                    | r q0 p pl Hcur Hq0 Hap Hpl
                    | r q0 p pl Hcur Hq0 Hap Hpl
                    | r q0 Hcur Hq0]; simpl; eauto.
  - destruct (decide (r = question)) as [-> | Hne].
    + rewrite list_lookup_insert_eq by done. eexists. split; [reflexivity |].
      simpl. congruence.
    + rewrite list_lookup_insert_ne by done. eauto.
  - destruct (decide (r = question)) as [-> | Hne].
    + rewrite list_lookup_insert_eq by done. eexists. split; reflexivity.
    + rewrite list_lookup_insert_ne by done. eauto.
  - destruct (decide (r = question)) as [-> | Hne].
    + rewrite list_lookup_insert_eq by done. eexists. split; [reflexivity |].
      simpl. congruence.
    + rewrite list_lookup_insert_ne by done. eauto.
  - destruct (decide (r = question)) as [-> | Hne].
    + rewrite list_lookup_insert_eq by done. eexists. split; reflexivity.
    + rewrite list_lookup_insert_ne by done. eauto.
Qed.

Lemma transition_keeps_retired (s s' : State) (c : method_call) (question : nat) :
  transition s c s' → retired s question → retired s' question.
Proof.
  intros Hstep [Hdis Hcurrent]. split.
  - eapply transition_keeps_disabled; eauto.
  - destruct Hdis as (q & Hq & Hdis).
    destruct Hstep as [c | name | player roster Hrem
                      | theme score r q0 Hcur Hq0 Hen
                      | player r q0 Hcur Hq0
                      | r q0 p pl Hcur Hq0 Hap Hpl
                      | r q0 p pl Hcur Hq0 Hap Hpl
                      | r q0 Hcur Hq0]; simpl; try assumption; try discriminate.
    + intros [= ->]. congruence.
    + congruence.
Qed.

(** C9.  Through any sequence of calls, a question that is disabled stays
    disabled, and a disabled question that is not the current one (as
    after [accept_answer] and [skip_question], which disable it) never
    becomes the current question: a [select_question] that returns has
    selected an enabled question. *)
Theorem disabled_is_final (cs : list method_call) (s : State) (question : nat)
    (q : Question.t) :
  question_objs s !! question = Some q →
  Question.disabled q = true →
  (∃ q', question_objs (exec_all cs s) !! question = Some q'
         ∧ Question.disabled q' = true)
  ∧ (current_question s ≠ Some question →
     current_question (exec_all cs s) ≠ Some question)
  ∧ (∀ theme score s',
       Game.select_question theme score s = (s', Return tt) →
       current_question s' ≠ Some question).
Proof.
  intros Hq Hdis. split; [| split].
  - assert (Hstart : ∃ q0, question_objs s !! question = Some q0
                           ∧ Question.disabled q0 = true) by eauto.
    clear Hq Hdis. revert s Hstart.
    induction cs as [| c cs IH]; intros s Hstart; [exact Hstart |].
    rewrite exec_all_cons. apply IH.
    eapply transition_keeps_disabled; [apply exec_transition | exact Hstart].
  - intros Hcurrent.
    assert (Hstart : retired s question) by (split; eauto).
    clear Hq Hdis Hcurrent. revert s Hstart.
    induction cs as [| c cs IH]; intros s Hstart; [apply Hstart |].
    rewrite exec_all_cons. apply IH.
    eapply transition_keeps_retired; [apply exec_transition | exact Hstart].
  - intros theme score s' Hrun.
    destruct (current_question s) as [c |] eqn:Hcur.
    + unfold Game.select_question, read, mbind, M_bind, raise in Hrun.
      rewrite Hcur in Hrun. discriminate.
    + assert (Hret : retired (exec (call_select_question theme score) s) question).
      { eapply transition_keeps_retired; [apply exec_transition |].
        split; [eauto | congruence]. }
      unfold exec, state_after in Hret. simpl in Hret. rewrite Hrun in Hret.
      apply Hret.
Qed.

Lemma disabled_is_final_witness :
  let s := exec call_accept_answer Tests.game_with_answering_player in
  let cs := [call_select_question Tests.test_theme 100;
             call_select_question Tests.test_theme 200;
             call_select_answering_player 1%nat; call_decline_answer;
             call_skip_question; call_select_question Tests.test_theme 100] in
  (∃ q', question_objs (exec_all cs s) !! 0%nat = Some q'
         ∧ Question.disabled q' = true)
  ∧ current_question (exec_all cs s) ≠ Some 0%nat
  ∧ current_question (state_after (Game.select_question Tests.test_theme 200) s)
      ≠ Some 0%nat.
Proof.
  intros s cs.
  destruct (disabled_is_final cs s 0
              (Question.mk "Test Question" "Test Answer" 100 true None))
    as (Hstays & Hnever & Hselect); [reflexivity | reflexivity |].
  split; [exact Hstays |]. split; [apply Hnever; discriminate |].
  apply (Hselect Tests.test_theme 200). reflexivity.
Defined.

(** ** The answering player and the roster *)

Example buzz_then_leave_state :
  SocketIO.base (SocketIO.run Scenario.buzz_then_leave
                   (SocketIO.start_game Scenario.file)) =
  mkState [Player.init "Test Player #1" 0]
    [Question.mk "Test Question" "Test Answer" 100 false (Some 0%nat);
     Question.init "Test Other Question" "Test Answer" 200]
    [] {[ Tests.test_theme := [0%nat; 1%nat] ]} (Some 0%nat).
Proof. vm_compute. reflexivity. Qed.

(** C1, as stated, fails: after the messages of [buzz_then_leave] the
    current question's answering player is the player who left, and the
    roster is empty. *)
Lemma answering_player_left_roster :
  ¬ answering_player_in_roster
      (SocketIO.base (SocketIO.run Scenario.buzz_then_leave
                        (SocketIO.start_game Scenario.file))).
Proof.
  intros Hinv.
  destruct (Hinv 0%nat
              (Question.mk "Test Question" "Test Answer" 100 false (Some 0%nat))
              eq_refl eq_refl) as [Hnone | (p & _ & Hin)].
  - discriminate Hnone.
  - vm_compute in Hin. inversion Hin.
Qed.

Lemma transition_keeps_roster (s s' : State) (c : method_call) :
  transition s c s' → roster_call c = false →
  players s' = players s ∧ length (player_objs s') = length (player_objs s).
Proof.
  intros Hstep Hc.
  destruct Hstep; simpl in *; try discriminate; rewrite ?length_insert; auto.
Qed.

Lemma transition_keeps_players_live (s s' : State) (c : method_call) :
  transition s c s' → roster_call c = false →
  (∀ p, c = call_select_answering_player p → p ∈ players s) →
  players_live s → players_live s'.
Proof.
  intros Hstep Hc Hbuzz [Hroster Hanswering].
  destruct Hstep as [c | name | player roster Hrem
                    | theme score r q0 Hcur Hq0 Hen
                    | player r q0 Hcur Hq0
                    | r q0 p pl Hcur Hq0 Hap Hpl
                    | r q0 p pl Hcur Hq0 Hap Hpl
                    | r q0 Hcur Hq0];
    simpl in *; try discriminate; split; simpl;
    rewrite ?length_insert; try assumption.
  - intros question q p Hq Hap.
    apply list_lookup_insert_Some in Hq as [(_ & <- & _) | [_ Hq]].
    + simpl in Hap. injection Hap as <-. apply Hroster, Hbuzz. reflexivity.
    + eapply Hanswering; eauto.
  - intros question q p' Hq Hap'.
    apply list_lookup_insert_Some in Hq as [(_ & <- & _) | [_ Hq]].
    + discriminate Hap'.
    + eapply Hanswering; eauto.
  - intros question q p' Hq Hap'.
    apply list_lookup_insert_Some in Hq as [(_ & <- & _) | [_ Hq]].
    + discriminate Hap'.
    + eapply Hanswering; eauto.
  - intros question q p Hq Hap.
    apply list_lookup_insert_Some in Hq as [(_ & <- & _) | [_ Hq]].
    + simpl in Hap. eapply Hanswering; eauto.
    + eapply Hanswering; eauto.
Qed.

Lemma load_game_themes_fresh (file : list (string * list SocketIO.RawQuestion))
    (acc : list Question.t * gmap string (list nat)) :
  Forall (λ q, Question.answering_player q = None) acc.1 →
  Forall (λ q, Question.answering_player q = None)
    (foldl SocketIO.load_theme acc file).1.
Proof.
  revert acc. induction file as [| item file IH]; intros acc Hacc; simpl.
  - exact Hacc.
  - apply IH. simpl. apply Forall_app. split; [exact Hacc |].
    apply Forall_fmap, Forall_forall. intros r _. reflexivity.
Qed.

Lemma start_game_inv (file : list (string * list SocketIO.RawQuestion)) :
  game_inv [] (SocketIO.start_game file).
Proof.
  split; simpl.
  - split; simpl.
    + intros p Hin. inversion Hin.
    + intros question q p Hq Hap.
      pose proof (load_game_themes_fresh file ([], ∅) (Forall_nil_2 _)) as Hfresh.
      rewrite Forall_forall in Hfresh.
      rewrite (Hfresh q) in Hap; [discriminate |].
      eapply list_elem_of_lookup_2. exact Hq.
  - intros k p Hk. rewrite lookup_empty in Hk. discriminate.
  - intros p Hlt. lia.
Qed.

Lemma game_inv_more (msgs : list SocketIO.message) (msg : SocketIO.message)
    (g : SocketIO.SocketIOGame) :
  game_inv msgs g → game_inv (msgs ++ [msg]) g.
Proof.
  intros [Hlive Hkeys Hleft]. split; [exact Hlive | exact Hkeys |].
  intros p Hlt. destruct (Hleft p Hlt) as [Hin | Hin]; [left; exact Hin |].
  right. apply elem_of_app. left. exact Hin.
Qed.

Lemma call_inv (msgs : list SocketIO.message) (g : SocketIO.SocketIOGame)
    (c : method_call) :
  roster_call c = false →
  (∀ p, c = call_select_answering_player p → p ∈ players (SocketIO.base g)) →
  game_inv msgs g →
  game_inv msgs (SocketIO.call (invoke c) g).
Proof.
  intros Hc Hbuzz [Hlive Hkeys Hleft].
  pose proof (exec_transition c (SocketIO.base g)) as Hstep.
  destruct (transition_keeps_roster _ _ _ Hstep Hc) as [Hroster Hlen].
  unfold SocketIO.call. fold (exec c (SocketIO.base g)).
  split; simpl.
  - eapply transition_keeps_players_live; eauto.
  - intros k p Hk. rewrite Hroster. apply Hkeys. exact Hk.
  - intros p Hlt. rewrite Hroster. apply Hleft. lia.
Qed.

Lemma join_inv (msgs : list SocketIO.message) (g : SocketIO.SocketIOGame)
    (player_name : string) :
  game_inv msgs g → game_inv msgs (SocketIO.join player_name g).
Proof.
  intros [[Hroster Hanswering] Hkeys Hleft].
  unfold SocketIO.join. run_method.
  split; [split | |]; simpl.
  - intros p Hin. rewrite length_app. simpl.
    apply elem_of_app in Hin as [Hin | Hin]; [apply Hroster in Hin; lia |].
    apply list_elem_of_singleton in Hin as ->. lia.
  - intros question q p Hq Hap. rewrite length_app. simpl.
    pose proof (Hanswering question q p Hq Hap). lia.
  - intros k p Hk. apply lookup_insert_Some in Hk as [[<- <-] | [_ Hk]].
    + split; [reflexivity |]. apply elem_of_app. right.
      apply list_elem_of_singleton. reflexivity.
    + destruct (Hkeys k p Hk) as [-> Hin]. split; [reflexivity |].
      apply elem_of_app. left. exact Hin.
  - intros p Hlt. rewrite length_app in Hlt. simpl in Hlt.
    destruct (decide (p = length (player_objs (SocketIO.base g)))) as [-> | Hne].
    + left. apply elem_of_app. right. apply list_elem_of_singleton. reflexivity.
    + destruct (Hleft p) as [Hin | Hin]; [lia | | right; exact Hin].
      left. apply elem_of_app. left. exact Hin.
Qed.

Lemma leave_inv (msgs : list SocketIO.message) (g : SocketIO.SocketIOGame)
    (player : nat) :
  game_inv msgs g →
  game_inv (msgs ++ [SocketIO.leave_game player]) (SocketIO.leave player g).
Proof.
  intros Hinv. unfold SocketIO.leave. run_method.
  destruct (list_remove player (players (SocketIO.base g))) as [roster |] eqn:Hrem;
    simpl.
  - destruct Hinv as [[Hroster Hanswering] Hkeys Hleft].
    assert (Hmem : ∀ p, p ∈ players (SocketIO.base g) ↔ p = player ∨ p ∈ roster).
    { intros p. apply (list_remove_elem_of player p _ _ Hrem). }
    split; [split | |]; simpl.
    + intros p Hin. apply Hroster, Hmem. right. exact Hin.
    + exact Hanswering.
    + intros k p Hk. apply lookup_delete_Some in Hk as [Hne Hk].
      destruct (Hkeys k p Hk) as [-> Hin]. split; [reflexivity |].
      apply Hmem in Hin as [-> | Hin]; [congruence | exact Hin].
    + intros p Hlt. destruct (Hleft p Hlt) as [Hin | Hin].
      * apply Hmem in Hin as [-> | Hin]; [| left; exact Hin].
        right. apply elem_of_app. right. apply list_elem_of_singleton. reflexivity.
      * right. apply elem_of_app. left. exact Hin.
  - apply game_inv_more. destruct g, Hinv. split; assumption.
Qed.

Lemma handle_inv (msgs : list SocketIO.message) (msg : SocketIO.message)
    (g : SocketIO.SocketIOGame) :
  game_inv msgs g → game_inv (msgs ++ [msg]) (SocketIO.handle msg g).
Proof.
  intros Hinv.
  destruct msg as [name | k | theme score | k | | |]; simpl.
  - apply game_inv_more, join_inv, Hinv.
  - unfold SocketIO.joined_player_only.
    destruct (SocketIO.players_by_key g !! k) as [p |] eqn:Hk;
      [| apply game_inv_more, Hinv].
    destruct (inv_keys _ _ Hinv k p Hk) as [-> _]. apply leave_inv, Hinv.
  - apply game_inv_more.
    apply (call_inv msgs g (call_select_question theme score));
      [reflexivity | discriminate | exact Hinv].
  - unfold SocketIO.joined_player_only.
    destruct (SocketIO.players_by_key g !! k) as [p |] eqn:Hk;
      [| apply game_inv_more, Hinv].
    apply game_inv_more.
    apply (call_inv msgs g (call_select_answering_player p));
      [reflexivity | | exact Hinv].
    intros p' [= <-]. apply (inv_keys _ _ Hinv k p Hk).
  - apply game_inv_more.
    apply (call_inv msgs g call_accept_answer);
      [reflexivity | discriminate | exact Hinv].
  - apply game_inv_more.
    apply (call_inv msgs g call_decline_answer);
      [reflexivity | discriminate | exact Hinv].
  - apply game_inv_more.
    apply (call_inv msgs g call_skip_question);
      [reflexivity | discriminate | exact Hinv].
Qed.

Lemma run_inv (file : list (string * list SocketIO.RawQuestion))
    (msgs : list SocketIO.message) :
  game_inv msgs (SocketIO.run msgs (SocketIO.start_game file)).
Proof.
  induction msgs as [| msg msgs IH] using rev_ind.
  - apply start_game_inv.
  - unfold SocketIO.run. rewrite foldl_app. simpl.
    apply handle_inv. exact IH.
Qed.

(** * Further properties of game.py *)

(** ** The guards of the methods *)

Lemma select_question_loop_errors (theme : string) (score : Z)
    (theme_questions : list nat) (s s' : State) (e : GameError) :
  Game.select_question_loop theme score theme_questions s
    = (s', Raise (Game_error e)) →
  e = QuestionNotFound theme score ∨ ∃ question, e = QuestionDisabled question.
Proof.
  induction theme_questions as [| question rest IH]; simpl.
  - unfold raise. intros [= _ <-]. left. reflexivity.
  - run_method. destruct (question_objs s !! question) as [q |]; [| discriminate].
    destruct (bool_decide (Question.score q = score)); [| exact IH].
    destruct (Question.disabled q); [| discriminate].
    intros [= _ <-]. right. eauto.
Qed.

Lemma select_question_errors (theme : string) (score : Z) (s s' : State)
    (e : GameError) :
  Game.select_question theme score s = (s', Raise (Game_error e)) →
  e = QuestionIsAlreadySelected ∨ e = ThemeNotFound theme
  ∨ e = QuestionNotFound theme score ∨ ∃ question, e = QuestionDisabled question.
Proof.
  unfold Game.select_question, read, mbind, M_bind, raise.
  destruct (current_question s); [intros [= _ <-]; auto |].
  destruct (themes_questions s !! theme) as [[| question rest] |];
    [intros [= _ <-]; auto | | intros [= _ <-]; auto].
  intros Hrun. apply select_question_loop_errors in Hrun. tauto.
Qed.

(** X1.
    Without a current question, [select_answering_player],
    [accept_answer], [decline_answer] and [skip_question] raise
    [QuestionIsNotSelected], whoever buzzes and whatever the rest of the
    game is, and [select_question] is the only method that is not
    refused for that reason: in no state, for no theme and no score, does
    [select_question] raise [QuestionIsNotSelected]. *)
Theorem no_current_question_raises (s : State) :
  current_question s = None →
  (∀ player, Game.select_answering_player player s =
               (s, Raise (Game_error QuestionIsNotSelected)))
  ∧ Game.accept_answer s = (s, Raise (Game_error QuestionIsNotSelected))
  ∧ Game.decline_answer s = (s, Raise (Game_error QuestionIsNotSelected))
  ∧ Game.skip_question s = (s, Raise (Game_error QuestionIsNotSelected))
  ∧ (∀ s1 theme score,
       (Game.select_question theme score s1).2 ≠
         Raise (Game_error QuestionIsNotSelected)).
Proof.
  intros Hcur. split; [| split; [| split; [| split]]].
  - intros player. run_method. rewrite Hcur. reflexivity.
  - run_method. rewrite Hcur. reflexivity.
  - run_method. rewrite Hcur. reflexivity.
  - run_method. rewrite Hcur. reflexivity.
  - intros s1 theme score Hrun.
    destruct (Game.select_question theme score s1) as [s' o] eqn:Hsel.
    simpl in Hrun. subst o.
    apply select_question_errors in Hsel.
    destruct Hsel as [He | [He | [He | [question He]]]]; discriminate.
Qed.

Lemma no_current_question_raises_witness :
  Game.select_answering_player 0 Tests.setup_game_with_themes =
    (Tests.setup_game_with_themes, Raise (Game_error QuestionIsNotSelected))
  ∧ Game.accept_answer Tests.setup_game_with_themes =
    (Tests.setup_game_with_themes, Raise (Game_error QuestionIsNotSelected))
  ∧ Game.decline_answer Tests.setup_game_with_themes =
    (Tests.setup_game_with_themes, Raise (Game_error QuestionIsNotSelected))
  ∧ Game.skip_question Tests.setup_game_with_themes =
    (Tests.setup_game_with_themes, Raise (Game_error QuestionIsNotSelected)).
Proof.
  destruct (no_current_question_raises Tests.setup_game_with_themes eq_refl)
    as (Hbuzz & Haccept & Hdecline & Hskip & _).
  split; [apply Hbuzz | split; [exact Haccept | split; [exact Hdecline | exact Hskip]]].
Defined.

(** X2.
    With a current question that has no answering player, [accept_answer]
    and [decline_answer] raise [PlayerIsNotSelected] and change nothing:
    no score moves and the question stays current and enabled. *)
Theorem no_answering_player_raises (s : State) (question : nat) (q : Question.t) :
  current_question s = Some question →
  question_objs s !! question = Some q →
  Question.answering_player q = None →
  Game.accept_answer s = (s, Raise (Game_error PlayerIsNotSelected))
  ∧ Game.decline_answer s = (s, Raise (Game_error PlayerIsNotSelected)).
Proof.
  intros Hcur Hq Hap. split.
  - run_method. rewrite Hcur. simpl. rewrite Hq, Hap. reflexivity.
  - run_method. rewrite Hcur. simpl. rewrite Hq, Hap. reflexivity.
Qed.

Lemma no_answering_player_raises_witness :
  Game.accept_answer Tests.game_with_selected_question =
    (Tests.game_with_selected_question, Raise (Game_error PlayerIsNotSelected))
  ∧ Game.decline_answer Tests.game_with_selected_question =
    (Tests.game_with_selected_question, Raise (Game_error PlayerIsNotSelected)).
Proof.
  apply (no_answering_player_raises Tests.game_with_selected_question 0
           (Question.init "Test Question" "Test Answer" 100)); reflexivity.
Defined.

Lemma skip_question_run (s : State) (question : nat) (q : Question.t) :
  current_question s = Some question →
  question_objs s !! question = Some q →
  Game.skip_question s =
    (mkState (player_objs s)
       (<[question := Question.set_disabled true q]> (question_objs s))
       (players s) (themes_questions s) None, Return tt).
Proof.
  intros Hcur Hq. run_method. rewrite Hcur. simpl. rewrite Hq. reflexivity.
Qed.

(** X3.
    [skip_question] with a current question returns whether or not an
    answering player is set: the question is disabled, its other
    attributes (answering player included) are as they were, there is no
    current question, and no player, score or other question changes. *)
Theorem skip_question_effect (s : State) (question : nat) (q : Question.t) :
  current_question s = Some question →
  question_objs s !! question = Some q →
  Game.skip_question s =
    (mkState (player_objs s)
       (<[question := Question.mk (Question.text q) (Question.answer q)
                        (Question.score q) true (Question.answering_player q)]>
          (question_objs s))
       (players s) (themes_questions s) None, Return tt).
Proof.
  intros Hcur Hq. rewrite (skip_question_run s question q Hcur Hq). reflexivity.
Qed.

Lemma skip_question_effect_witness :
  Game.skip_question Tests.game_with_selected_question =
    (mkState (player_objs Tests.game_with_selected_question)
       [Question.mk "Test Question" "Test Answer" 100 true None;
        Question.init "Test Other Question" "Test Answer" 200]
       (players Tests.game_with_selected_question)
       (themes_questions Tests.game_with_selected_question) None, Return tt).
Proof.
  apply (skip_question_effect Tests.game_with_selected_question 0
           (Question.init "Test Question" "Test Answer" 100)); reflexivity.
Defined.

(** ** leave and the roster *)

Lemma list_remove_split (x : nat) (before after : list nat) :
  x ∉ before → list_remove x (before ++ x :: after) = Some (before ++ after).
Proof.
  induction before as [| y before IH]; intros Hnotin; simpl.
  - rewrite decide_True by reflexivity. reflexivity.
  - apply not_elem_of_cons in Hnotin as [Hne Hnotin].
    rewrite decide_False by congruence.
    rewrite IH by exact Hnotin. reflexivity.
Qed.

Lemma list_remove_not_in (x : nat) (l : list nat) :
  x ∉ l → list_remove x l = None.
Proof.
  induction l as [| y l IH]; intros Hnotin; simpl; [reflexivity |].
  apply not_elem_of_cons in Hnotin as [Hne Hnotin].
  rewrite decide_False by congruence.
  rewrite IH by exact Hnotin. reflexivity.
Qed.

Lemma list_remove_None_inv (x : nat) (l : list nat) :
  list_remove x l = None → x ∉ l.
Proof.
  induction l as [| y l IH]; simpl; intros Hrem.
  - apply not_elem_of_nil.
  - destruct (decide (y = x)) as [-> | Hne]; [discriminate |].
    destruct (list_remove x l); [discriminate |].
    apply not_elem_of_cons. split; [congruence | apply IH; reflexivity].
Qed.

Lemma list_remove_Some_inv (x : nat) (l l' : list nat) :
  list_remove x l = Some l' →
  ∃ before after,
    l = before ++ x :: after ∧ (x ∉ before) ∧ l' = before ++ after.
Proof.
  revert l'. induction l as [| y l IH]; intros l'; simpl; [discriminate |].
  destruct (decide (y = x)) as [-> | Hne].
  - intros [= ->]. exists [], l'. split; [reflexivity |].
    split; [apply not_elem_of_nil | reflexivity].
  - destruct (list_remove x l) as [l'' |]; simpl; [| discriminate].
    intros [= <-]. destruct (IH l'' eq_refl) as (before & after & -> & Hnotin & ->).
    exists (y :: before), after. split; [reflexivity |].
    split; [| reflexivity]. apply not_elem_of_cons. split; [congruence | exact Hnotin].
Qed.

(** X4.
    [leave] of a player who is not in the roster raises [ValueError] and
    changes nothing; [leave] of a member returns, drops the first
    occurrence of the player from the roster and keeps the others in
    their order; the player's object, the scores, the questions and the
    current question are not touched. *)
Theorem leave_effect (s : State) (player : nat) :
  (player ∉ players s → Game.leave player s = (s, Raise ValueError))
  ∧ (∀ before after,
       players s = before ++ player :: after → player ∉ before →
       Game.leave player s =
         (mkState (player_objs s) (question_objs s) (before ++ after)
            (themes_questions s) (current_question s), Return tt)).
Proof.
  split.
  - intros Hnotin. run_method. rewrite list_remove_not_in by exact Hnotin.
    reflexivity.
  - intros before after Hroster Hnotin. run_method.
    rewrite Hroster. rewrite list_remove_split by exact Hnotin. reflexivity.
Qed.

Lemma leave_effect_witness :
  Game.leave 7 Tests.game_with_answering_player =
    (Tests.game_with_answering_player, Raise ValueError)
  ∧ players (state_after (Game.leave 1) Tests.game_with_answering_player)
    = [0; 2]%nat.
Proof.
  destruct (leave_effect Tests.game_with_answering_player 7) as [Habsent _].
  destruct (leave_effect Tests.game_with_answering_player 1) as [_ Hmember].
  split.
  - apply Habsent. vm_compute. intros Hin.
    repeat (apply elem_of_cons in Hin as [Hin | Hin]; [discriminate |]).
    inversion Hin.
  - unfold state_after.
    rewrite (Hmember [0%nat] [2%nat] eq_refl); [reflexivity |].
    intros Hin. apply list_elem_of_singleton in Hin. discriminate.
Defined.

Lemma transition_keeps_roster_wf (s s' : State) (c : method_call) :
  transition s c s' → roster_wf s → roster_wf s'.
Proof.
  intros Hstep [Hnodup Hlive].
  destruct Hstep as [c | name | player roster Hrem
                    | theme score r q0 Hcur Hq0 Hen
                    | player r q0 Hcur Hq0
                    | r q0 p pl Hcur Hq0 Hap Hpl
                    | r q0 p pl Hcur Hq0 Hap Hpl
                    | r q0 Hcur Hq0];
    split; simpl; rewrite ?length_insert; try assumption.
  - apply NoDup_app. split; [exact Hnodup |]. split; [| apply NoDup_singleton].
    intros p Hin Hin'. apply list_elem_of_singleton in Hin' as ->.
    apply Hlive in Hin. lia.
  - intros p Hin. rewrite length_app. simpl.
    apply elem_of_app in Hin as [Hin | Hin]; [apply Hlive in Hin; lia |].
    apply list_elem_of_singleton in Hin as ->. lia.
  - apply list_remove_Some_inv in Hrem as (before & after & Hroster & _ & ->).
    rewrite Hroster in Hnodup.
    apply NoDup_app in Hnodup as (Hbefore & Hdisjoint & Hafter).
    apply NoDup_cons in Hafter as [_ Hafter].
    apply NoDup_app. split; [exact Hbefore |]. split; [| exact Hafter].
    intros p Hin Hin'. apply (Hdisjoint p Hin). apply elem_of_cons. right. exact Hin'.
  - intros p Hin. apply Hlive.
    apply (list_remove_elem_of player p _ _ Hrem). right. exact Hin.
Qed.

Lemma exec_all_roster_wf (cs : list method_call) (s : State) :
  roster_wf s → roster_wf (exec_all cs s).
Proof.
  revert s. induction cs as [| c cs IH]; intros s Hwf; [exact Hwf |].
  rewrite exec_all_cons. apply IH.
  eapply transition_keeps_roster_wf; [apply exec_transition | exact Hwf].
Qed.

(** X5.
    From a roster of live players without duplicates (an empty one, for
    instance), any sequence of calls leaves a roster without duplicates:
    [join] never adds a player twice.  So after [leave(player)] the player
    is not in the roster any more, and every other player is in it exactly
    when they were before. *)
Theorem roster_has_no_duplicates (cs : list method_call) (s : State) :
  roster_wf s →
  NoDup (players (exec_all cs s))
  ∧ (∀ player, player ∉ players (exec (call_leave player) (exec_all cs s)))
  ∧ (∀ player other, other ≠ player →
       (other ∈ players (exec (call_leave player) (exec_all cs s))
        ↔ other ∈ players (exec_all cs s))).
Proof.
  intros Hwf. apply (exec_all_roster_wf cs) in Hwf.
  destruct Hwf as [Hnodup Hlive]. set (s' := exec_all cs s) in *.
  split; [exact Hnodup |]. split.
  - intros player. unfold exec, state_after. simpl. run_method.
    destruct (list_remove player (players s')) as [roster |] eqn:Hrem; simpl.
    + apply list_remove_Some_inv in Hrem as (before & after & Hroster & Hnotin & ->).
      rewrite Hroster in Hnodup.
      apply NoDup_app in Hnodup as (_ & Hdisjoint & Hafter).
      apply NoDup_cons in Hafter as [Hnotin' _].
      intros Hin. apply elem_of_app in Hin as [Hin | Hin]; tauto.
    + apply list_remove_None_inv. exact Hrem.
  - intros player other Hne. unfold exec, state_after. simpl. run_method.
    destruct (list_remove player (players s')) as [roster |] eqn:Hrem; simpl;
      [| reflexivity].
    destruct (list_remove_elem_of player other _ _ Hrem) as [Hiff _].
    rewrite Hiff. split; [tauto | intros [-> | Hin]; [congruence | exact Hin]].
Qed.

Lemma roster_has_no_duplicates_witness :
  NoDup (players Tests.game_with_answering_player)
  ∧ (1%nat ∉ players (exec (call_leave 1) Tests.game_with_answering_player))
  ∧ (2%nat ∈ players (exec (call_leave 1) Tests.game_with_answering_player)
     ↔ 2%nat ∈ players Tests.game_with_answering_player).
Proof.
  destruct (roster_has_no_duplicates Tests.setup_calls Tests.setup_game_with_themes)
    as (Hnodup & Hgone & Hothers).
  { split; [apply NoDup_nil_2 | intros p Hin; inversion Hin]. }
  split; [exact Hnodup |]. split; [apply Hgone | apply Hothers; lia].
Defined.

(** ** Selecting, resolving and selecting again *)

Lemma select_question_loop_returns (theme : string) (score : Z) (s s' : State)
    (theme_questions : list nat) :
  Game.select_question_loop theme score theme_questions s = (s', Return tt) →
  ∃ before question after q,
    theme_questions = before ++ question :: after
    ∧ Forall (other_score s score) before
    ∧ question_objs s !! question = Some q
    ∧ Question.score q = score
    ∧ Question.disabled q = false
    ∧ s' = mkState (player_objs s) (question_objs s) (players s)
             (themes_questions s) (Some question).
Proof.
  induction theme_questions as [| r rest IH]; simpl; [discriminate |].
  run_method. destruct (question_objs s !! r) as [q |] eqn:Hq; [| discriminate].
  case_bool_decide as Hscore.
  - destruct (Question.disabled q) eqn:Hdis; [discriminate |].
    intros [= <-]. exists [], r, rest, q.
    repeat split; try assumption. apply Forall_nil_2.
  - intros Hrun.
    destruct (IH Hrun) as (before & question & after & q' & -> & Hbefore & Hrest).
    exists (r :: before), question, after, q'.
    split; [reflexivity |]. split; [| exact Hrest].
    apply Forall_cons. split; [| exact Hbefore]. exists q. split; assumption.
Qed.

Lemma select_question_returns (theme : string) (score : Z) (s s' : State) :
  Game.select_question theme score s = (s', Return tt) →
  current_question s = None
  ∧ ∃ before question after q,
      themes_questions s !! theme = Some (before ++ question :: after)
      ∧ Forall (other_score s score) before
      ∧ question_objs s !! question = Some q
      ∧ Question.score q = score
      ∧ Question.disabled q = false
      ∧ s' = mkState (player_objs s) (question_objs s) (players s)
               (themes_questions s) (Some question).
Proof.
  unfold Game.select_question, read, mbind, M_bind, raise.
  destruct (current_question s) eqn:Hcur; [discriminate |].
  destruct (themes_questions s !! theme) as [[| r rest] |] eqn:Hth;
    [discriminate | | discriminate].
  intros Hrun. split; [reflexivity |].
  apply select_question_loop_returns in Hrun
    as (before & question & after & q & Heq & Hrest).
  exists before, question, after, q. rewrite <- Heq. split; [reflexivity | exact Hrest].
Qed.

(** X6.
    When [select_question] has returned, the current question is an
    enabled question of the theme with the score asked for, no score and
    no question object has changed, and until the question is resolved
    every further [select_question], for any theme and score, raises
    [QuestionIsAlreadySelected]. *)
Theorem select_question_then_select (theme : string) (score : Z) (s s' : State) :
  Game.select_question theme score s = (s', Return tt) →
  (∃ question q theme_questions,
     current_question s' = Some question
     ∧ themes_questions s !! theme = Some theme_questions
     ∧ question ∈ theme_questions
     ∧ question_objs s' !! question = Some q
     ∧ Question.score q = score
     ∧ Question.disabled q = false)
  ∧ player_objs s' = player_objs s
  ∧ question_objs s' = question_objs s
  ∧ (∀ theme' score',
       Game.select_question theme' score' s' =
         (s', Raise (Game_error QuestionIsAlreadySelected))).
Proof.
  intros Hrun.
  apply select_question_returns in Hrun
    as (_ & before & question & after & q & Hth & _ & Hq & Hscore & Hdis & ->).
  split; [| split; [reflexivity | split; [reflexivity |]]].
  - exists question, q, (before ++ question :: after).
    repeat split; try assumption.
    apply elem_of_app. right. apply elem_of_cons. left. reflexivity.
  - intros theme' score'. run_method. reflexivity.
Qed.

Lemma select_question_then_select_witness :
  Game.select_question "InvalidTheme" 300 Tests.game_with_selected_question =
    (Tests.game_with_selected_question,
     Raise (Game_error QuestionIsAlreadySelected)).
Proof.
  apply (select_question_then_select Tests.test_theme 100
           (exec_all (take 3 Tests.setup_calls) Tests.setup_game_with_themes)
           Tests.game_with_selected_question).
  reflexivity.
Defined.

Lemma select_question_first_match (theme : string) (score : Z) (s : State)
    (before after : list nat) (question : nat) (q : Question.t) :
  current_question s = None →
  themes_questions s !! theme = Some (before ++ question :: after) →
  Forall (other_score s score) before →
  question_objs s !! question = Some q →
  Question.score q = score →
  Game.select_question theme score s =
    if Question.disabled q
    then (s, Raise (Game_error (QuestionDisabled question)))
    else (mkState (player_objs s) (question_objs s) (players s)
                  (themes_questions s) (Some question), Return tt).
Proof.
  intros Hcur Hth Hbefore Hq Hscore.
  rewrite <- (select_question_loop_found theme score s before after question q)
    by assumption.
  unfold Game.select_question, read, mbind, M_bind. rewrite Hcur, Hth.
  destruct before; reflexivity.
Qed.

Lemma other_score_after_update (s : State) (score : Z) (question r : nat)
    (q q' : Question.t) (objs : list Player.t) (current : option nat) :
  question_objs s !! question = Some q →
  Question.score q = score →
  other_score s score r →
  other_score
    (mkState objs (<[question := q']> (question_objs s)) (players s)
       (themes_questions s) current) score r.
Proof.
  intros Hq Hscore (q0 & Hq0 & Hne). exists q0. split; [| exact Hne]. simpl.
  rewrite list_lookup_insert_ne; [exact Hq0 |]. intros ->. congruence.
Qed.

(** X7.
    A question that was selected with [select_question(theme, score)] and
    then resolved, by [skip_question] or by [accept_answer] after a buzz,
    cannot be selected again: the same [select_question(theme, score)]
    raises [QuestionDisabled] with that question. *)
Theorem resolved_question_is_refused (theme : string) (score : Z)
    (s s1 : State) (question : nat) :
  Game.select_question theme score s = (s1, Return tt) →
  current_question s1 = Some question →
  (∀ s2, Game.skip_question s1 = (s2, Return tt) →
         Game.select_question theme score s2 =
           (s2, Raise (Game_error (QuestionDisabled question))))
  ∧ (∀ player s1' s2,
       Game.select_answering_player player s1 = (s1', Return tt) →
       Game.accept_answer s1' = (s2, Return tt) →
       Game.select_question theme score s2 =
         (s2, Raise (Game_error (QuestionDisabled question)))).
Proof.
  intros Hrun Hcur.
  apply select_question_returns in Hrun
    as (Hnone & before & r & after & q & Hth & Hbefore & Hq & Hscore & Hdis & ->).
  simpl in Hcur. injection Hcur as ->.
  assert (Hlt : (question < length (question_objs s))%nat)
    by (eapply lookup_lt_Some; eauto).
  split.
  - intros s2 Hskip.
    erewrite skip_question_run in Hskip; [| reflexivity | exact Hq].
    injection Hskip as <-. simpl.
    rewrite (select_question_first_match theme score _ before after question
               (Question.set_disabled true q)); simpl; auto.
    + eapply Forall_impl; [exact Hbefore |].
      intros r. apply (other_score_after_update s score question r q); assumption.
    + apply list_lookup_insert_eq. exact Hlt.
  - intros player s1' s2 Hbuzz Haccept.
    assert (Hbuzzed : s1' = mkState (player_objs s)
              (<[question := Question.set_answering_player (Some player) q]>
                 (question_objs s))
              (players s) (themes_questions s) (Some question)).
    { revert Hbuzz. run_method. rewrite Hq. simpl.
      case_bool_decide; [discriminate |]. simpl. rewrite Hq. simpl.
      intros [= <-]. reflexivity. }
    subst s1'.
    destruct (player_objs s !! player) as [pl |] eqn:Hpl.
    + rewrite (accept_answer_run _ question player
                 (Question.set_answering_player (Some player) q) pl)
        in Haccept; simpl; auto;
        [| apply list_lookup_insert_eq; exact Hlt].
      injection Haccept as <-. simpl.
      rewrite list_insert_insert_eq.
      rewrite (select_question_first_match theme score _ before after question
                 (Question.set_disabled true
                    (Question.set_answering_player None
                       (Question.set_answering_player (Some player) q))));
        simpl; auto.
      * eapply Forall_impl; [exact Hbefore |].
        intros r. apply (other_score_after_update s score question r q); assumption.
      * apply list_lookup_insert_eq. exact Hlt.
    + exfalso. revert Haccept. run_method.
      rewrite list_lookup_insert_eq by exact Hlt. simpl.
      rewrite list_lookup_insert_eq by exact Hlt. simpl.
      rewrite Hpl. discriminate.
Qed.

Lemma resolved_question_is_refused_witness :
  Game.select_question Tests.test_theme 100
    (state_after Game.skip_question Tests.game_with_selected_question)
  = (state_after Game.skip_question Tests.game_with_selected_question,
     Raise (Game_error (QuestionDisabled 0)))
  ∧ Game.select_question Tests.test_theme 100
      (state_after Game.accept_answer Tests.game_with_answering_player)
    = (state_after Game.accept_answer Tests.game_with_answering_player,
       Raise (Game_error (QuestionDisabled 0))).
Proof.
  destruct (resolved_question_is_refused Tests.test_theme 100
              (exec_all (take 3 Tests.setup_calls) Tests.setup_game_with_themes)
              Tests.game_with_selected_question 0)
    as [Hskip Haccept]; [reflexivity | reflexivity |].
  split.
  - apply Hskip. reflexivity.
  - apply (Haccept 0%nat Tests.game_with_answering_player); reflexivity.
Defined.

(** ** Declining and answering again *)

(** X8.
    After [decline_answer] the question is open again: the next
    [select_answering_player], by the player who was declined or by any
    other, returns and makes that player the answering player of the
    same current question. *)
Theorem decline_reopens_question (s : State) (question p : nat)
    (q : Question.t) (pl : Player.t) :
  current_question s = Some question →
  question_objs s !! question = Some q →
  Question.answering_player q = Some p →
  player_objs s !! p = Some pl →
  ∀ player, ∃ s2,
    Game.select_answering_player player (state_after Game.decline_answer s)
      = (s2, Return tt)
    ∧ question_objs s2 !! question =
        Some (Question.set_answering_player (Some player) q)
    ∧ current_question s2 = Some question.
Proof.
  intros Hcur Hq Hap Hpl player.
  assert (Hlt : (question < length (question_objs s))%nat)
    by (eapply lookup_lt_Some; eauto).
  unfold state_after. rewrite (decline_answer_run s question p q pl) by assumption.
  simpl. eexists. split; [| split].
  - run_method. rewrite list_lookup_insert_eq by exact Hlt. simpl.
    rewrite list_lookup_insert_eq by exact Hlt. simpl. reflexivity.
  - simpl. rewrite list_insert_insert_eq.
    rewrite list_lookup_insert_eq by exact Hlt. reflexivity.
  - reflexivity.
Qed.

Lemma decline_reopens_question_witness :
  ∃ s2,
    Game.select_answering_player 1
      (state_after Game.decline_answer Tests.game_with_answering_player)
      = (s2, Return tt)
    ∧ question_objs s2 !! 0%nat =
        Some (Question.mk "Test Question" "Test Answer" 100 false (Some 1%nat))
    ∧ current_question s2 = Some 0%nat.
Proof.
  apply (decline_reopens_question Tests.game_with_answering_player 0 0
           (Question.mk "Test Question" "Test Answer" 100 false (Some 0%nat))
           (Player.init "Test Player #1" 0)); reflexivity.
Defined.

Lemma set_score_back (pl : Player.t) (v w : Z) :
  v = Player.score pl → Player.set_score v (Player.set_score w pl) = pl.
Proof. destruct pl; simpl; intros ->; reflexivity. Qed.

(** X9.
    A wrong answer followed by the right answer of the same player cancel
    out: after [decline_answer], [select_answering_player] of that player
    and [accept_answer], every player has the score they had, and the
    question is disabled and no longer current. *)
Theorem decline_then_accept_cancel (s : State) (question p : nat)
    (q : Question.t) (pl : Player.t) :
  current_question s = Some question →
  question_objs s !! question = Some q →
  Question.answering_player q = Some p →
  player_objs s !! p = Some pl →
  exec_all [call_decline_answer; call_select_answering_player p;
            call_accept_answer] s
  = mkState (player_objs s)
      (<[question := Question.mk (Question.text q) (Question.answer q)
                       (Question.score q) true None]> (question_objs s))
      (players s) (themes_questions s) None.
Proof.
  intros Hcur Hq Hap Hpl.
  assert (Hlt : (question < length (question_objs s))%nat)
    by (eapply lookup_lt_Some; eauto).
  assert (Hlt_p : (p < length (player_objs s))%nat)
    by (eapply lookup_lt_Some; eauto).
  unfold exec_all. simpl. unfold exec at 3. unfold state_after. simpl.
  rewrite (decline_answer_run s question p q pl) by assumption. simpl.
  unfold exec at 2. unfold state_after. simpl.
  match goal with
  | |- context [Game.select_answering_player p ?s1] =>
      assert (Hbuzz : Game.select_answering_player p s1 =
                (mkState (player_objs s1)
                   (<[question := Question.set_answering_player (Some p) q]>
                      (question_objs s))
                   (players s) (themes_questions s) (Some question), Return tt))
  end.
  { run_method. rewrite list_lookup_insert_eq by exact Hlt. simpl.
    rewrite list_lookup_insert_eq by exact Hlt. simpl.
    rewrite list_insert_insert_eq. reflexivity. }
  rewrite Hbuzz. simpl. unfold exec, state_after. simpl.
  erewrite accept_answer_run; simpl;
    [| reflexivity | apply list_lookup_insert_eq; exact Hlt | reflexivity
     | apply list_lookup_insert_eq; exact Hlt_p].
  simpl. rewrite !list_insert_insert_eq.
  rewrite set_score_back by lia.
  rewrite (list_insert_id (player_objs s)) by exact Hpl.
  reflexivity.
Qed.

Lemma decline_then_accept_cancel_witness :
  player_objs
    (exec_all [call_decline_answer; call_select_answering_player 0%nat;
               call_accept_answer] Tests.game_with_answering_player)
  = player_objs Tests.game_with_answering_player.
Proof.
  rewrite (decline_then_accept_cancel Tests.game_with_answering_player 0 0
             (Question.mk "Test Question" "Test Answer" 100 false (Some 0%nat))
             (Player.init "Test Player #1" 0)) by reflexivity.
  reflexivity.
Defined.

(** ** What no call changes *)

Lemma keeps_fixed_parts_refl (s : State) : keeps_fixed_parts s s.
Proof. repeat split; eauto. Qed.

Lemma keeps_fixed_parts_trans (s1 s2 s3 : State) :
  keeps_fixed_parts s1 s2 → keeps_fixed_parts s2 s3 → keeps_fixed_parts s1 s3.
Proof.
  intros (Hb1 & Hl1 & Hq1 & Hp1) (Hb2 & Hl2 & Hq2 & Hp2).
  split; [congruence |]. split; [congruence |]. split.
  - intros question q Hq.
    destruct (Hq1 question q Hq) as (q' & Hq' & Ht & Ha & Hs).
    destruct (Hq2 question q' Hq') as (q'' & Hq'' & Ht' & Ha' & Hs').
    exists q''. repeat split; congruence.
  - intros p pl Hpl.
    destruct (Hp1 p pl Hpl) as (pl' & Hpl' & Hn).
    destruct (Hp2 p pl' Hpl') as (pl'' & Hpl'' & Hn').
    exists pl''. split; congruence.
Qed.

Lemma question_update_fixed (objs : list Question.t) (r question : nat)
    (q0 q1 q : Question.t) :
  objs !! r = Some q0 →
  Question.text q1 = Question.text q0 →
  Question.answer q1 = Question.answer q0 →
  Question.score q1 = Question.score q0 →
  objs !! question = Some q →
  ∃ q', <[r := q1]> objs !! question = Some q'
        ∧ Question.text q' = Question.text q
        ∧ Question.answer q' = Question.answer q
        ∧ Question.score q' = Question.score q.
Proof.
  intros Hr Ht Ha Hs Hq.
  destruct (decide (r = question)) as [-> | Hne].
  - rewrite list_lookup_insert_eq by (eapply lookup_lt_Some; eauto).
    exists q1. split; [reflexivity |]. split; [| split]; congruence.
  - rewrite list_lookup_insert_ne by exact Hne. exists q. auto.
Qed.

Lemma player_update_fixed (objs : list Player.t) (r p : nat)
    (pl0 pl1 pl : Player.t) :
  objs !! r = Some pl0 →
  Player.name pl1 = Player.name pl0 →
  objs !! p = Some pl →
  ∃ pl', <[r := pl1]> objs !! p = Some pl' ∧ Player.name pl' = Player.name pl.
Proof.
  intros Hr Hn Hpl.
  destruct (decide (r = p)) as [-> | Hne].
  - rewrite list_lookup_insert_eq by (eapply lookup_lt_Some; eauto).
    exists pl1. split; [reflexivity | congruence].
  - rewrite list_lookup_insert_ne by exact Hne. exists pl. auto.
Qed.

Lemma transition_keeps_fixed_parts (s s' : State) (c : method_call) :
  transition s c s' → keeps_fixed_parts s s'.
Proof.
  intros Hstep.
  destruct Hstep as [c | name | player roster Hrem
                    | theme score r q0 Hcur Hq0 Hen
                    | player r q0 Hcur Hq0
                    | r q0 p pl Hcur Hq0 Hap Hpl
                    | r q0 p pl Hcur Hq0 Hap Hpl
                    | r q0 Hcur Hq0];
    try apply keeps_fixed_parts_refl;
    (split; [reflexivity |]); simpl; rewrite ?length_insert;
    (split; [reflexivity |]); split; eauto.
  - intros p pl Hpl. exists pl. split; [| reflexivity].
    rewrite lookup_app_l by (eapply lookup_lt_Some; eauto). exact Hpl.
  - intros question q. eapply question_update_fixed; eauto.
  - intros question q. eapply question_update_fixed; eauto.
  - intros p' pl'. eapply player_update_fixed; eauto.
  - intros question q. eapply question_update_fixed; eauto.
  - intros p' pl'. eapply player_update_fixed; eauto.
  - intros question q. eapply question_update_fixed; eauto.
Qed.

Lemma exec_all_keeps_fixed_parts (cs : list method_call) (s : State) :
  keeps_fixed_parts s (exec_all cs s).
Proof.
  revert s. induction cs as [| c cs IH]; intros s;
    [apply keeps_fixed_parts_refl |].
  rewrite exec_all_cons. eapply keeps_fixed_parts_trans; [| apply IH].
  eapply transition_keeps_fixed_parts. apply exec_transition.
Qed.

(** X10.
    No sequence of calls of the seven methods changes the board, creates
    or removes a question, changes the text, the answer or the score of a
    question, removes a player object or changes a player's name: only
    [disabled], [answering_player], the scores of the players, the roster
    and the current question move. *)
Theorem calls_keep_board_and_names (cs : list method_call) (s : State) :
  themes_questions (exec_all cs s) = themes_questions s
  ∧ length (question_objs (exec_all cs s)) = length (question_objs s)
  ∧ (∀ question q, question_objs s !! question = Some q →
       ∃ q', question_objs (exec_all cs s) !! question = Some q'
             ∧ Question.text q' = Question.text q
             ∧ Question.answer q' = Question.answer q
             ∧ Question.score q' = Question.score q)
  ∧ (∀ p pl, player_objs s !! p = Some pl →
       ∃ pl', player_objs (exec_all cs s) !! p = Some pl'
              ∧ Player.name pl' = Player.name pl).
Proof. apply exec_all_keeps_fixed_parts. Qed.

(** ** A game that is over *)

Lemma is_over_run (s : State) :
  live_board s →
  ∃ b, Game.is_over s = (s, Return b) ∧ (b = true ↔ every_question_disabled s).
Proof.
  intros Hlive.
  destruct (is_over_loop_spec s (map_to_list (themes_questions s)))
    as (b & Hrun & Hb).
  { intros theme questions question Hin.
    apply elem_of_map_to_list in Hin. eapply Hlive; eauto. }
  exists b. split; [exact Hrun |].
  rewrite Hb. unfold every_question_disabled. split.
  - intros Hall theme questions question q Hth.
    apply (Hall theme questions). apply elem_of_map_to_list. exact Hth.
  - intros Hall theme questions question q Hin.
    apply (Hall theme questions). apply elem_of_map_to_list. exact Hin.
Qed.

Lemma keeps_fixed_parts_live_board (s s' : State) :
  keeps_fixed_parts s s' → live_board s → live_board s'.
Proof.
  intros (Hboard & Hlen & _) Hlive theme questions question Hth Hin.
  rewrite Hboard in Hth. apply lookup_lt_is_Some. rewrite Hlen.
  apply lookup_lt_is_Some. eapply Hlive; eauto.
Qed.

Lemma exec_all_keeps_disabled (cs : list method_call) (s : State) (question : nat) :
  (∃ q, question_objs s !! question = Some q ∧ Question.disabled q = true) →
  ∃ q, question_objs (exec_all cs s) !! question = Some q
       ∧ Question.disabled q = true.
Proof.
  revert s. induction cs as [| c cs IH]; intros s Hstart; [exact Hstart |].
  rewrite exec_all_cons. apply IH.
  eapply transition_keeps_disabled; [apply exec_transition | exact Hstart].
Qed.

Lemma exec_all_every_question_disabled (cs : list method_call) (s : State) :
  live_board s → every_question_disabled s →
  every_question_disabled (exec_all cs s).
Proof.
  intros Hlive Hall theme questions question q Hth Hin Hq.
  destruct (exec_all_keeps_fixed_parts cs s) as (Hboard & _).
  rewrite Hboard in Hth.
  destruct (Hlive theme questions question Hth Hin) as [q0 Hq0].
  destruct (exec_all_keeps_disabled cs s question) as (q' & Hq' & Hdis).
  { exists q0. split; [exact Hq0 |]. eapply Hall; eauto. }
  congruence.
Qed.

(** X11.
    Once [is_over] has returned [True] it returns [True] after any
    further calls, and from then on no [select_question] returns: every
    one of them raises. *)
Theorem game_over_is_final (cs : list method_call) (s : State) :
  live_board s →
  Game.is_over s = (s, Return true) →
  Game.is_over (exec_all cs s) = (exec_all cs s, Return true)
  ∧ (∀ theme score, ∃ e,
       Game.select_question theme score (exec_all cs s) =
         (exec_all cs s, Raise e)).
Proof.
  intros Hlive Hover.
  assert (Hall : every_question_disabled s).
  { destruct (is_over_run s Hlive) as (b & Hrun & Hb).
    apply Hb. congruence. }
  pose proof (exec_all_every_question_disabled cs s Hlive Hall) as Hall'.
  pose proof (keeps_fixed_parts_live_board _ _
                (exec_all_keeps_fixed_parts cs s) Hlive) as Hlive'.
  set (s' := exec_all cs s) in *. split.
  - destruct (is_over_run s' Hlive') as (b & Hrun & Hb).
    rewrite Hrun. f_equal. f_equal. apply Hb. exact Hall'.
  - intros theme score.
    destruct (Game.select_question theme score s') as [s2 [[] | e]] eqn:Hrun.
    + apply select_question_returns in Hrun
        as (_ & before & question & after & q & Hth & _ & Hq & _ & Hdis & _).
      rewrite (Hall' theme _ question q Hth) in Hdis; [discriminate | | exact Hq].
      apply elem_of_app. right. apply elem_of_cons. left. reflexivity.
    + exists e. apply select_question_raise in Hrun as Heq. congruence.
Qed.

Lemma game_over_is_final_witness :
  let s := exec_all [call_skip_question; call_select_question Tests.test_theme 200;
                     call_skip_question] Tests.game_with_selected_question in
  let cs := [call_join "Late"; call_select_question Tests.test_theme 100;
             call_select_answering_player 0%nat; call_accept_answer] in
  Game.is_over (exec_all cs s) = (exec_all cs s, Return true)
  ∧ ∃ e, Game.select_question Tests.test_theme 200 (exec_all cs s) =
           (exec_all cs s, Raise e).
Proof.
  intros s cs.
  destruct (game_over_is_final cs s) as [Hover Hselect].
  - apply tests_board_live.
  - vm_compute. reflexivity.
  - split; [exact Hover | apply Hselect].
Defined.

(** ** players_names, join and copy *)

Lemma names_for_each_extend (roster : list nat) (names : list string)
    (s s' : State) (extra : list Player.t) :
  player_objs s' = player_objs s ++ extra →
  for_each (λ player, obj ← get_player player; mret (Player.name obj)) roster s
    = (s, Return names) →
  for_each (λ player, obj ← get_player player; mret (Player.name obj)) roster s'
    = (s', Return names).
Proof.
  intros Hobjs. revert names.
  induction roster as [| p roster IH]; intros names; simpl.
  - unfold mret, M_ret. intros [= <-]. reflexivity.
  - unfold get_player, mbind, M_bind, mret, M_ret. rewrite Hobjs.
    destruct (player_objs s !! p) as [obj |] eqn:Hp; [| discriminate].
    rewrite (lookup_app_l_Some _ _ _ _ Hp).
    destruct (for_each _ roster s) as [s1 [ns | e]] eqn:Hrest; [| discriminate].
    intros [= -> <-].
    unfold get_player, mbind, M_bind, mret, M_ret in IH.
    rewrite (IH ns eq_refl). reflexivity.
Qed.

Lemma reads_only_bind {A B} (m : M A) (f : A → M B) :
  reads_only m → (∀ a, reads_only (f a)) → reads_only (m ≫= f).
Proof.
  intros Hm Hf s. unfold mbind, M_bind. specialize (Hm s).
  destruct (m s) as [s1 [a | e]]; simpl in *; subst s1; [apply Hf | reflexivity].
Qed.

Lemma reads_only_ret {A} (a : A) : reads_only (mret a).
Proof. intros s. reflexivity. Qed.

Lemma reads_only_raise {A} (e : Exn) : reads_only (raise e : M A).
Proof. intros s. reflexivity. Qed.

Lemma reads_only_read {A} (f : State → A) : reads_only (read f).
Proof. intros s. reflexivity. Qed.

Lemma reads_only_get_player (p : nat) : reads_only (get_player p).
Proof. intros s. unfold get_player. destruct (player_objs s !! p); reflexivity. Qed.

Lemma reads_only_get_question (q : nat) : reads_only (get_question q).
Proof. intros s. unfold get_question. destruct (question_objs s !! q); reflexivity. Qed.

Lemma reads_only_for_each {A B} (f : A → M B) (l : list A) :
  (∀ x, reads_only (f x)) → reads_only (for_each f l).
Proof.
  intros Hf. induction l as [| x l IH]; simpl; [apply reads_only_ret |].
  apply reads_only_bind; [apply Hf |]. intros y.
  apply reads_only_bind; [exact IH |]. intros ys. apply reads_only_ret.
Qed.

Lemma reads_only_result {A} (m : M A) (s s' : State) (o : outcome A) :
  reads_only m → m s = (s', o) → s' = s.
Proof. intros Hm Hrun. specialize (Hm s). rewrite Hrun in Hm. exact Hm. Qed.

(** A comprehension over items on which [f] returns. *)
Lemma for_each_returns {A B} (f : A → M B) (R : A → B → Prop)
    (l : list A) (s : State) :
  Forall (λ x, ∃ y, f x s = (s, Return y) ∧ R x y) l →
  ∃ ys, for_each f l s = (s, Return ys) ∧ Forall2 R l ys.
Proof.
  induction 1 as [| x l (y & Hx & Hxy) _ (ys & Hl & Hys)]; simpl.
  - exists []. split; [reflexivity | constructor].
  - exists (y :: ys). unfold mbind, M_bind. rewrite Hx, Hl.
    split; [reflexivity | constructor; assumption].
Qed.

Lemma for_each_app_one {A B} (f : A → M B) (l : list A) (x : A)
    (s : State) (ys : list B) (y : B) :
  (∀ a, reads_only (f a)) →
  for_each f l s = (s, Return ys) → f x s = (s, Return y) →
  for_each f (l ++ [x]) s = (s, Return (ys ++ [y])).
Proof.
  intros Hf Hl Hx. revert ys Hl.
  induction l as [| a l IH]; intros ys; simpl.
  - unfold mret, M_ret. intros [= <-]. unfold mbind, M_bind. rewrite Hx.
    reflexivity.
  - unfold mbind, M_bind, mret, M_ret.
    destruct (f a s) as [s1 [b | e]] eqn:Ha; [| discriminate].
    apply reads_only_result in Ha as ->; [| apply Hf].
    destruct (for_each f l s) as [s2 [bs | e]] eqn:Hrest; [| discriminate].
    intros [= -> <-].
    unfold mbind, M_bind, mret, M_ret in IH.
    rewrite (IH bs eq_refl). reflexivity.
Qed.

Lemma reads_only_name (player : nat) :
  reads_only (obj ← get_player player; mret (Player.name obj)).
Proof.
  apply reads_only_bind; [apply reads_only_get_player |].
  intros obj. apply reads_only_ret.
Qed.

(** X12.
    On a roster of live players [players_names] returns, without changing
    anything, the name of each member in the order of the roster; and
    [join(name)] adds [name] at its end, whether or not a player of that
    name is already there. *)
Theorem players_names_follow_roster (s : State) (player_name : string) :
  Forall (λ p, is_Some (player_objs s !! p)) (players s) →
  ∃ names,
    Game.players_names s = (s, Return names)
    ∧ Forall2 (λ p n, ∃ obj, player_objs s !! p = Some obj
                             ∧ Player.name obj = n) (players s) names
    ∧ Game.players_names (state_after (Game.join player_name) s)
      = (state_after (Game.join player_name) s,
         Return (names ++ [player_name])).
Proof.
  intros Hlive.
  destruct (for_each_returns
              (λ player, obj ← get_player player; mret (Player.name obj))
              (λ p n, ∃ obj, player_objs s !! p = Some obj ∧ Player.name obj = n)
              (players s) s) as (names & Hrun & Hnames).
  { eapply Forall_impl; [exact Hlive |]. intros p [obj Hobj].
    exists (Player.name obj). unfold get_player, mbind, M_bind. rewrite Hobj.
    split; [reflexivity |]. exists obj. auto. }
  exists names. split; [exact Hrun |]. split; [exact Hnames |].
  unfold state_after. run_method.
  apply (for_each_app_one _ _ _ _ names player_name).
  - apply reads_only_name.
  - apply (names_for_each_extend _ _ s _ [Player.init player_name 0]);
      [reflexivity | exact Hrun].
  - unfold get_player, mbind, M_bind. simpl.
    rewrite lookup_app_r by lia. rewrite Nat.sub_diag. reflexivity.
Qed.

Lemma players_names_follow_roster_witness :
  Game.players_names Tests.game_with_answering_player
    = (Tests.game_with_answering_player,
       Return ["Test Player #1"; "Test Player #2"; "Test Player #3"])
  ∧ Game.players_names
      (state_after (Game.join "Test Player #1") Tests.game_with_answering_player)
    = (state_after (Game.join "Test Player #1") Tests.game_with_answering_player,
       Return ["Test Player #1"; "Test Player #2"; "Test Player #3";
               "Test Player #1"]).
Proof.
  destruct (players_names_follow_roster Tests.game_with_answering_player
              "Test Player #1") as (names & Hrun & _ & Hjoin).
  { repeat constructor; eexists; reflexivity. }
  assert (Hnames : names = ["Test Player #1"; "Test Player #2"; "Test Player #3"]).
  { assert (Hcomputed : Game.players_names Tests.game_with_answering_player
              = (Tests.game_with_answering_player,
                 Return ["Test Player #1"; "Test Player #2"; "Test Player #3"]))
      by reflexivity.
    rewrite Hcomputed in Hrun. injection Hrun as <-. reflexivity. }
  subst names. split; [exact Hrun | exact Hjoin].
Defined.

(** X13.
    [copy] of a live question returns a new question, one that no
    reference designated before: it has the text, the answer and the
    score of the original and is enabled with no answering player, even
    when the original is disabled or has one.  The original and every
    other object are as they were, and the copy is not on the board. *)
Theorem copy_is_a_fresh_question (s : State) (self : nat) (q : Question.t) :
  question_objs s !! self = Some q →
  ∃ s' copy q',
    QuestionMethods.copy self s = (s', Return copy)
    ∧ copy ≠ self
    ∧ question_objs s !! copy = None
    ∧ question_objs s' !! copy = Some q'
    ∧ Question.text q' = Question.text q
    ∧ Question.answer q' = Question.answer q
    ∧ Question.score q' = Question.score q
    ∧ Question.disabled q' = false
    ∧ Question.answering_player q' = None
    ∧ (∀ question, question ≠ copy →
         question_objs s' !! question = question_objs s !! question)
    ∧ player_objs s' = player_objs s
    ∧ players s' = players s
    ∧ themes_questions s' = themes_questions s
    ∧ current_question s' = current_question s.
Proof.
  intros Hq.
  assert (Hlt : (self < length (question_objs s))%nat)
    by (eapply lookup_lt_Some; eauto).
  eexists _, _, _. split.
  { unfold QuestionMethods.copy, new_question, get_question, mbind, M_bind.
    rewrite Hq. reflexivity. }
  simpl. split; [lia |]. split; [apply lookup_ge_None; lia |].
  split; [rewrite lookup_app_r by lia; rewrite Nat.sub_diag; reflexivity |].
  repeat (split; [reflexivity |]). split; [| repeat split; reflexivity].
  intros question Hne.
  destruct (decide (question < length (question_objs s))%nat) as [Hin | Hout].
  - apply lookup_app_l. exact Hin.
  - rewrite lookup_ge_None_2 by (rewrite length_app; simpl; lia).
    symmetry. apply lookup_ge_None. lia.
Qed.

Lemma copy_is_a_fresh_question_witness :
  let s := state_after Game.accept_answer Tests.game_with_answering_player in
  ∃ s' copy q',
    QuestionMethods.copy 0 s = (s', Return copy)
    ∧ copy ≠ 0%nat
    ∧ question_objs s' !! copy = Some q'
    ∧ Question.disabled q' = false
    ∧ question_objs s' !! 0%nat =
        Some (Question.mk "Test Question" "Test Answer" 100 true None).
Proof.
  intros s.
  destruct (copy_is_a_fresh_question s 0
              (Question.mk "Test Question" "Test Answer" 100 true None) eq_refl)
    as (s' & copy & q' & Hrun & Hne & _ & Hq' & _ & _ & _ & Hdis & _ & Hrest & _).
  exists s', copy, q'. repeat split; try assumption.
  rewrite Hrest by congruence. reflexivity.
Defined.

(** * Properties of app.py *)

(** ** The queries read only *)

Lemma reads_only_get_player_dao (p : nat) : reads_only (App.get_player_dao p).
Proof.
  apply reads_only_bind; [apply reads_only_get_player |].
  intros obj. apply reads_only_ret.
Qed.

Lemma reads_only_get_game_question_dao (q : nat) :
  reads_only (App.get_game_question_dao q).
Proof.
  apply reads_only_bind; [apply reads_only_get_question |].
  intros obj. apply reads_only_ret.
Qed.

Lemma reads_only_all_disabled (questions : list nat) :
  reads_only (Game.all_disabled questions).
Proof.
  induction questions as [| question rest IH]; simpl; [apply reads_only_ret |].
  apply reads_only_bind; [apply reads_only_get_question |].
  intros q. destruct (Question.disabled q); [exact IH | apply reads_only_ret].
Qed.

Lemma reads_only_is_over_loop (items : list (string * list nat)) :
  reads_only (Game.is_over_loop items).
Proof.
  induction items as [| [theme questions] rest IH]; simpl;
    [apply reads_only_ret |].
  apply reads_only_bind; [apply reads_only_all_disabled |].
  intros b. destruct b; [exact IH | apply reads_only_ret].
Qed.

Lemma reads_only_is_over : reads_only Game.is_over.
Proof.
  apply reads_only_bind; [apply reads_only_read |].
  intros board. apply reads_only_is_over_loop.
Qed.

Lemma reads_only_themes_questions_dao (items : list (string * list nat)) :
  reads_only (App.themes_questions_dao items).
Proof.
  induction items as [| [theme questions] rest IH]; simpl;
    [apply reads_only_ret |].
  apply reads_only_bind;
    [apply reads_only_for_each, reads_only_get_game_question_dao |].
  intros daos. apply reads_only_bind; [exact IH |].
  intros others. apply reads_only_ret.
Qed.

Lemma reads_only_players_dao : reads_only App.players_dao.
Proof.
  apply reads_only_bind; [apply reads_only_read |].
  intros roster. apply reads_only_for_each, reads_only_get_player_dao.
Qed.

Lemma reads_only_get_game_dao : reads_only App.get_game_dao.
Proof.
  unfold App.get_game_dao.
  apply reads_only_bind; [apply reads_only_read |]. intros current.
  apply reads_only_bind.
  { destruct current; [| apply reads_only_ret].
    apply reads_only_bind; [apply reads_only_get_game_question_dao |].
    intros dao. apply reads_only_ret. }
  intros current_dao.
  apply reads_only_bind; [apply reads_only_read |]. intros roster.
  apply reads_only_bind;
    [apply reads_only_for_each, reads_only_get_player_dao |].
  intros players_dao.
  apply reads_only_bind; [apply reads_only_read |]. intros board.
  apply reads_only_bind; [apply reads_only_themes_questions_dao |].
  intros themes_dao.
  apply reads_only_bind; [apply reads_only_is_over |]. intros over.
  apply reads_only_ret.
Qed.

Lemma reads_only_current_question_dao : reads_only App.current_question_dao.
Proof.
  apply reads_only_bind; [apply reads_only_read |].
  intros [question |];
    [apply reads_only_get_game_question_dao | apply reads_only_raise].
Qed.

Lemma reads_only_answering_player_dao : reads_only App.answering_player_dao.
Proof.
  apply reads_only_bind; [apply reads_only_read |].
  intros [question |]; [| apply reads_only_raise].
  apply reads_only_bind; [apply reads_only_get_question |].
  intros q. destruct (Question.answering_player q);
    [apply reads_only_get_player_dao | apply reads_only_raise].
Qed.

(** X14.
    [is_over], [players_names] and the functions that build what is sent
    to the clients ([get_player_dao], [get_game_question_dao],
    [get_game_dao]) leave the game exactly as it is, whether they return
    or raise. *)
Theorem queries_read_only :
  reads_only Game.is_over
  ∧ reads_only Game.players_names
  ∧ (∀ player, reads_only (App.get_player_dao player))
  ∧ (∀ question, reads_only (App.get_game_question_dao question))
  ∧ reads_only App.get_game_dao.
Proof.
  split; [apply reads_only_is_over |]. split.
  - apply reads_only_bind; [apply reads_only_read |].
    intros roster. apply reads_only_for_each, reads_only_name.
  - split; [apply reads_only_get_player_dao |].
    split; [apply reads_only_get_game_question_dao | apply reads_only_get_game_dao].
Qed.

(** ** The handlers and the game *)

Lemma game_eta (g : SocketIO.SocketIOGame) :
  SocketIO.mkGame (SocketIO.base g) (SocketIO.players_by_key g) = g.
Proof. destruct g; reflexivity. Qed.

Lemma emit_computed_game {A} (before : list App.emit) (payload : M A)
    (ev : A → App.emit) (g : SocketIO.SocketIOGame) :
  reads_only payload →
  App.game (App.emit_computed before payload ev g) = g.
Proof.
  intros Hread. unfold App.emit_computed. specialize (Hread (SocketIO.base g)).
  destruct (payload (SocketIO.base g)) as [s [a | e]]; simpl in *; subst s;
    apply game_eta.
Qed.

Lemma try_except_game {A B} (m : M A) (except : GameError → option App.event)
    (payload : M B) (ev : B → App.emit) (g : SocketIO.SocketIOGame) :
  reads_only payload →
  App.game (App.try_except m except
              (λ _, App.emit_computed [] payload ev) g)
  = SocketIO.call m g.
Proof.
  intros Hread. unfold App.try_except, SocketIO.call, state_after.
  destruct (m (SocketIO.base g)) as [s [a | [e | | |]]]; simpl;
    try reflexivity.
  - rewrite emit_computed_game by exact Hread. reflexivity.
  - destruct (except e); reflexivity.
Qed.

(** The game a handler leaves is the game of [SocketIO.handle]. *)
Lemma app_handle_game (msg : SocketIO.message) (g : SocketIO.SocketIOGame) :
  App.game (App.handle msg g) = SocketIO.handle msg g.
Proof.
  destruct msg as [name | k | theme score | k | | |]; simpl.
  - unfold App.join_game, SocketIO.join. run_method.
    rewrite emit_computed_game by apply reads_only_players_dao. reflexivity.
  - unfold App.joined_player_only, SocketIO.joined_player_only.
    destruct (SocketIO.players_by_key g !! k) as [p |]; [| reflexivity].
    unfold App.leave_game, SocketIO.leave.
    destruct (Game.leave p (SocketIO.base g)) as [s [[] | e]]; [| reflexivity].
    destruct (SocketIO.players_by_key g !! p) eqn:Hp.
    + rewrite emit_computed_game by apply reads_only_players_dao. reflexivity.
    + simpl. rewrite delete_id by exact Hp. reflexivity.
  - apply try_except_game, reads_only_current_question_dao.
  - unfold App.joined_player_only, SocketIO.joined_player_only.
    destruct (SocketIO.players_by_key g !! k) as [p |]; [| reflexivity].
    apply try_except_game, reads_only_answering_player_dao.
  - apply try_except_game, reads_only_get_game_dao.
  - apply try_except_game, reads_only_get_game_dao.
  - apply try_except_game, reads_only_get_game_dao.
Qed.

(** ** "fail" *)

Lemma emit_computed_no_fail {A} (before : list App.emit) (payload : M A)
    (ev : A → App.event) (g : SocketIO.SocketIOGame) (error : string) (status : Z) :
  App.to_sender (App.fail error status) ∉ before →
  App.to_sender (App.fail error status)
    ∉ App.emitted (App.emit_computed before payload (λ a, App.to_room (ev a)) g).
Proof.
  intros Hbefore. unfold App.emit_computed.
  destruct (payload (SocketIO.base g)) as [s [a | e]]; simpl; [| exact Hbefore].
  intros Hin. apply elem_of_app in Hin as [Hin | Hin]; [tauto |].
  apply list_elem_of_singleton in Hin. discriminate.
Qed.

Lemma try_except_fail {A B} (m : M A) (except : GameError → option App.event)
    (payload : M B) (ev : B → App.event) (g : SocketIO.SocketIOGame)
    (error : string) (status : Z) :
  (∀ s s' e, m s = (s', Raise e) → s' = s) →
  App.to_sender (App.fail error status)
    ∈ App.emitted (App.try_except m except
                     (λ _, App.emit_computed [] payload
                             (λ b, App.to_room (ev b))) g) →
  App.try_except m except
    (λ _, App.emit_computed [] payload (λ b, App.to_room (ev b))) g
  = App.mkReply g [App.to_sender (App.fail error status)] None.
Proof.
  intros Hraise. unfold App.try_except.
  destruct (m (SocketIO.base g)) as [s [a | e]] eqn:Hrun.
  - intros Hin. exfalso. revert Hin. apply emit_computed_no_fail.
    apply not_elem_of_nil.
  - apply Hraise in Hrun as ->. rewrite game_eta.
    destruct e as [e | | |]; simpl;
      [| intros Hin; inversion Hin | intros Hin; inversion Hin
       | intros Hin; inversion Hin].
    destruct (except e) as [ev0 |]; simpl; intros Hin; [| inversion Hin].
    apply list_elem_of_singleton in Hin. injection Hin as <-. reflexivity.
Qed.

(** X15.
    A handler that answers "fail" has left the game, roster, scores and
    keys included, exactly as it was, and has emitted nothing else, to
    the sender or to the room. *)
Theorem fail_leaves_game_unchanged (msg : SocketIO.message)
    (g : SocketIO.SocketIOGame) (error : string) (status : Z) :
  App.to_sender (App.fail error status) ∈ App.emitted (App.handle msg g) →
  App.handle msg g =
    App.mkReply g [App.to_sender (App.fail error status)] None.
Proof.
  destruct msg as [name | k | theme score | k | | |]; simpl.
  - unfold App.join_game. run_method. intros Hin. exfalso. revert Hin.
    apply emit_computed_no_fail. intros Hin.
    apply list_elem_of_singleton in Hin. discriminate.
  - unfold App.joined_player_only.
    destruct (SocketIO.players_by_key g !! k) as [p |]; simpl.
    + unfold App.leave_game.
      destruct (Game.leave p (SocketIO.base g)) as [s [[] | e]]; simpl;
        [| intros Hin; inversion Hin].
      destruct (SocketIO.players_by_key g !! p); simpl;
        [| intros Hin; inversion Hin].
      intros Hin. exfalso. revert Hin. apply emit_computed_no_fail.
      apply not_elem_of_nil.
    + intros Hin. apply list_elem_of_singleton in Hin. injection Hin as <- <-.
      reflexivity.
  - apply try_except_fail. apply select_question_raise.
  - unfold App.joined_player_only.
    destruct (SocketIO.players_by_key g !! k) as [p |]; simpl.
    + apply try_except_fail. apply select_answering_player_raise.
    + intros Hin. apply list_elem_of_singleton in Hin. injection Hin as <- <-.
      reflexivity.
  - apply try_except_fail. apply accept_answer_raise.
  - apply try_except_fail. apply decline_answer_raise.
  - apply try_except_fail. apply skip_question_raise.
Qed.

Lemma fail_leaves_game_unchanged_witness :
  let g := SocketIO.run Scenario.buzz_then_leave
             (SocketIO.start_game Scenario.file) in
  App.handle (SocketIO.select_question Tests.test_theme 200) g =
    App.mkReply g
      [App.to_sender (App.fail "Question is already selected." 1)] None.
Proof.
  intros g.
  apply (fail_leaves_game_unchanged
           (SocketIO.select_question Tests.test_theme 200) g).
  vm_compute. apply list_elem_of_here.
Defined.

(** ** Every error of the core has its "fail" *)

Lemma select_answering_player_errors (player : nat) (s s' : State)
    (e : GameError) :
  Game.select_answering_player player s = (s', Raise (Game_error e)) →
  e = QuestionIsNotSelected ∨ e = PlayerIsAlreadySelected player.
Proof.
  run_method. repeat (case_match; simplify_eq; simpl in * );
    intros; simplify_eq; auto.
Qed.

Lemma accept_answer_errors (s s' : State) (e : GameError) :
  Game.accept_answer s = (s', Raise (Game_error e)) →
  e = QuestionIsNotSelected ∨ e = PlayerIsNotSelected.
Proof.
  run_method. repeat (case_match; simplify_eq; simpl in * );
    intros; simplify_eq; auto.
Qed.

Lemma decline_answer_errors (s s' : State) (e : GameError) :
  Game.decline_answer s = (s', Raise (Game_error e)) →
  e = QuestionIsNotSelected ∨ e = PlayerIsNotSelected.
Proof.
  run_method. repeat (case_match; simplify_eq; simpl in * );
    intros; simplify_eq; auto.
Qed.

Lemma skip_question_errors (s s' : State) (e : GameError) :
  Game.skip_question s = (s', Raise (Game_error e)) →
  e = QuestionIsNotSelected.
Proof.
  run_method. repeat (case_match; simplify_eq; simpl in * );
    intros; simplify_eq; auto.
Qed.

Lemma try_except_caught {A} (m : M A) (except : GameError → option App.event)
    (rest : A → SocketIO.SocketIOGame → App.reply) (g : SocketIO.SocketIOGame)
    (s' : State) (e : GameError) (ev : App.event) :
  (∀ s s' e, m s = (s', Raise e) → s' = s) →
  m (SocketIO.base g) = (s', Raise (Game_error e)) →
  except e = Some ev →
  App.try_except m except rest g = App.mkReply g [App.to_sender ev] None.
Proof.
  intros Hraise Hrun Hcaught. unfold App.try_except. rewrite Hrun, Hcaught.
  apply Hraise in Hrun as ->. rewrite game_eta. reflexivity.
Qed.

(** X16.
    Whatever [GameError] a method raises, the handler that called it has
    an [except] clause for it: the handler answers the sender with "fail",
    with the text and the status of the class of the error, changes
    nothing and lets no exception escape.  The statuses tell the classes
    apart. *)
Theorem game_errors_are_reported (msg : SocketIO.message)
    (g : SocketIO.SocketIOGame) (c : method_call) (s' : State) (e : GameError) :
  method_of g msg = Some c →
  invoke c (SocketIO.base g) = (s', Raise (Game_error e)) →
  App.handle msg g =
    App.mkReply g
      [App.to_sender (App.fail (error_text e) (error_status e))] None
  ∧ (∀ e', error_status e' = error_status e ↔ same_class e' e).
Proof.
  intros Hmethod Hrun. split.
  - destruct msg as [name | k | theme score | k | | |]; simpl in *.
    + injection Hmethod as <-. simpl in Hrun. revert Hrun. run_method.
      discriminate.
    + destruct (SocketIO.players_by_key g !! k) as [p |] eqn:Hk;
        [| discriminate].
      injection Hmethod as <-. simpl in Hrun. revert Hrun. run_method.
      destruct (list_remove p (players (SocketIO.base g))); discriminate.
    + injection Hmethod as <-. simpl in Hrun.
      apply (try_except_caught _ _ _ _ s' e);
        [apply select_question_raise | exact Hrun |].
      apply select_question_errors in Hrun
        as [-> | [-> | [-> | [question ->]]]]; reflexivity.
    + unfold App.joined_player_only.
      destruct (SocketIO.players_by_key g !! k) as [p |] eqn:Hk;
        [| discriminate].
      injection Hmethod as <-. simpl in Hrun.
      apply (try_except_caught _ _ _ _ s' e);
        [apply select_answering_player_raise | exact Hrun |].
      apply select_answering_player_errors in Hrun as [-> | ->]; reflexivity.
    + injection Hmethod as <-. simpl in Hrun.
      apply (try_except_caught _ _ _ _ s' e);
        [apply accept_answer_raise | exact Hrun |].
      apply accept_answer_errors in Hrun as [-> | ->]; reflexivity.
    + injection Hmethod as <-. simpl in Hrun.
      apply (try_except_caught _ _ _ _ s' e);
        [apply decline_answer_raise | exact Hrun |].
      apply decline_answer_errors in Hrun as [-> | ->]; reflexivity.
    + injection Hmethod as <-. simpl in Hrun.
      apply (try_except_caught _ _ _ _ s' e);
        [apply skip_question_raise | exact Hrun |].
      apply skip_question_errors in Hrun as ->. reflexivity.
  - intros e'. destruct e', e; simpl; split; intros H;
      try discriminate; try tauto; try reflexivity.
Qed.

Lemma game_errors_are_reported_witness :
  App.handle (SocketIO.select_question "InvalidTheme" 100)
      (SocketIO.start_game Scenario.file) =
    App.mkReply (SocketIO.start_game Scenario.file)
      [App.to_sender (App.fail "No such theme in this game." 2)] None
  ∧ App.handle SocketIO.skip_question (SocketIO.start_game Scenario.file) =
    App.mkReply (SocketIO.start_game Scenario.file)
      [App.to_sender (App.fail "Question is not selected." 5)] None.
Proof.
  split.
  - apply (game_errors_are_reported
             (SocketIO.select_question "InvalidTheme" 100)
             (SocketIO.start_game Scenario.file)
             (call_select_question "InvalidTheme" 100)
             (SocketIO.base (SocketIO.start_game Scenario.file))
             (ThemeNotFound "InvalidTheme")); reflexivity.
  - apply (game_errors_are_reported SocketIO.skip_question
             (SocketIO.start_game Scenario.file) call_skip_question
             (SocketIO.base (SocketIO.start_game Scenario.file))
             QuestionIsNotSelected); reflexivity.
Defined.

(** ** The games the server can reach *)

Lemma load_game_themes_board_live (file : list (string * list SocketIO.RawQuestion))
    (acc : list Question.t * gmap string (list nat)) :
  (∀ theme refs r, acc.2 !! theme = Some refs → r ∈ refs →
     (r < length acc.1)%nat) →
  ∀ theme refs r,
    (foldl SocketIO.load_theme acc file).2 !! theme = Some refs → r ∈ refs →
    (r < length (foldl SocketIO.load_theme acc file).1)%nat.
Proof.
  revert acc. induction file as [| [name raws] file IH]; intros acc Hacc; simpl;
    [exact Hacc |].
  apply IH. simpl. intros theme refs r Hth Hin. rewrite length_app, length_fmap.
  apply lookup_insert_Some in Hth as [[_ <-] | [_ Hth]].
  - apply elem_of_seq in Hin. lia.
  - pose proof (Hacc theme refs r Hth Hin). lia.
Qed.

Lemma start_game_questions_live (file : list (string * list SocketIO.RawQuestion)) :
  questions_live (SocketIO.base (SocketIO.start_game file)).
Proof.
  split; simpl; [| discriminate].
  intros theme refs r Hth Hin. simpl in *. apply lookup_lt_is_Some.
  apply (load_game_themes_board_live file ([], ∅)) with theme refs;
    [| exact Hth | exact Hin].
  intros theme' refs' r' Hth'. simpl in Hth'. rewrite lookup_empty in Hth'.
  discriminate.
Qed.

Lemma transition_keeps_questions_live (s s' : State) (c : method_call) :
  transition s c s' → questions_live s → questions_live s'.
Proof.
  intros Hstep [Hboard Hcurrent]. split.
  - eapply keeps_fixed_parts_live_board; [| exact Hboard].
    eapply transition_keeps_fixed_parts. exact Hstep.
  - destruct Hstep as [c | name | player roster Hrem
                      | theme score r q0 Hcur Hq0 Hen
                      | player r q0 Hcur Hq0
                      | r q0 p pl Hcur Hq0 Hap Hpl
                      | r q0 p pl Hcur Hq0 Hap Hpl
                      | r q0 Hcur Hq0];
      simpl; try exact Hcurrent; try discriminate;
      intros question Hq; apply lookup_lt_is_Some; rewrite ?length_insert;
      apply lookup_lt_is_Some.
    + injection Hq as <-. eauto.
    + apply Hcurrent. exact Hq.
    + injection Hq as <-. eauto.
Qed.

Lemma handle_transition (msg : SocketIO.message) (g : SocketIO.SocketIOGame) :
  ∃ c, transition (SocketIO.base g) c (SocketIO.base (SocketIO.handle msg g)).
Proof.
  destruct msg as [name | k | theme score | k | | |]; simpl.
  - exists (call_join name). unfold SocketIO.join. run_method. apply t_join.
  - unfold SocketIO.joined_player_only.
    destruct (SocketIO.players_by_key g !! k) as [p |];
      [| exists (call_leave k); apply t_nothing].
    exists (call_leave p). unfold SocketIO.leave.
    pose proof (exec_transition (call_leave p) (SocketIO.base g)) as Hstep.
    unfold exec, state_after in Hstep. simpl in Hstep.
    destruct (Game.leave p (SocketIO.base g)) as [s [[] | e]]; exact Hstep.
  - exists (call_select_question theme score).
    apply (exec_transition (call_select_question theme score)).
  - unfold SocketIO.joined_player_only.
    destruct (SocketIO.players_by_key g !! k) as [p |];
      [| exists (call_leave k); apply t_nothing].
    exists (call_select_answering_player p).
    apply (exec_transition (call_select_answering_player p)).
  - exists call_accept_answer. apply (exec_transition call_accept_answer).
  - exists call_decline_answer. apply (exec_transition call_decline_answer).
  - exists call_skip_question. apply (exec_transition call_skip_question).
Qed.

Lemma run_snoc (msgs : list SocketIO.message) (msg : SocketIO.message)
    (g : SocketIO.SocketIOGame) :
  SocketIO.run (msgs ++ [msg]) g = SocketIO.handle msg (SocketIO.run msgs g).
Proof. unfold SocketIO.run. rewrite foldl_app. reflexivity. Qed.

Lemma run_questions_live (file : list (string * list SocketIO.RawQuestion))
    (msgs : list SocketIO.message) :
  questions_live (SocketIO.base (SocketIO.run msgs (SocketIO.start_game file))).
Proof.
  induction msgs as [| msg msgs IH] using rev_ind.
  - apply start_game_questions_live.
  - rewrite run_snoc.
    destruct (handle_transition msg (SocketIO.run msgs (SocketIO.start_game file)))
      as [c Hstep].
    eapply transition_keeps_questions_live; eauto.
Qed.

(** X17.
    The board of a started game and of every game reached from it holds
    only live references, so [is_over] returns on it (never raises), with
    [True] exactly when every question of the board is disabled. *)
Theorem is_over_returns_on_reached_games
    (file : list (string * list SocketIO.RawQuestion))
    (msgs : list SocketIO.message) :
  let s := SocketIO.base (SocketIO.run msgs (SocketIO.start_game file)) in
  live_board s
  ∧ ∃ b, Game.is_over s = (s, Return b)
         ∧ (b = true ↔ every_question_disabled s).
Proof.
  intros s. destruct (run_questions_live file msgs) as [Hlive _].
  split; [exact Hlive | apply is_over_run; exact Hlive].
Qed.

(** ** The snapshot of get_game_dao *)

Lemma players_dao_returns (s : State) (roster : list nat) :
  (∀ p, p ∈ roster → (p < length (player_objs s))%nat) →
  ∃ daos, for_each App.get_player_dao roster s = (s, Return daos)
          ∧ Forall2 (player_dao_of s) roster daos.
Proof.
  intros Hlive. apply for_each_returns. apply Forall_forall. intros p Hin.
  apply Hlive, lookup_lt_is_Some in Hin as [pl Hpl].
  exists (App.mkPlayerDao (Player.name pl) (Player.score pl)).
  unfold App.get_player_dao, get_player, mbind, M_bind. rewrite Hpl.
  split; [reflexivity |]. exists pl. auto.
Qed.

Lemma questions_dao_returns (s : State) (questions : list nat) :
  (∀ r, r ∈ questions → is_Some (question_objs s !! r)) →
  ∃ daos, for_each App.get_game_question_dao questions s = (s, Return daos)
          ∧ Forall2 (question_dao_of s) questions daos.
Proof.
  intros Hlive. apply for_each_returns. apply Forall_forall. intros r Hin.
  apply Hlive in Hin as [q Hq].
  exists (App.mkQuestionDao (Question.text q) (Question.score q)
            (Question.disabled q)).
  unfold App.get_game_question_dao, get_question, mbind, M_bind. rewrite Hq.
  split; [reflexivity |]. exists q. auto.
Qed.

Lemma themes_questions_dao_returns (s : State) (items : list (string * list nat)) :
  (∀ theme questions r, (theme, questions) ∈ items → r ∈ questions →
     is_Some (question_objs s !! r)) →
  ∃ m, App.themes_questions_dao items s = (s, Return m)
       ∧ ∀ theme,
           match m !! theme with
           | None => ∀ questions, (theme, questions) ∉ items
           | Some daos =>
               ∃ questions, (theme, questions) ∈ items
                            ∧ Forall2 (question_dao_of s) questions daos
           end.
Proof.
  induction items as [| [theme questions] rest IH]; intros Hlive; simpl.
  - exists ∅. split; [reflexivity |]. intros theme. rewrite lookup_empty.
    intros questions. apply not_elem_of_nil.
  - destruct (questions_dao_returns s questions) as (daos & Hrun & Hdaos).
    { intros r Hin. apply (Hlive theme questions);
        [apply elem_of_cons; left; reflexivity | exact Hin]. }
    destruct IH as (m & Hrest & Hm).
    { intros theme' questions' r Hin. apply (Hlive theme' questions').
      apply elem_of_cons. right. exact Hin. }
    exists (<[theme := daos]> m). unfold mbind, M_bind. rewrite Hrun, Hrest.
    split; [reflexivity |]. intros theme'.
    destruct (decide (theme = theme')) as [<- | Hne].
    + rewrite lookup_insert_eq. exists questions.
      split; [apply elem_of_cons; left; reflexivity | exact Hdaos].
    + rewrite lookup_insert_ne by exact Hne. specialize (Hm theme').
      destruct (m !! theme') as [daos' |].
      * destruct Hm as (questions' & Hin & Hdaos'). exists questions'.
        split; [apply elem_of_cons; right; exact Hin | exact Hdaos'].
      * intros questions' Hin. apply elem_of_cons in Hin as [Heq | Hin].
        -- congruence.
        -- exact (Hm questions' Hin).
Qed.

Lemma question_dao_of_disabled (s : State) (questions : list nat)
    (daos : list App.QuestionDao) :
  Forall2 (question_dao_of s) questions daos →
  ((∀ r q, r ∈ questions → question_objs s !! r = Some q →
      Question.disabled q = true)
   ↔ ∀ dao, dao ∈ daos → App.dao_disabled dao = true).
Proof.
  induction 1 as [| r dao questions daos (q & Hq & ->) _ IH].
  - split; intros _ x; [intros Hin | intros y Hin]; inversion Hin.
  - split.
    + intros Hall dao Hin. apply elem_of_cons in Hin as [-> | Hin].
      * simpl. apply (Hall r); [apply elem_of_cons; left; reflexivity | exact Hq].
      * apply IH; [| exact Hin]. intros r' q' Hin'. apply Hall.
        apply elem_of_cons. right. exact Hin'.
    + intros Hall r' q' Hin Hq'. apply elem_of_cons in Hin as [-> | Hin].
      * rewrite Hq in Hq'. injection Hq' as <-.
        apply (Hall (App.mkQuestionDao (Question.text q) (Question.score q)
                       (Question.disabled q))).
        apply elem_of_cons. left. reflexivity.
      * apply (proj2 IH) with r'; [| exact Hin | exact Hq'].
        intros dao Hin'. apply Hall. apply elem_of_cons. right. exact Hin'.
Qed.

Lemma get_game_dao_returns (s : State) :
  (∀ p, p ∈ players s → (p < length (player_objs s))%nat) →
  questions_live s →
  ∃ dao,
    App.get_game_dao s = (s, Return dao)
    ∧ Forall2 (player_dao_of s) (players s) (App.dao_players dao)
    ∧ (∀ theme,
         match themes_questions s !! theme with
         | None => App.dao_themes_questions dao !! theme = None
         | Some questions =>
             ∃ daos, App.dao_themes_questions dao !! theme = Some daos
                     ∧ Forall2 (question_dao_of s) questions daos
         end)
    ∧ match current_question s with
      | None => App.dao_current_question dao = None
      | Some question =>
          ∃ d, App.dao_current_question dao = Some d
               ∧ question_dao_of s question d
      end
    ∧ (App.dao_is_over dao = true ↔
       ∀ theme daos d, App.dao_themes_questions dao !! theme = Some daos →
                       d ∈ daos → App.dao_disabled d = true).
Proof.
  intros Hroster [Hboard Hcurrent].
  destruct (players_dao_returns s (players s) Hroster) as (pdaos & Hprun & Hpdaos).
  destruct (themes_questions_dao_returns s (map_to_list (themes_questions s)))
    as (m & Hmrun & Hm).
  { intros theme questions r Hin. apply elem_of_map_to_list in Hin.
    apply (Hboard theme questions). exact Hin. }
  destruct (is_over_run s Hboard) as (b & Hbrun & Hb).
  assert (Hcur : ∃ cd,
    (match current_question s with
     | None => mret None
     | Some question =>
         dao ← App.get_game_question_dao question; mret (Some dao)
     end) s = (s, Return cd)
    ∧ match current_question s with
      | None => cd = None
      | Some question => ∃ d, cd = Some d ∧ question_dao_of s question d
      end).
  { destruct (current_question s) as [question |] eqn:Hc.
    - destruct (Hcurrent question eq_refl) as [q Hq].
      eexists. unfold App.get_game_question_dao, get_question, mbind, M_bind.
      rewrite Hq. split; [reflexivity |]. eexists. split; [reflexivity |].
      exists q. auto.
    - exists None. split; reflexivity. }
  destruct Hcur as (cd & Hcrun & Hcd).
  assert (Hthemes : ∀ theme,
    match themes_questions s !! theme with
    | None => m !! theme = None
    | Some questions =>
        ∃ daos, m !! theme = Some daos
                ∧ Forall2 (question_dao_of s) questions daos
    end).
  { intros theme. specialize (Hm theme).
    destruct (themes_questions s !! theme) as [questions |] eqn:Hth.
    - destruct (m !! theme) as [daos |].
      + destruct Hm as (questions' & Hin & Hdaos).
        apply elem_of_map_to_list in Hin. rewrite Hth in Hin.
        injection Hin as <-. exists daos. auto.
      + exfalso. apply (Hm questions). apply elem_of_map_to_list. exact Hth.
    - destruct (m !! theme) as [daos |]; [| reflexivity].
      destruct Hm as (questions' & Hin & _).
      apply elem_of_map_to_list in Hin. congruence. }
  exists (App.mkGameDao pdaos m cd b). split.
  { unfold App.get_game_dao, read, mbind, M_bind. simpl.
    unfold mbind, M_bind in Hcrun. rewrite Hcrun, Hprun, Hmrun, Hbrun.
    reflexivity. }
  simpl. split; [exact Hpdaos |]. split; [exact Hthemes |]. split; [exact Hcd |].
  rewrite Hb. unfold every_question_disabled. split.
  - intros Hall theme daos d Hth Hin. specialize (Hthemes theme).
    destruct (themes_questions s !! theme) as [questions |] eqn:Hboardth;
      [| congruence].
    destruct Hthemes as (daos' & Hth' & Hdaos). rewrite Hth in Hth'.
    injection Hth' as <-.
    apply (proj1 (question_dao_of_disabled s questions daos Hdaos));
      [| exact Hin].
    intros r q. apply (Hall theme questions). exact Hboardth.
  - intros Hall theme questions r q Hth Hin Hq. specialize (Hthemes theme).
    rewrite Hth in Hthemes. destruct Hthemes as (daos & Hth' & Hdaos).
    apply (proj2 (question_dao_of_disabled s questions daos Hdaos)) with r;
      [| exact Hin | exact Hq].
    intros d. apply (Hall theme daos). exact Hth'.
Qed.

(** X18.
    On every game the server can reach, [get_game_dao] returns and
    changes nothing.  Its snapshot lists the players of the roster in
    order with their name and score, has for each theme of the board the
    text, score and [disabled] flag of its questions in order, has the
    current question if there is one, and its "is_over" is true exactly
    when every question of the snapshot itself is disabled. *)
Theorem snapshot_is_faithful (file : list (string * list SocketIO.RawQuestion))
    (msgs : list SocketIO.message) :
  let s := SocketIO.base (SocketIO.run msgs (SocketIO.start_game file)) in
  ∃ dao,
    App.get_game_dao s = (s, Return dao)
    ∧ Forall2 (player_dao_of s) (players s) (App.dao_players dao)
    ∧ (∀ theme,
         match themes_questions s !! theme with
         | None => App.dao_themes_questions dao !! theme = None
         | Some questions =>
             ∃ daos, App.dao_themes_questions dao !! theme = Some daos
                     ∧ Forall2 (question_dao_of s) questions daos
         end)
    ∧ match current_question s with
      | None => App.dao_current_question dao = None
      | Some question =>
          ∃ d, App.dao_current_question dao = Some d
               ∧ question_dao_of s question d
      end
    ∧ (App.dao_is_over dao = true ↔
       ∀ theme daos d, App.dao_themes_questions dao !! theme = Some daos →
                       d ∈ daos → App.dao_disabled d = true).
Proof.
  intros s. apply get_game_dao_returns.
  - apply (inv_live _ _ (run_inv file msgs)).
  - apply run_questions_live.
Qed.

(** ** No exception escapes a handler *)

Lemma select_question_loop_raises (theme : string) (score : Z)
    (theme_questions : list nat) (s s' : State) (e : Exn) :
  (∀ r, r ∈ theme_questions → is_Some (question_objs s !! r)) →
  Game.select_question_loop theme score theme_questions s = (s', Raise e) →
  ∃ ge, e = Game_error ge.
Proof.
  induction theme_questions as [| question rest IH]; intros Hlive; simpl.
  - unfold raise. intros [= _ <-]. eauto.
  - run_method. destruct (Hlive question) as [q Hq];
      [apply elem_of_cons; left; reflexivity |].
    rewrite Hq. simpl.
    destruct (bool_decide (Question.score q = score)).
    + destruct (Question.disabled q); [| discriminate]. intros [= _ <-]. eauto.
    + apply IH. intros r Hin. apply Hlive. apply elem_of_cons. right. exact Hin.
Qed.

Lemma select_question_raises (theme : string) (score : Z) (s s' : State) (e : Exn) :
  live_board s →
  Game.select_question theme score s = (s', Raise e) →
  ∃ ge, e = Game_error ge.
Proof.
  intros Hlive. unfold Game.select_question, read, mbind, M_bind, raise.
  destruct (current_question s); [intros [= _ <-]; eauto |].
  destruct (themes_questions s !! theme) as [[| question rest] |] eqn:Hth;
    [intros [= _ <-]; eauto | | intros [= _ <-]; eauto].
  apply select_question_loop_raises. intros r. apply (Hlive theme). exact Hth.
Qed.

Lemma select_answering_player_raises (player : nat) (s s' : State) (e : Exn) :
  questions_live s →
  Game.select_answering_player player s = (s', Raise e) →
  ∃ ge, e = Game_error ge.
Proof.
  intros [_ Hcurrent]. run_method.
  destruct (current_question s) as [question |]; [| intros [= _ <-]; eauto].
  destruct (Hcurrent question eq_refl) as [q Hq]. simpl. rewrite Hq. simpl.
  case_bool_decide; [intros [= _ <-]; eauto |].
  simpl. rewrite Hq. discriminate.
Qed.

Lemma accept_answer_raises (s s' : State) (e : Exn) :
  questions_live s → players_live s →
  Game.accept_answer s = (s', Raise e) →
  ∃ ge, e = Game_error ge.
Proof.
  intros [_ Hcurrent] [_ Hanswering].
  destruct (current_question s) as [question |] eqn:Hcur;
    [| run_method; rewrite Hcur; intros [= _ <-]; eauto].
  destruct (Hcurrent question eq_refl) as [q Hq].
  destruct (Question.answering_player q) as [p |] eqn:Hap;
    [| run_method; rewrite Hcur; simpl; rewrite Hq, Hap; intros [= _ <-]; eauto].
  destruct (lookup_lt_is_Some_2 _ _ (Hanswering question q p Hq Hap)) as [pl Hpl].
  rewrite (accept_answer_run s question p q pl) by assumption. discriminate.
Qed.

Lemma decline_answer_raises (s s' : State) (e : Exn) :
  questions_live s → players_live s →
  Game.decline_answer s = (s', Raise e) →
  ∃ ge, e = Game_error ge.
Proof.
  intros [_ Hcurrent] [_ Hanswering].
  destruct (current_question s) as [question |] eqn:Hcur;
    [| run_method; rewrite Hcur; intros [= _ <-]; eauto].
  destruct (Hcurrent question eq_refl) as [q Hq].
  destruct (Question.answering_player q) as [p |] eqn:Hap;
    [| run_method; rewrite Hcur; simpl; rewrite Hq, Hap; intros [= _ <-]; eauto].
  destruct (lookup_lt_is_Some_2 _ _ (Hanswering question q p Hq Hap)) as [pl Hpl].
  rewrite (decline_answer_run s question p q pl) by assumption. discriminate.
Qed.

Lemma skip_question_raises (s s' : State) (e : Exn) :
  questions_live s →
  Game.skip_question s = (s', Raise e) →
  ∃ ge, e = Game_error ge.
Proof.
  intros [_ Hcurrent].
  destruct (current_question s) as [question |] eqn:Hcur;
    [| run_method; rewrite Hcur; intros [= _ <-]; eauto].
  destruct (Hcurrent question eq_refl) as [q Hq].
  rewrite (skip_question_run s question q) by assumption. discriminate.
Qed.

Lemma emit_computed_escaped {A} (before : list App.emit) (payload : M A)
    (ev : A → App.emit) (g : SocketIO.SocketIOGame) (a : A) :
  payload (SocketIO.base g) = (SocketIO.base g, Return a) →
  App.escaped (App.emit_computed before payload ev g) = None.
Proof. intros Hrun. unfold App.emit_computed. rewrite Hrun. reflexivity. Qed.

Lemma try_except_escaped {A B} (m : M A) (except : GameError → option App.event)
    (payload : M B) (ev : B → App.emit) (g : SocketIO.SocketIOGame) :
  (∀ s' e, m (SocketIO.base g) = (s', Raise e) →
           ∃ ge, e = Game_error ge ∧ is_Some (except ge)) →
  (∀ s' a, m (SocketIO.base g) = (s', Return a) →
           ∃ b, payload s' = (s', Return b)) →
  App.escaped (App.try_except m except
                 (λ _, App.emit_computed [] payload ev) g) = None.
Proof.
  intros Hraise Hreturn. unfold App.try_except.
  destruct (m (SocketIO.base g)) as [s [a | e]] eqn:Hrun.
  - destruct (Hreturn s a eq_refl) as [b Hb].
    apply (emit_computed_escaped _ _ _ _ b). exact Hb.
  - destruct (Hraise s e eq_refl) as (ge & -> & [ev0 Hcaught]).
    rewrite Hcaught. reflexivity.
Qed.

Lemma players_dao_run (s : State) :
  (∀ p, p ∈ players s → (p < length (player_objs s))%nat) →
  ∃ daos, App.players_dao s = (s, Return daos)
          ∧ Forall2 (player_dao_of s) (players s) daos.
Proof.
  intros Hlive. unfold App.players_dao, read, mbind, M_bind.
  apply players_dao_returns. exact Hlive.
Qed.

Lemma select_answering_player_returns (player : nat) (s s' : State) :
  Game.select_answering_player player s = (s', Return tt) →
  ∃ question q,
    current_question s = Some question
    ∧ question_objs s !! question = Some q
    ∧ (Question.answering_player q = None
       ∨ Question.answering_player q = Some player)
    ∧ s' = mkState (player_objs s)
             (<[question := Question.set_answering_player (Some player) q]>
                (question_objs s))
             (players s) (themes_questions s) (current_question s).
Proof.
  run_method.
  destruct (current_question s) as [question |] eqn:Hcur; [| discriminate].
  simpl. destruct (question_objs s !! question) as [q |] eqn:Hq; [| discriminate].
  simpl. case_bool_decide as Hd; [discriminate |]. simpl. rewrite Hq. simpl.
  intros [= <-]. exists question, q.
  split; [reflexivity |]. split; [exact Hq |].
  split; [| rewrite Hcur; reflexivity].
  destruct (Question.answering_player q) as [other |]; [| left; reflexivity].
  right. destruct (decide (other = player)) as [-> | Hne]; [reflexivity |].
  exfalso. apply Hd. split; congruence.
Qed.

(** X19.
    On every game the server can reach, no exception escapes from a
    handler once it has its parameters: "join_game" with the player name
    it has read, a string; "select_question" with the theme it has read,
    a string, and the score that [int] has returned; "leave_game" and
    "select_answering_player" with the player key of the message, a
    string, registered or not; "accept_answer", "decline_answer" and
    "skip_question".  From there on the errors of the game are answered
    with "fail", [leave_game] never meets the [ValueError] of
    [players.remove] nor the [KeyError] of the [del], and what is sent to
    the clients is always computed from live objects.  (The reading of
    the parameters is not covered: a message without "player_name",
    "theme" or "score" or with a score that [int] refuses raises there,
    and a theme that is no string is no parameter of this kind.) *)
Theorem no_exception_escapes (file : list (string * list SocketIO.RawQuestion))
    (msgs : list SocketIO.message) (msg : SocketIO.message) :
  App.escaped
    (App.handle msg (SocketIO.run msgs (SocketIO.start_game file))) = None.
Proof.
  pose proof (run_inv file msgs) as Hinv.
  pose proof (run_questions_live file msgs) as Hql.
  pose proof (run_inv file (msgs ++ [msg])) as Hinv'.
  pose proof (run_questions_live file (msgs ++ [msg])) as Hql'.
  rewrite run_snoc in Hinv', Hql'.
  set (g := SocketIO.run msgs (SocketIO.start_game file)) in *.
  destruct Hinv' as [[Hroster' Hanswering'] _ _].
  destruct msg as [name | k | theme score | k | | |];
    cbn [SocketIO.handle App.handle] in *.
  - unfold App.join_game. unfold SocketIO.join in Hroster'.
    destruct (Game.join name (SocketIO.base g)) as [s [player | e]] eqn:Hjoin;
      [| revert Hjoin; run_method; discriminate].
    simpl in Hroster'.
    destruct (players_dao_run s Hroster') as (daos & Hrun & _).
    eapply emit_computed_escaped. exact Hrun.
  - unfold App.joined_player_only. unfold SocketIO.joined_player_only in Hroster'.
    destruct (SocketIO.players_by_key g !! k) as [p |] eqn:Hk; [| reflexivity].
    destruct (inv_keys _ _ Hinv k p Hk) as [-> Hin].
    unfold App.leave_game. unfold SocketIO.leave in Hroster'.
    destruct (Game.leave p (SocketIO.base g)) as [s [[] | e]] eqn:Hleave.
    + rewrite Hk. simpl in Hroster'.
      destruct (players_dao_run s Hroster') as (daos & Hrun & _).
      eapply emit_computed_escaped. exact Hrun.
    + exfalso. revert Hleave. run_method.
      destruct (list_remove p (players (SocketIO.base g))) eqn:Hrem;
        [discriminate |].
      apply list_remove_None_inv in Hrem. tauto.
  - apply try_except_escaped.
    + intros s' e Hrun.
      destruct (select_question_raises _ _ _ _ _ (proj1 Hql) Hrun) as [ge ->].
      exists ge. split; [reflexivity |].
      apply select_question_errors in Hrun
        as [-> | [-> | [-> | [question ->]]]]; eexists; reflexivity.
    + intros s' [] Hrun.
      apply select_question_returns in Hrun
        as (_ & before & question & after & q & _ & _ & Hq & _ & _ & ->).
      eexists. unfold App.current_question_dao, App.get_game_question_dao,
        get_question, read, mbind, M_bind. simpl. rewrite Hq. reflexivity.
  - unfold App.joined_player_only.
    unfold SocketIO.joined_player_only in Hroster', Hanswering', Hql'.
    destruct (SocketIO.players_by_key g !! k) as [p |] eqn:Hk; [| reflexivity].
    destruct (inv_keys _ _ Hinv k p Hk) as [_ Hin].
    apply try_except_escaped.
    + intros s' e Hrun.
      destruct (select_answering_player_raises _ _ _ _ Hql Hrun) as [ge ->].
      exists ge. split; [reflexivity |].
      apply select_answering_player_errors in Hrun as [-> | ->];
        eexists; reflexivity.
    + intros s' [] Hrun.
      apply select_answering_player_returns in Hrun
        as (question & q & Hcur & Hq & _ & ->).
      destruct (lookup_lt_is_Some_2 _ _
                  (proj1 (inv_live _ _ Hinv) p Hin)) as [pl Hpl].
      eexists. unfold App.answering_player_dao, App.get_player_dao,
        get_question, get_player, read, mbind, M_bind. simpl.
      rewrite Hcur. simpl.
      rewrite list_lookup_insert_eq by (eapply lookup_lt_Some; eauto).
      simpl. rewrite Hpl. reflexivity.
  - apply try_except_escaped.
    + intros s' e Hrun.
      destruct (accept_answer_raises _ _ _ Hql (inv_live _ _ Hinv) Hrun)
        as [ge ->].
      exists ge. split; [reflexivity |].
      apply accept_answer_errors in Hrun as [-> | ->]; eexists; reflexivity.
    + intros s' [] Hrun. unfold SocketIO.call, state_after in *.
      rewrite Hrun in *. simpl in *.
      destruct (get_game_dao_returns s' Hroster' Hql') as (dao & Hdao & _).
      eauto.
  - apply try_except_escaped.
    + intros s' e Hrun.
      destruct (decline_answer_raises _ _ _ Hql (inv_live _ _ Hinv) Hrun)
        as [ge ->].
      exists ge. split; [reflexivity |].
      apply decline_answer_errors in Hrun as [-> | ->]; eexists; reflexivity.
    + intros s' [] Hrun. unfold SocketIO.call, state_after in *.
      rewrite Hrun in *. simpl in *.
      destruct (get_game_dao_returns s' Hroster' Hql') as (dao & Hdao & _).
      eauto.
  - apply try_except_escaped.
    + intros s' e Hrun.
      destruct (skip_question_raises _ _ _ Hql Hrun) as [ge ->].
      exists ge. split; [reflexivity |].
      apply skip_question_errors in Hrun as ->. eexists; reflexivity.
    + intros s' [] Hrun. unfold SocketIO.call, state_after in *.
      rewrite Hrun in *. simpl in *.
      destruct (get_game_dao_returns s' Hroster' Hql') as (dao & Hdao & _).
      eauto.
Qed.

(** ** What is sent on a selection and on a buzz *)

(** X20.
    When the handler of "select_question" emits "question_selected", it
    is to the room, and the question sent is the new current question:
    it has the score asked for and is enabled, and no question was current
    before. *)
Theorem question_selected_payload (theme : string) (score : Z)
    (g : SocketIO.SocketIOGame) (ev : App.event) (dao : App.QuestionDao) :
  ev = App.question_selected dao →
  (App.to_sender ev ∈ App.emitted
     (App.handle (SocketIO.select_question theme score) g)
   ∨ App.to_room ev ∈ App.emitted
       (App.handle (SocketIO.select_question theme score) g)) →
  App.emitted (App.handle (SocketIO.select_question theme score) g)
    = [App.to_room ev]
  ∧ App.dao_question_score dao = score
  ∧ App.dao_disabled dao = false
  ∧ current_question (SocketIO.base g) = None
  ∧ ∃ question,
      current_question
        (SocketIO.base
           (App.game (App.handle (SocketIO.select_question theme score) g)))
        = Some question
      ∧ question_dao_of (SocketIO.base g) question dao.
Proof.
  intros ->. cbn [App.handle]. unfold App.select_question, App.try_except.
  destruct (Game.select_question theme score (SocketIO.base g))
    as [s [[] | e]] eqn:Hrun.
  - apply select_question_returns in Hrun
      as (Hnone & before & question & after & q & _ & _ & Hq & Hscore & Hdis & ->).
    unfold App.emit_computed, App.current_question_dao,
      App.get_game_question_dao, get_question, read, mbind, M_bind. simpl.
    rewrite Hq. simpl. intros [Hin | Hin];
      apply list_elem_of_singleton in Hin; [discriminate |].
    injection Hin as ->. simpl. repeat split; try assumption.
    exists question. split; [reflexivity |]. exists q. auto.
  - destruct e as [[] | | |]; simpl; intros [Hin | Hin];
      try (apply list_elem_of_singleton in Hin; discriminate);
      inversion Hin.
Qed.

Lemma question_selected_payload_witness :
  App.emitted
    (App.handle (SocketIO.select_question Tests.test_theme 200)
       (SocketIO.start_game Scenario.file))
  = [App.to_room (App.question_selected
                    (App.mkQuestionDao "Test Other Question" 200 false))].
Proof.
  apply (question_selected_payload Tests.test_theme 200
           (SocketIO.start_game Scenario.file) _
           (App.mkQuestionDao "Test Other Question" 200 false) eq_refl).
  right. vm_compute. apply list_elem_of_here.
Defined.

(** X21.
    When the handler of "select_answering_player" emits
    "selected_answering_player", it is to the room, and the player sent
    is the player of the key of the message, with the name and the score
    that player has; that player is then the answering player of the
    current question. *)
Theorem selected_answering_player_payload (k : nat)
    (g : SocketIO.SocketIOGame) (ev : App.event) (dao : App.PlayerDao) :
  ev = App.selected_answering_player dao →
  (App.to_sender ev ∈ App.emitted
     (App.handle (SocketIO.select_answering_player k) g)
   ∨ App.to_room ev ∈ App.emitted
       (App.handle (SocketIO.select_answering_player k) g)) →
  App.emitted (App.handle (SocketIO.select_answering_player k) g)
    = [App.to_room ev]
  ∧ ∃ player question q,
      SocketIO.players_by_key g !! k = Some player
      ∧ player_dao_of (SocketIO.base g) player dao
      ∧ current_question (SocketIO.base g) = Some question
      ∧ question_objs
          (SocketIO.base
             (App.game (App.handle (SocketIO.select_answering_player k) g)))
          !! question = Some q
      ∧ Question.answering_player q = Some player.
Proof.
  intros ->. cbn [App.handle]. unfold App.joined_player_only.
  destruct (SocketIO.players_by_key g !! k) as [p |] eqn:Hk; simpl;
    [| intros [Hin | Hin]; apply list_elem_of_singleton in Hin; discriminate].
  unfold App.select_answering_player, App.try_except.
  destruct (Game.select_answering_player p (SocketIO.base g))
    as [s [[] | e]] eqn:Hrun.
  - apply select_answering_player_returns in Hrun
      as (question & q & Hcur & Hq & _ & ->).
    assert (Hlt : (question < length (question_objs (SocketIO.base g)))%nat)
      by (eapply lookup_lt_Some; eauto).
    unfold App.emit_computed, App.answering_player_dao, App.get_player_dao,
      get_question, get_player, read, mbind, M_bind. simpl.
    rewrite Hcur. simpl. rewrite list_lookup_insert_eq by exact Hlt. simpl.
    destruct (player_objs (SocketIO.base g) !! p) as [pl |] eqn:Hpl; simpl;
      [| intros [Hin | Hin]; inversion Hin].
    intros [Hin | Hin]; apply list_elem_of_singleton in Hin; [discriminate |].
    injection Hin as ->. split; [reflexivity |].
    exists p, question, (Question.set_answering_player (Some p) q).
    split; [reflexivity |]. split; [exists pl; auto |].
    split; [reflexivity |].
    split; [apply list_lookup_insert_eq; exact Hlt | reflexivity].
  - destruct e as [[] | | |]; simpl; intros [Hin | Hin];
      try (apply list_elem_of_singleton in Hin; discriminate);
      inversion Hin.
Qed.

Lemma selected_answering_player_payload_witness :
  let g := SocketIO.run (take 2 Scenario.buzz_then_leave)
             (SocketIO.start_game Scenario.file) in
  App.emitted (App.handle (SocketIO.select_answering_player 0) g)
  = [App.to_room (App.selected_answering_player
                    (App.mkPlayerDao "Test Player #1" 0))].
Proof.
  intros g.
  apply (selected_answering_player_payload 0 g _
           (App.mkPlayerDao "Test Player #1" 0) eq_refl).
  right. vm_compute. apply list_elem_of_here.
Defined.

(** ** Keys and roster *)

Lemma run_roster_wf (file : list (string * list SocketIO.RawQuestion))
    (msgs : list SocketIO.message) :
  roster_wf (SocketIO.base (SocketIO.run msgs (SocketIO.start_game file))).
Proof.
  induction msgs as [| msg msgs IH] using rev_ind.
  - split; simpl; [apply NoDup_nil_2 | intros p Hin; inversion Hin].
  - rewrite run_snoc.
    destruct (handle_transition msg (SocketIO.run msgs (SocketIO.start_game file)))
      as [c Hstep].
    eapply transition_keeps_roster_wf; eauto.
Qed.

Lemma handle_keeps_roster_keyed (msg : SocketIO.message)
    (g : SocketIO.SocketIOGame) :
  NoDup (players (SocketIO.base g)) →
  (∀ p, p ∈ players (SocketIO.base g) → SocketIO.players_by_key g !! p = Some p) →
  ∀ p, p ∈ players (SocketIO.base (SocketIO.handle msg g)) →
       SocketIO.players_by_key (SocketIO.handle msg g) !! p = Some p.
Proof.
  intros Hnodup Hkeyed.
  assert (Hcall : ∀ c, roster_call c = false → ∀ p,
            p ∈ players (SocketIO.base (SocketIO.call (invoke c) g)) →
            SocketIO.players_by_key (SocketIO.call (invoke c) g) !! p = Some p).
  { intros c Hc p. unfold SocketIO.call. simpl.
    destruct (transition_keeps_roster _ _ _
                (exec_transition c (SocketIO.base g)) Hc) as [Hroster _].
    unfold exec in Hroster. rewrite Hroster. apply Hkeyed. }
  destruct msg as [name | k | theme score | k | | |]; cbn [SocketIO.handle].
  - unfold SocketIO.join. run_method. intros p Hin.
    apply elem_of_app in Hin as [Hin | Hin].
    + destruct (decide (length (player_objs (SocketIO.base g)) = p)) as [<- | Hne].
      * apply lookup_insert_eq.
      * rewrite lookup_insert_ne by exact Hne. apply Hkeyed. exact Hin.
    + apply list_elem_of_singleton in Hin as ->. apply lookup_insert_eq.
  - unfold SocketIO.joined_player_only.
    destruct (SocketIO.players_by_key g !! k) as [player |]; [| exact Hkeyed].
    unfold SocketIO.leave. run_method.
    destruct (list_remove player (players (SocketIO.base g))) as [roster |] eqn:Hrem;
      simpl; [| exact Hkeyed].
    intros p Hin.
    apply list_remove_Some_inv in Hrem as (before & after & Hroster & Hnotin & ->).
    rewrite Hroster in Hnodup, Hkeyed.
    apply NoDup_app in Hnodup as (_ & Hdisjoint & Hafter).
    apply NoDup_cons in Hafter as [Hnotin' _].
    assert (Hne : player ≠ p).
    { intros ->. apply elem_of_app in Hin as [Hin | Hin]; tauto. }
    rewrite lookup_delete_ne by exact Hne. apply Hkeyed.
    apply elem_of_app in Hin as [Hin | Hin]; apply elem_of_app;
      [left; exact Hin | right; apply elem_of_cons; right; exact Hin].
  - apply (Hcall (call_select_question theme score)). reflexivity.
  - unfold SocketIO.joined_player_only.
    destruct (SocketIO.players_by_key g !! k) as [player |]; [| exact Hkeyed].
    apply (Hcall (call_select_answering_player player)). reflexivity.
  - apply (Hcall call_accept_answer). reflexivity.
  - apply (Hcall call_decline_answer). reflexivity.
  - apply (Hcall call_skip_question). reflexivity.
Qed.

Lemma run_roster_keyed (file : list (string * list SocketIO.RawQuestion))
    (msgs : list SocketIO.message) (p : nat) :
  p ∈ players (SocketIO.base (SocketIO.run msgs (SocketIO.start_game file))) →
  SocketIO.players_by_key (SocketIO.run msgs (SocketIO.start_game file)) !! p
    = Some p.
Proof.
  revert p. induction msgs as [| msg msgs IH] using rev_ind.
  - intros p Hin. inversion Hin.
  - rewrite run_snoc. apply handle_keeps_roster_keyed; [| exact IH].
    apply run_roster_wf.
Qed.

(** X22.
    On every game the server can reach, [players_by_key] and the roster
    stay in step: a key resolves to a player exactly when that player is
    in the roster (and then it is that player's own key), and no player
    is in the roster twice.  So "leave_game" and
    "select_answering_player" are accepted from the members of the roster
    and from nobody else. *)
Theorem keys_are_the_roster (file : list (string * list SocketIO.RawQuestion))
    (msgs : list SocketIO.message) :
  let g := SocketIO.run msgs (SocketIO.start_game file) in
  NoDup (players (SocketIO.base g))
  ∧ ∀ k p, SocketIO.players_by_key g !! k = Some p
           ↔ k = p ∧ p ∈ players (SocketIO.base g).
Proof.
  intros g. split; [apply run_roster_wf |]. intros k p. split.
  - apply (inv_keys _ _ (run_inv file msgs)).
  - intros [-> Hin]. apply run_roster_keyed. exact Hin.
Qed.

Lemma handle_keeps_gone (msg : SocketIO.message) (g : SocketIO.SocketIOGame)
    (p : nat) :
  gone g p → gone (SocketIO.handle msg g) p.
Proof.
  intros (Hkey & Hnotin & Hlt).
  assert (Hcall : ∀ c, roster_call c = false →
            gone (SocketIO.call (invoke c) g) p).
  { intros c Hc. unfold SocketIO.call, gone. simpl.
    destruct (transition_keeps_roster _ _ _
                (exec_transition c (SocketIO.base g)) Hc) as [Hroster Hlen].
    unfold exec in Hroster, Hlen. rewrite Hroster, Hlen. auto. }
  destruct msg as [name | k | theme score | k | | |]; cbn [SocketIO.handle].
  - unfold SocketIO.join, gone. run_method. split; [| split].
    + rewrite lookup_insert_ne by lia. exact Hkey.
    + intros Hin. apply elem_of_app in Hin as [Hin | Hin]; [tauto |].
      apply list_elem_of_singleton in Hin. lia.
    + rewrite length_app. simpl. lia.
  - unfold SocketIO.joined_player_only.
    destruct (SocketIO.players_by_key g !! k) as [player |];
      [| split; auto].
    unfold SocketIO.leave, gone. run_method.
    destruct (list_remove player (players (SocketIO.base g))) as [roster |] eqn:Hrem;
      simpl; [| split; auto].
    split; [| split; [| exact Hlt]].
    + destruct (decide (player = p)) as [-> | Hne];
        [apply lookup_delete_eq | rewrite lookup_delete_ne by exact Hne; exact Hkey].
    + intros Hin. apply Hnotin.
      apply (list_remove_elem_of player p _ _ Hrem). right. exact Hin.
  - apply (Hcall (call_select_question theme score)). reflexivity.
  - unfold SocketIO.joined_player_only.
    destruct (SocketIO.players_by_key g !! k) as [player |]; [| split; auto].
    apply (Hcall (call_select_answering_player player)). reflexivity.
  - apply (Hcall call_accept_answer). reflexivity.
  - apply (Hcall call_decline_answer). reflexivity.
  - apply (Hcall call_skip_question). reflexivity.
Qed.

Lemma run_keeps_gone (msgs : list SocketIO.message) (g : SocketIO.SocketIOGame)
    (p : nat) :
  gone g p → gone (SocketIO.run msgs g) p.
Proof.
  intros Hgone. induction msgs as [| msg msgs IH] using rev_ind; [exact Hgone |].
  rewrite run_snoc. apply handle_keeps_gone. exact IH.
Qed.

(** X23.
    Leaving is for good.  Once the "leave_game" of a member of a reached
    game has been handled, whatever messages follow (new players joining
    under the same name included), the player is never in the roster
    again and the key is never accepted again: a later "leave_game" or
    "select_answering_player" with it is answered "Wrong player key."
    with status -6 and changes nothing. *)
Theorem leaving_is_final (file : list (string * list SocketIO.RawQuestion))
    (msgs later : list SocketIO.message) (k : nat) :
  let g := SocketIO.run msgs (SocketIO.start_game file) in
  let g' := SocketIO.run later (SocketIO.handle (SocketIO.leave_game k) g) in
  is_Some (SocketIO.players_by_key g !! k) →
  SocketIO.players_by_key g' !! k = None
  ∧ (k ∉ players (SocketIO.base g'))
  ∧ App.handle (SocketIO.leave_game k) g' =
      App.mkReply g' [App.to_sender (App.fail "Wrong player key." (-6))] None
  ∧ App.handle (SocketIO.select_answering_player k) g' =
      App.mkReply g' [App.to_sender (App.fail "Wrong player key." (-6))] None.
Proof.
  intros g g' [p Hk].
  destruct (inv_keys _ _ (run_inv file msgs) k p Hk) as [-> Hin].
  assert (Hgone : gone g' p).
  { apply run_keeps_gone. cbn [SocketIO.handle].
    unfold SocketIO.joined_player_only. fold g. rewrite Hk.
    unfold SocketIO.leave, gone. run_method.
    destruct (list_remove p (players (SocketIO.base g))) as [roster |] eqn:Hrem;
      simpl.
    - split; [apply lookup_delete_eq |]. split.
      + apply list_remove_Some_inv in Hrem
          as (before & after & Hroster & Hnotin & ->).
        destruct (run_roster_wf file msgs) as [Hnodup _]. fold g in Hnodup.
        rewrite Hroster in Hnodup.
        apply NoDup_app in Hnodup as (_ & Hdisjoint & Hafter).
        apply NoDup_cons in Hafter as [Hnotin' _].
        intros Hin'. apply elem_of_app in Hin' as [Hin' | Hin']; tauto.
      + apply (proj1 (inv_live _ _ (run_inv file msgs))). exact Hin.
    - apply list_remove_None_inv in Hrem. tauto. }
  destruct Hgone as (Hkey & Hnotin & _).
  split; [exact Hkey |]. split; [exact Hnotin |].
  cbn [App.handle]. unfold App.joined_player_only. rewrite Hkey.
  split; reflexivity.
Qed.

Lemma leaving_is_final_witness :
  let g' := SocketIO.run
              [SocketIO.join_game "Test Player #1";
               SocketIO.select_answering_player 0%nat]
              (SocketIO.run Scenario.buzz_then_leave
                 (SocketIO.start_game Scenario.file)) in
  SocketIO.players_by_key g' !! 0%nat = None
  ∧ (0%nat ∉ players (SocketIO.base g')).
Proof.
  intros g'.
  destruct (leaving_is_final Scenario.file (take 3 Scenario.buzz_then_leave)
              [SocketIO.join_game "Test Player #1";
               SocketIO.select_answering_player 0%nat] 0)
    as (Hkey & Hnotin & _).
  { eexists. vm_compute. reflexivity. }
  split; [exact Hkey | exact Hnotin].
Defined.

(** ** The board of a started game *)





(** ** Joining through the socket *)



(** ** The scores *)

(** X26.
    Only [accept_answer] and [decline_answer] touch a score: after any
    other call every player object is exactly as it was. *)
Theorem scores_move_only_on_resolution (c : method_call) (s : State) :
  c ≠ call_accept_answer → c ≠ call_decline_answer →
  ∀ p pl, player_objs s !! p = Some pl →
          player_objs (exec c s) !! p = Some pl.
Proof.
  intros Haccept Hdecline p pl Hpl.
  destruct (exec_transition c s) as [c | name | player roster Hrem
                                    | theme score r q0 Hcur Hq0 Hen
                                    | player r q0 Hcur Hq0
                                    | r q0 p' pl' Hcur Hq0 Hap Hpl'
                                    | r q0 p' pl' Hcur Hq0 Hap Hpl'
                                    | r q0 Hcur Hq0];
    simpl; try assumption; try congruence.
  apply lookup_app_l_Some. exact Hpl.
Qed.

Lemma scores_move_only_on_resolution_witness :
  player_objs (exec call_skip_question Tests.game_with_answering_player) !! 0%nat
  = Some (Player.init "Test Player #1" 0).
Proof.
  apply (scores_move_only_on_resolution call_skip_question
           Tests.game_with_answering_player); [discriminate | discriminate |].
  reflexivity.
Defined.

(** * Properties of the decorators *)

(** ** What the tests of the decorators mean on the values of a message *)

Lemma truthy_false (v : Wire.json) :
  Wire.truthy v = false ↔
  v = Wire.jnull ∨ v = Wire.jbool false ∨ v = Wire.jint 0
  ∨ v = Wire.jfloat true ∨ v = Wire.jstr "" ∨ v = Wire.jlist []
  ∨ v = Wire.jdict ∅.
Proof.
  split.
  - destruct v as [| [] | n | [] | s | [| item items] | fields]; simpl;
      try discriminate; auto 10.
    + case_bool_decide as Hn; [subst n; auto 10 | discriminate].
    + case_bool_decide as Hs; [subst s; auto 10 | discriminate].
    + case_bool_decide as Hd; [| discriminate].
      apply dom_empty_inv_L in Hd. subst fields. auto 10.
  - intros [-> | [-> | [-> | [-> | [-> | [-> | ->]]]]]]; reflexivity.
Qed.

Lemma differs_false (s : string) (v : Wire.json) :
  Wire.differs s v = false ↔ v = Wire.jstr s.
Proof.
  split.
  - destruct v as [| b | n | z | s' | items | fields]; simpl; try discriminate.
    case_bool_decide as Hs; [subst s'; reflexivity | discriminate].
  - intros ->. simpl. rewrite bool_decide_eq_true_2 by reflexivity.
    reflexivity.
Qed.

Lemma find_present {A} (key : Wire.json) (d : gmap string A) (a : A) :
  Wire.find key d = Wire.present a ↔
  ∃ s, key = Wire.jstr s ∧ d !! s = Some a.
Proof.
  split.
  - destruct key as [| b | n | z | s | items | fields]; simpl; try discriminate.
    destruct (d !! s) as [a' |] eqn:Hs; [| discriminate].
    intros [= ->]. exists s. split; [reflexivity | exact Hs].
  - intros (s & -> & Hs). simpl. rewrite Hs. reflexivity.
Qed.

Lemma find_unhashable {A} (key : Wire.json) (d : gmap string A) :
  Wire.find key d = Wire.unhashable ↔
  (∃ items, key = Wire.jlist items) ∨ (∃ fields, key = Wire.jdict fields).
Proof.
  split.
  - destruct key as [| b | n | z | s | items | fields]; simpl;
      try discriminate; eauto.
    destruct (d !! s); discriminate.
  - intros [[items ->] | [fields ->]]; reflexivity.
Qed.

Lemma get_truthy_str (message : gmap string Wire.json) (field s : string) :
  message !! field = Some (Wire.jstr s) → s ≠ "" →
  Wire.get message field = Wire.jstr s
  ∧ Wire.truthy (Wire.get message field) = true.
Proof.
  intros Hfield Hne. unfold Wire.get. rewrite Hfield. simpl.
  rewrite bool_decide_eq_false_2 by exact Hne. split; reflexivity.
Qed.

(** ** [game_method] *)

Lemma game_method_run {R}
    (func : Wire.SocketIOGame → gmap string Wire.json → Wire.guarded R)
    (games : gmap string Wire.SocketIOGame) (message : gmap string Wire.json)
    (game : Wire.SocketIOGame) :
  Wire.truthy (Wire.get message "game_id") = true →
  Wire.find (Wire.get message "game_id") games = Wire.present game →
  message !! "game" = None →
  Wire.game_method func games (Wire.jdict message) = func game message.
Proof.
  intros Htruthy Hfind Hgame. unfold Wire.game_method.
  rewrite Htruthy, Hfind, Hgame. reflexivity.
Qed.

Lemma game_method_cases {R}
    (func : Wire.SocketIOGame → gmap string Wire.json → Wire.guarded R)
    (games : gmap string Wire.SocketIOGame) (message : Wire.json) :
  Wire.game_method func games message = Wire.raised Wire.AttributeError
  ∨ Wire.game_method func games message = Wire.raised Wire.TypeError
  ∨ Wire.game_method func games message =
      Wire.refused "Game id is not specified." (-1)
  ∨ Wire.game_method func games message =
      Wire.refused "No game with such id." (-2)
  ∨ ∃ fields id game,
      message = Wire.jdict fields
      ∧ fields !! "game_id" = Some (Wire.jstr id)
      ∧ id ≠ ""
      ∧ games !! id = Some game
      ∧ fields !! "game" = None
      ∧ Wire.game_method func games message = func game fields.
Proof.
  destruct message as [| b | n | z | s | items | fields]; simpl; auto.
  destruct (Wire.truthy (Wire.get fields "game_id")) eqn:Htruthy; simpl;
    [| auto].
  destruct (Wire.find (Wire.get fields "game_id") games) as [| | game] eqn:Hfind;
    [auto | auto 6 |].
  destruct (fields !! "game") as [v |] eqn:Hgame; [auto |].
  apply find_present in Hfind as (id & Hid & Hlookup).
  do 4 right. exists fields, id, game.
  unfold Wire.get in Hid, Htruthy.
  destruct (fields !! "game_id") as [v |] eqn:Hfield; simpl in *;
    [| discriminate].
  subst v. simpl in Htruthy.
  case_bool_decide as Hne; [discriminate |]. auto 10.
Qed.

(** X27.
    [game_host_only] lets the handler run only for the game that the
    "game_id" of the message names and only with that game's host key, a
    string that is not empty; a player key plays no part.  Whatever the
    client sent, the decorator answers one "fail", raises [AttributeError]
    or [TypeError], or runs the handler.  A message that is not a dict
    raises [AttributeError].  On a dict the checks come in this order: a
    game id that is absent or false (-1); a game id that cannot be hashed
    ([TypeError]); an unknown game (-2); a field named "game"
    ([TypeError], the keyword given twice); a host key that is absent or
    false (-3); a host key that is not the game's (-4). *)
Theorem host_only_guard {R}
    (func : Wire.SocketIOGame → gmap string Wire.json → Wire.guarded R)
    (games : gmap string Wire.SocketIOGame) (message : Wire.json) :
  let result := Wire.game_host_only func games message in
  (result = Wire.raised Wire.AttributeError
   ∨ result = Wire.raised Wire.TypeError
   ∨ result = Wire.refused "Game id is not specified." (-1)
   ∨ result = Wire.refused "No game with such id." (-2)
   ∨ result = Wire.refused "Host key is required." (-3)
   ∨ result = Wire.refused "Wrong host key." (-4)
   ∨ ∃ fields id game,
       message = Wire.jdict fields
       ∧ fields !! "game_id" = Some (Wire.jstr id)
       ∧ games !! id = Some game
       ∧ fields !! "host_key" = Some (Wire.jstr (Wire.game_host_key game))
       ∧ Wire.game_host_key game ≠ ""
       ∧ result = func game fields)
  ∧ ((∀ fields, message ≠ Wire.jdict fields) →
     result = Wire.raised Wire.AttributeError)
  ∧ (∀ fields, message = Wire.jdict fields →
     (Wire.truthy (Wire.get fields "game_id") = false →
        result = Wire.refused "Game id is not specified." (-1))
     ∧ (Wire.truthy (Wire.get fields "game_id") = true →
        Wire.find (Wire.get fields "game_id") games = Wire.unhashable →
        result = Wire.raised Wire.TypeError)
     ∧ (Wire.truthy (Wire.get fields "game_id") = true →
        Wire.find (Wire.get fields "game_id") games = Wire.absent →
        result = Wire.refused "No game with such id." (-2))
     ∧ (∀ game,
        Wire.truthy (Wire.get fields "game_id") = true →
        Wire.find (Wire.get fields "game_id") games = Wire.present game →
        (is_Some (fields !! "game") → result = Wire.raised Wire.TypeError)
        ∧ (fields !! "game" = None →
           (Wire.truthy (Wire.get fields "host_key") = false →
              result = Wire.refused "Host key is required." (-3))
           ∧ (Wire.truthy (Wire.get fields "host_key") = true →
              Wire.differs (Wire.game_host_key game)
                (Wire.get fields "host_key") = true →
              result = Wire.refused "Wrong host key." (-4))
           ∧ (Wire.truthy (Wire.get fields "host_key") = true →
              Wire.differs (Wire.game_host_key game)
                (Wire.get fields "host_key") = false →
              result = func game fields)))).
Proof.
  intros result. subst result. unfold Wire.game_host_only.
  split; [| split].
  - destruct (game_method_cases
                (λ game kwargs,
                   if negb (Wire.truthy (Wire.get kwargs "host_key"))
                   then Wire.refused "Host key is required." (-3)
                   else if Wire.differs (Wire.game_host_key game)
                             (Wire.get kwargs "host_key")
                   then Wire.refused "Wrong host key." (-4)
                   else func game kwargs) games message)
      as [H | [H | [H | [H | (fields & id & game & -> & Hid & Hne & Hgame
                                & Hfield & H)]]]];
      rewrite H; auto 10.
    destruct (Wire.truthy (Wire.get fields "host_key")) eqn:Htruthy; simpl;
      [| auto 10].
    destruct (Wire.differs (Wire.game_host_key game)
                (Wire.get fields "host_key")) eqn:Hdiffers; [auto 10 |].
    apply differs_false in Hdiffers.
    do 6 right. exists fields, id, game.
    unfold Wire.get in Hdiffers, Htruthy.
    destruct (fields !! "host_key") as [v |] eqn:Hkey; simpl in *;
      [| discriminate].
    subst v. simpl in Htruthy.
    case_bool_decide as Hempty; [discriminate |].
    split; [reflexivity |]. split; [exact Hid |]. split; [exact Hgame |].
    split; [reflexivity |]. split; [congruence | reflexivity].
  - intros Hdict.
    destruct message as [| b | n | z | s | items | fields]; try reflexivity.
    exfalso. apply (Hdict fields). reflexivity.
  - intros fields ->. unfold Wire.game_method.
    split; [intros ->; reflexivity |].
    split; [intros -> ->; reflexivity |].
    split; [intros -> ->; reflexivity |].
    intros game -> ->. simpl.
    split; [intros [v ->]; reflexivity |].
    intros ->.
    split; [intros ->; reflexivity |].
    split; intros -> ->; reflexivity.
Qed.

(** X28.
    [joined_player_only] lets the handler run only for the game that the
    "game_id" names and only with a key registered in that game's
    [players_by_key], and hands it the player registered under that key;
    the host key opens nothing here.  Whatever the client sent, the
    decorator answers one "fail", raises [AttributeError] or [TypeError],
    or runs the handler.  After the checks of [game_method] come, in this
    order: a player key that is absent or false (-5); a player key that
    cannot be hashed ([TypeError]); a key that is not registered (-6); a
    field named "player" ([TypeError], the keyword given twice). *)
Theorem joined_player_guard {R}
    (func : Wire.SocketIOGame → nat → gmap string Wire.json → Wire.guarded R)
    (games : gmap string Wire.SocketIOGame) (message : Wire.json) :
  let result := Wire.joined_player_only func games message in
  (result = Wire.raised Wire.AttributeError
   ∨ result = Wire.raised Wire.TypeError
   ∨ result = Wire.refused "Game id is not specified." (-1)
   ∨ result = Wire.refused "No game with such id." (-2)
   ∨ result = Wire.refused "Player key is required." (-5)
   ∨ result = Wire.refused "Wrong player key." (-6)
   ∨ ∃ fields id game key player,
       message = Wire.jdict fields
       ∧ fields !! "game_id" = Some (Wire.jstr id)
       ∧ games !! id = Some game
       ∧ fields !! "player_key" = Some (Wire.jstr key)
       ∧ Wire.players_by_key game !! key = Some player
       ∧ result = func game player fields)
  ∧ ((∀ fields, message ≠ Wire.jdict fields) →
     result = Wire.raised Wire.AttributeError)
  ∧ (∀ fields, message = Wire.jdict fields →
     (Wire.truthy (Wire.get fields "game_id") = false →
        result = Wire.refused "Game id is not specified." (-1))
     ∧ (Wire.truthy (Wire.get fields "game_id") = true →
        Wire.find (Wire.get fields "game_id") games = Wire.unhashable →
        result = Wire.raised Wire.TypeError)
     ∧ (Wire.truthy (Wire.get fields "game_id") = true →
        Wire.find (Wire.get fields "game_id") games = Wire.absent →
        result = Wire.refused "No game with such id." (-2))
     ∧ (∀ game,
        Wire.truthy (Wire.get fields "game_id") = true →
        Wire.find (Wire.get fields "game_id") games = Wire.present game →
        (is_Some (fields !! "game") → result = Wire.raised Wire.TypeError)
        ∧ (fields !! "game" = None →
           (Wire.truthy (Wire.get fields "player_key") = false →
              result = Wire.refused "Player key is required." (-5))
           ∧ (Wire.truthy (Wire.get fields "player_key") = true →
              Wire.find (Wire.get fields "player_key")
                (Wire.players_by_key game) = Wire.unhashable →
              result = Wire.raised Wire.TypeError)
           ∧ (Wire.truthy (Wire.get fields "player_key") = true →
              Wire.find (Wire.get fields "player_key")
                (Wire.players_by_key game) = Wire.absent →
              result = Wire.refused "Wrong player key." (-6))
           ∧ (∀ player,
              Wire.truthy (Wire.get fields "player_key") = true →
              Wire.find (Wire.get fields "player_key")
                (Wire.players_by_key game) = Wire.present player →
              (is_Some (fields !! "player") →
                 result = Wire.raised Wire.TypeError)
              ∧ (fields !! "player" = None →
                 result = func game player fields))))).
Proof.
  intros result. subst result. unfold Wire.joined_player_only.
  split; [| split].
  - destruct (game_method_cases
                (λ game kwargs,
                   if negb (Wire.truthy (Wire.get kwargs "player_key"))
                   then Wire.refused "Player key is required." (-5)
                   else
                     match Wire.find (Wire.get kwargs "player_key")
                             (Wire.players_by_key game) with
                     | Wire.unhashable => Wire.raised Wire.TypeError
                     | Wire.absent => Wire.refused "Wrong player key." (-6)
                     | Wire.present player =>
                         match kwargs !! "player" with
                         | Some _ => Wire.raised Wire.TypeError
                         | None => func game player kwargs
                         end
                     end) games message)
      as [H | [H | [H | [H | (fields & id & game & -> & Hid & Hne & Hgame
                                & Hfield & H)]]]];
      rewrite H; auto 10.
    destruct (Wire.truthy (Wire.get fields "player_key")) eqn:Htruthy; simpl;
      [| auto 10].
    destruct (Wire.find (Wire.get fields "player_key")
                (Wire.players_by_key game)) as [| | player] eqn:Hfind;
      [auto 10 | auto 10 |].
    destruct (fields !! "player") as [v |] eqn:Hplayer; [auto 10 |].
    apply find_present in Hfind as (key & Hkey & Hlookup).
    do 6 right. exists fields, id, game, key, player.
    unfold Wire.get in Hkey.
    destruct (fields !! "player_key") as [v |] eqn:Hpk; simpl in Hkey;
      [| discriminate].
    subst v. auto 10.
  - intros Hdict.
    destruct message as [| b | n | z | s | items | fields]; try reflexivity.
    exfalso. apply (Hdict fields). reflexivity.
  - intros fields ->. unfold Wire.game_method.
    split; [intros ->; reflexivity |].
    split; [intros -> ->; reflexivity |].
    split; [intros -> ->; reflexivity |].
    intros game -> ->. simpl.
    split; [intros [v ->]; reflexivity |].
    intros ->.
    split; [intros ->; reflexivity |].
    split; [intros -> ->; reflexivity |].
    split; [intros -> ->; reflexivity |].
    intros player -> ->. simpl.
    split; [intros [v ->]; reflexivity | intros ->; reflexivity].
Qed.

(** X29.
    [sync] answers the host and the players of the game named by
    "game_id" with the outcome of [get_game_dao] on that game, and nobody
    else: it emits "synced" only for a message that carries the game's
    host key, or no host key (or null) and a registered player key.  A
    message that carries a host key is judged on it alone: with any value
    that is not the game's host key it is refused (-4), even when its
    player key is a registered one.  Without host key it needs a
    registered player key: a key that cannot be hashed raises
    [TypeError], and any other is refused (-6), also when the message
    carries no key at all. *)
Theorem sync_guard (games : gmap string Wire.SocketIOGame)
    (message : gmap string Wire.json) (game : Wire.SocketIOGame) :
  Wire.truthy (Wire.get message "game_id") = true →
  Wire.find (Wire.get message "game_id") games = Wire.present game →
  message !! "game" = None →
  let result := Wire.sync games (Wire.jdict message) in
  (∀ r, result = Wire.ran r →
     r = App.get_game_dao (Wire.state game)
     ∧ (message !! "host_key" = Some (Wire.jstr (Wire.game_host_key game))
        ∨ (Wire.get message "host_key" = Wire.jnull
           ∧ ∃ key player,
               message !! "player_key" = Some (Wire.jstr key)
               ∧ Wire.players_by_key game !! key = Some player)))
  ∧ (Wire.get message "host_key" ≠ Wire.jnull →
     (Wire.differs (Wire.game_host_key game) (Wire.get message "host_key")
        = true →
      result = Wire.refused "Wrong host key." (-4))
     ∧ (Wire.differs (Wire.game_host_key game) (Wire.get message "host_key")
          = false →
        result = Wire.ran (App.get_game_dao (Wire.state game))))
  ∧ (Wire.get message "host_key" = Wire.jnull →
     (∀ player,
        Wire.find (Wire.get message "player_key") (Wire.players_by_key game)
          = Wire.present player →
        result = Wire.ran (App.get_game_dao (Wire.state game)))
     ∧ (Wire.find (Wire.get message "player_key") (Wire.players_by_key game)
          = Wire.absent →
        result = Wire.refused "Wrong player key." (-6))
     ∧ (Wire.find (Wire.get message "player_key") (Wire.players_by_key game)
          = Wire.unhashable →
        result = Wire.raised Wire.TypeError)
     ∧ (message !! "player_key" = None →
        result = Wire.refused "Wrong player key." (-6))).
Proof.
  intros Htruthy Hfind Hgame result. subst result. unfold Wire.sync.
  rewrite (game_method_run _ games message game Htruthy Hfind Hgame).
  split; [| split].
  - intros r.
    destruct (Wire.get message "host_key")
      as [| b | n | z | s | items | fields] eqn:Hhost;
      simpl; try discriminate.
    + destruct (Wire.find (Wire.get message "player_key")
                  (Wire.players_by_key game)) as [| | player] eqn:Hplayer;
        try discriminate.
      intros [= <-]. split; [reflexivity |]. right. split; [reflexivity |].
      apply find_present in Hplayer as (key & Hkey & Hlookup).
      exists key, player. split; [| exact Hlookup].
      unfold Wire.get in Hkey.
      destruct (message !! "player_key") as [v |]; simpl in Hkey;
        [congruence | discriminate].
    + case_bool_decide as Hs; simpl; [| discriminate].
      intros [= <-]. split; [reflexivity |]. left. subst s.
      unfold Wire.get in Hhost.
      destruct (message !! "host_key") as [v |]; simpl in Hhost;
        [congruence | discriminate].
  - intros Hnot_null. split.
    + intros Hdiffers.
      destruct (Wire.get message "host_key")
        as [| b | n | z | s | items | fields];
        [congruence | | | | | |]; rewrite ?Hdiffers; reflexivity.
    + intros Hdiffers.
      destruct (Wire.get message "host_key")
        as [| b | n | z | s | items | fields];
        [congruence | | | | | |]; rewrite ?Hdiffers; reflexivity.
  - intros ->. split; [| split; [| split]].
    + intros player ->. reflexivity.
    + intros ->. reflexivity.
    + intros ->. reflexivity.
    + intros Hnone. unfold Wire.get. rewrite Hnone. reflexivity.
Qed.

Lemma host_only_guard_witness :
  Wire.game_host_only (λ _ _, Wire.ran tt) WireScenario.games
    (WireScenario.message [("game_id", Wire.jstr "game");
                           ("host_key", Wire.jstr "host-key")])
    = Wire.ran tt
  ∧ Wire.game_host_only (λ _ _, Wire.ran tt) WireScenario.games
      (WireScenario.message [("game_id", Wire.jstr "game");
                             ("host_key", Wire.jstr "player-key");
                             ("player_key", Wire.jstr "player-key")])
    = Wire.refused "Wrong host key." (-4)
  ∧ Wire.game_host_only (λ _ _, Wire.ran tt) WireScenario.games
      (WireScenario.message [("game_id", Wire.jstr "game");
                             ("host_key", Wire.jstr "host-key");
                             ("game", Wire.jnull)])
    = Wire.raised Wire.TypeError
  ∧ Wire.game_host_only (λ _ _, Wire.ran tt) WireScenario.games
      (WireScenario.message [("game_id", Wire.jlist [Wire.jstr "game"]);
                             ("host_key", Wire.jstr "host-key")])
    = Wire.raised Wire.TypeError
  ∧ Wire.game_host_only (λ _ _, Wire.ran tt) WireScenario.games
      (Wire.jstr "game")
    = Wire.raised Wire.AttributeError.
Proof.
  split; [| split; [| split; [| split]]].
  - destruct (host_only_guard (λ _ _, Wire.ran tt) WireScenario.games
                (WireScenario.message [("game_id", Wire.jstr "game");
                                       ("host_key", Wire.jstr "host-key")]))
      as (_ & _ & Hdict).
    destruct (Hdict _ eq_refl) as (_ & _ & _ & Hfound).
    destruct (Hfound WireScenario.the_game eq_refl eq_refl) as (_ & Hhost).
    destruct (Hhost eq_refl) as (_ & _ & Hrun).
    exact (Hrun eq_refl eq_refl).
  - destruct (host_only_guard (λ _ _, Wire.ran tt) WireScenario.games
                (WireScenario.message
                   [("game_id", Wire.jstr "game");
                    ("host_key", Wire.jstr "player-key");
                    ("player_key", Wire.jstr "player-key")]))
      as (_ & _ & Hdict).
    destruct (Hdict _ eq_refl) as (_ & _ & _ & Hfound).
    destruct (Hfound WireScenario.the_game eq_refl eq_refl) as (_ & Hhost).
    destruct (Hhost eq_refl) as (_ & Hwrong & _).
    exact (Hwrong eq_refl eq_refl).
  - destruct (host_only_guard (λ _ _, Wire.ran tt) WireScenario.games
                (WireScenario.message [("game_id", Wire.jstr "game");
                                       ("host_key", Wire.jstr "host-key");
                                       ("game", Wire.jnull)]))
      as (_ & _ & Hdict).
    destruct (Hdict _ eq_refl) as (_ & _ & _ & Hfound).
    destruct (Hfound WireScenario.the_game eq_refl eq_refl) as (Htwice & _).
    apply Htwice. exists Wire.jnull. reflexivity.
  - destruct (host_only_guard (λ _ _, Wire.ran tt) WireScenario.games
                (WireScenario.message
                   [("game_id", Wire.jlist [Wire.jstr "game"]);
                    ("host_key", Wire.jstr "host-key")]))
      as (_ & _ & Hdict).
    destruct (Hdict _ eq_refl) as (_ & Hunhashable & _).
    exact (Hunhashable eq_refl eq_refl).
  - destruct (host_only_guard (λ _ _, Wire.ran tt) WireScenario.games
                (Wire.jstr "game")) as (_ & Hother & _).
    apply Hother. intros fields. discriminate.
Defined.

Lemma joined_player_guard_witness :
  Wire.joined_player_only (λ _ player _, Wire.ran player) WireScenario.games
    (WireScenario.message [("game_id", Wire.jstr "game");
                           ("player_key", Wire.jstr "player-key")])
    = Wire.ran 0%nat
  ∧ Wire.joined_player_only (λ _ player _, Wire.ran player) WireScenario.games
      (WireScenario.message [("game_id", Wire.jstr "game");
                             ("host_key", Wire.jstr "host-key");
                             ("player_key", Wire.jstr "host-key")])
    = Wire.refused "Wrong player key." (-6)
  ∧ Wire.joined_player_only (λ _ player _, Wire.ran player) WireScenario.games
      (WireScenario.message [("game_id", Wire.jstr "game");
                             ("player_key", Wire.jstr "player-key");
                             ("player", Wire.jstr "Test Player #2")])
    = Wire.raised Wire.TypeError
  ∧ Wire.joined_player_only (λ _ player _, Wire.ran player) WireScenario.games
      (WireScenario.message
         [("game_id", Wire.jstr "game");
          ("player_key", Wire.jdict {[ "key" := Wire.jstr "player-key" ]})])
    = Wire.raised Wire.TypeError.
Proof.
  split; [| split; [| split]].
  - destruct (joined_player_guard (λ _ player _, Wire.ran player)
                WireScenario.games
                (WireScenario.message
                   [("game_id", Wire.jstr "game");
                    ("player_key", Wire.jstr "player-key")]))
      as (_ & _ & Hdict).
    destruct (Hdict _ eq_refl) as (_ & _ & _ & Hfound).
    destruct (Hfound WireScenario.the_game eq_refl eq_refl) as (_ & Hkey).
    destruct (Hkey eq_refl) as (_ & _ & _ & Hplayer).
    destruct (Hplayer 0%nat eq_refl eq_refl) as (_ & Hrun).
    exact (Hrun eq_refl).
  - destruct (joined_player_guard (λ _ player _, Wire.ran player)
                WireScenario.games
                (WireScenario.message
                   [("game_id", Wire.jstr "game");
                    ("host_key", Wire.jstr "host-key");
                    ("player_key", Wire.jstr "host-key")]))
      as (_ & _ & Hdict).
    destruct (Hdict _ eq_refl) as (_ & _ & _ & Hfound).
    destruct (Hfound WireScenario.the_game eq_refl eq_refl) as (_ & Hkey).
    destruct (Hkey eq_refl) as (_ & _ & Hwrong & _).
    exact (Hwrong eq_refl eq_refl).
  - destruct (joined_player_guard (λ _ player _, Wire.ran player)
                WireScenario.games
                (WireScenario.message
                   [("game_id", Wire.jstr "game");
                    ("player_key", Wire.jstr "player-key");
                    ("player", Wire.jstr "Test Player #2")]))
      as (_ & _ & Hdict).
    destruct (Hdict _ eq_refl) as (_ & _ & _ & Hfound).
    destruct (Hfound WireScenario.the_game eq_refl eq_refl) as (_ & Hkey).
    destruct (Hkey eq_refl) as (_ & _ & _ & Hplayer).
    destruct (Hplayer 0%nat eq_refl eq_refl) as (Htwice & _).
    apply Htwice. exists (Wire.jstr "Test Player #2"). reflexivity.
  - destruct (joined_player_guard (λ _ player _, Wire.ran player)
                WireScenario.games
                (WireScenario.message
                   [("game_id", Wire.jstr "game");
                    ("player_key",
                     Wire.jdict {[ "key" := Wire.jstr "player-key" ]})]))
      as (_ & _ & Hdict).
    destruct (Hdict _ eq_refl) as (_ & _ & _ & Hfound).
    destruct (Hfound WireScenario.the_game eq_refl eq_refl) as (_ & Hkey).
    destruct (Hkey eq_refl) as (_ & Hunhashable & _).
    exact (Hunhashable eq_refl eq_refl).
Defined.

Lemma sync_guard_witness :
  Wire.sync WireScenario.games
    (WireScenario.message [("game_id", Wire.jstr "game");
                           ("host_key", Wire.jstr "wrong");
                           ("player_key", Wire.jstr "player-key")])
    = Wire.refused "Wrong host key." (-4)
  ∧ Wire.sync WireScenario.games
      (WireScenario.message [("game_id", Wire.jstr "game");
                             ("host_key", Wire.jint 0);
                             ("player_key", Wire.jstr "player-key")])
    = Wire.refused "Wrong host key." (-4)
  ∧ Wire.sync WireScenario.games
      (WireScenario.message [("game_id", Wire.jstr "game");
                             ("player_key", Wire.jstr "player-key")])
    = Wire.ran (App.get_game_dao Tests.game_with_answering_player)
  ∧ Wire.sync WireScenario.games
      (WireScenario.message [("game_id", Wire.jstr "game")])
    = Wire.refused "Wrong player key." (-6)
  ∧ Wire.sync WireScenario.games
      (WireScenario.message [("game_id", Wire.jstr "game");
                             ("player_key", Wire.jlist [])])
    = Wire.raised Wire.TypeError.
Proof.
  split; [| split; [| split; [| split]]].
  - destruct (sync_guard WireScenario.games
                (WireScenario.fields [("game_id", Wire.jstr "game");
                              ("host_key", Wire.jstr "wrong");
                              ("player_key", Wire.jstr "player-key")])
                WireScenario.the_game eq_refl eq_refl eq_refl)
      as (_ & Hhost & _).
    destruct (Hhost ltac:(discriminate)) as (Hwrong & _).
    exact (Hwrong eq_refl).
  - destruct (sync_guard WireScenario.games
                (WireScenario.fields [("game_id", Wire.jstr "game");
                              ("host_key", Wire.jint 0);
                              ("player_key", Wire.jstr "player-key")])
                WireScenario.the_game eq_refl eq_refl eq_refl)
      as (_ & Hhost & _).
    destruct (Hhost ltac:(discriminate)) as (Hwrong & _).
    exact (Hwrong eq_refl).
  - destruct (sync_guard WireScenario.games
                (WireScenario.fields [("game_id", Wire.jstr "game");
                              ("player_key", Wire.jstr "player-key")])
                WireScenario.the_game eq_refl eq_refl eq_refl)
      as (_ & _ & Hplayer).
    destruct (Hplayer eq_refl) as (Hrun & _).
    exact (Hrun 0%nat eq_refl).
  - destruct (sync_guard WireScenario.games
                (WireScenario.fields [("game_id", Wire.jstr "game")])
                WireScenario.the_game eq_refl eq_refl eq_refl)
      as (_ & _ & Hplayer).
    destruct (Hplayer eq_refl) as (_ & _ & _ & Hnone).
    exact (Hnone eq_refl).
  - destruct (sync_guard WireScenario.games
                (WireScenario.fields [("game_id", Wire.jstr "game");
                              ("player_key", Wire.jlist [])])
                WireScenario.the_game eq_refl eq_refl eq_refl)
      as (_ & _ & Hplayer).
    destruct (Hplayer eq_refl) as (_ & _ & Hunhashable & _).
    exact (Hunhashable eq_refl).
Defined.

(** * The answering player after a leave *)

Lemma join_handled_more (g0 : SocketIO.SocketIOGame)
    (msgs : list SocketIO.message) (msg : SocketIO.message) (p : nat) :
  join_handled g0 msgs p → join_handled g0 (msgs ++ [msg]) p.
Proof.
  intros (before & name & after & -> & Hjoin).
  exists before, name, (after ++ [msg]). split; [| exact Hjoin].
  rewrite <- app_assoc. reflexivity.
Qed.

Lemma leave_handled_more (g0 : SocketIO.SocketIOGame)
    (msgs : list SocketIO.message) (msg : SocketIO.message) (p : nat) :
  leave_handled g0 msgs p → leave_handled g0 (msgs ++ [msg]) p.
Proof.
  intros (before & k & after & -> & Hrest).
  exists before, k, (after ++ [msg]). split; [| exact Hrest].
  rewrite <- app_assoc. reflexivity.
Qed.

(** What [SocketIOGame.leave] does to the game, for a key that resolves
    to a member of a roster without duplicates. *)
Lemma leave_member (g : SocketIO.SocketIOGame) (p : nat) :
  NoDup (players (SocketIO.base g)) →
  p ∈ players (SocketIO.base g) →
  question_objs (SocketIO.base (SocketIO.leave p g))
    = question_objs (SocketIO.base g)
  ∧ current_question (SocketIO.base (SocketIO.leave p g))
    = current_question (SocketIO.base g)
  ∧ player_objs (SocketIO.base (SocketIO.leave p g))
    = player_objs (SocketIO.base g)
  ∧ themes_questions (SocketIO.base (SocketIO.leave p g))
    = themes_questions (SocketIO.base g)
  ∧ (p ∉ players (SocketIO.base (SocketIO.leave p g)))
  ∧ (∀ other, other ≠ p →
       (other ∈ players (SocketIO.base (SocketIO.leave p g))
        ↔ other ∈ players (SocketIO.base g))).
Proof.
  intros Hnodup Hin. unfold SocketIO.leave. run_method.
  destruct (list_remove p (players (SocketIO.base g))) as [roster |] eqn:Hrem;
    simpl.
  - repeat (split; [reflexivity |]). split.
    + apply list_remove_Some_inv in Hrem
        as (before & after & Hroster & Hnotin & ->).
      rewrite Hroster in Hnodup.
      apply NoDup_app in Hnodup as (_ & Hdisjoint & Hafter).
      apply NoDup_cons in Hafter as [Hnotin' _].
      intros Hin'. apply elem_of_app in Hin' as [Hin' | Hin']; tauto.
    + intros other Hne.
      destruct (list_remove_elem_of p other _ _ Hrem) as [Hiff _].
      rewrite Hiff. split; [tauto | intros [-> | Hother]; [congruence | exact Hother]].
  - apply list_remove_None_inv in Hrem. tauto.
Qed.

Lemma run_players_accounted (file : list (string * list SocketIO.RawQuestion))
    (msgs : list SocketIO.message) (p : nat) :
  let g0 := SocketIO.start_game file in
  (p < length (player_objs (SocketIO.base (SocketIO.run msgs g0))))%nat →
  join_handled g0 msgs p
  ∧ (p ∈ players (SocketIO.base (SocketIO.run msgs g0))
     ∨ leave_handled g0 msgs p).
Proof.
  intros g0. revert p. induction msgs as [| msg msgs IH] using rev_ind.
  - intros p Hlt. simpl in Hlt. lia.
  - intros p. rewrite run_snoc.
    pose proof (run_inv file msgs) as Hinv.
    pose proof (run_roster_wf file msgs) as [Hnodup _].
    fold g0 in Hinv, Hnodup.
    set (g := SocketIO.run msgs g0) in *.
    assert (Hmore : (p < length (player_objs (SocketIO.base g)))%nat →
              ∀ roster : list nat,
              (p ∈ players (SocketIO.base g) → p ∈ roster) →
              join_handled g0 (msgs ++ [msg]) p
              ∧ (p ∈ roster ∨ leave_handled g0 (msgs ++ [msg]) p)).
    { intros Hlt roster Hkeep. destruct (IH p Hlt) as [Hjoin [Hin | Hleft]].
      - split; [apply join_handled_more; exact Hjoin | left; auto].
      - split; [apply join_handled_more; exact Hjoin |].
        right. apply leave_handled_more. exact Hleft. }
    assert (Hcall : ∀ c, roster_call c = false →
              (p < length (player_objs
                             (SocketIO.base (SocketIO.call (invoke c) g))))%nat →
              join_handled g0 (msgs ++ [msg]) p
              ∧ (p ∈ players (SocketIO.base (SocketIO.call (invoke c) g))
                 ∨ leave_handled g0 (msgs ++ [msg]) p)).
    { intros c Hc. unfold SocketIO.call. simpl.
      destruct (transition_keeps_roster _ _ _
                  (exec_transition c (SocketIO.base g)) Hc) as [Hroster Hlen].
      unfold exec in Hroster, Hlen. rewrite Hroster, Hlen.
      intros Hlt. apply Hmore; auto. }
    destruct msg as [name | k | theme score | k | | |]; cbn [SocketIO.handle].
    + unfold SocketIO.join. run_method. rewrite length_app. simpl. intros Hlt.
      destruct (decide (p = length (player_objs (SocketIO.base g)))) as [-> | Hne].
      * split.
        -- exists msgs, name, []. split; [reflexivity |]. fold g. reflexivity.
        -- left. apply elem_of_app. right. apply list_elem_of_singleton.
           reflexivity.
      * apply Hmore; [lia |]. intros Hin. apply elem_of_app. left. exact Hin.
    + unfold SocketIO.joined_player_only.
      destruct (SocketIO.players_by_key g !! k) as [q |] eqn:Hk;
        [| intros Hlt; apply Hmore; auto].
      destruct (inv_keys _ _ Hinv k q Hk) as [_ Hq].
      destruct (leave_member g q Hnodup Hq)
        as (_ & _ & Hobjs & _ & Hgone & Hothers).
      rewrite Hobjs. intros Hlt.
      destruct (decide (p = q)) as [-> | Hne].
      * destruct (IH q Hlt) as [Hjoin _].
        split; [apply join_handled_more; exact Hjoin |]. right.
        exists msgs, k, []. split; [reflexivity |]. fold g.
        split; [exact Hk |]. split; [exact Hq |].
        rewrite run_snoc. fold g. cbn [SocketIO.handle].
        unfold SocketIO.joined_player_only. rewrite Hk. exact Hgone.
      * apply Hmore; [exact Hlt |]. intros Hin. apply Hothers; assumption.
    + apply (Hcall (call_select_question theme score)). reflexivity.
    + unfold SocketIO.joined_player_only.
      destruct (SocketIO.players_by_key g !! k) as [q |];
        [| intros Hlt; apply Hmore; auto].
      apply (Hcall (call_select_answering_player q)). reflexivity.
    + apply (Hcall call_accept_answer). reflexivity.
    + apply (Hcall call_decline_answer). reflexivity.
    + apply (Hcall call_skip_question). reflexivity.
Qed.

(** C1, amended.  After any messages to a game started on any theme file,
    the answering player of the current question, when there is one, is a
    player created by a "join_game" of this game, and is in the roster
    unless a leave of that player has been handled (a "leave_game" that
    arrived with that player's key while the player was in the roster,
    and took the player out of it).  [leave] itself only removes the
    player from the roster: in any state it takes the first occurrence
    of a member out of the roster, keeps every other member in order, and
    leaves the players' objects, the questions with their answering
    player, the board and the current question as they are; for a player
    who is not in the roster it changes nothing.  So does the handler of
    "leave_game", which takes the player of the key out of the roster
    and keeps the others; with an unknown key it changes nothing. *)
Theorem answering_player_has_joined
    (file : list (string * list SocketIO.RawQuestion))
    (msgs : list SocketIO.message) :
  let g0 := SocketIO.start_game file in
  let g := SocketIO.run msgs g0 in
  let s := SocketIO.base g in
  (∀ question q p,
     current_question s = Some question →
     question_objs s !! question = Some q →
     Question.answering_player q = Some p →
     is_Some (player_objs s !! p)
     ∧ join_handled g0 msgs p
     ∧ (p ∈ players s ∨ leave_handled g0 msgs p))
  ∧ (∀ s0 player,
       player_objs (state_after (Game.leave player) s0) = player_objs s0
       ∧ question_objs (state_after (Game.leave player) s0) = question_objs s0
       ∧ themes_questions (state_after (Game.leave player) s0)
         = themes_questions s0
       ∧ current_question (state_after (Game.leave player) s0)
         = current_question s0
       ∧ (∀ other, other ≠ player →
            (other ∈ players (state_after (Game.leave player) s0)
             ↔ other ∈ players s0))
       ∧ (∀ before after,
            players s0 = before ++ player :: after → player ∉ before →
            players (state_after (Game.leave player) s0) = before ++ after)
       ∧ (player ∉ players s0 → state_after (Game.leave player) s0 = s0))
  ∧ (∀ player_key,
       let g' := SocketIO.handle (SocketIO.leave_game player_key) g in
       player_objs (SocketIO.base g') = player_objs s
       ∧ question_objs (SocketIO.base g') = question_objs s
       ∧ themes_questions (SocketIO.base g') = themes_questions s
       ∧ current_question (SocketIO.base g') = current_question s
       ∧ match SocketIO.players_by_key g !! player_key with
         | Some p =>
             p ∈ players s
             ∧ (p ∉ players (SocketIO.base g'))
             ∧ (∀ other, other ≠ p →
                  (other ∈ players (SocketIO.base g') ↔ other ∈ players s))
         | None => g' = g
         end).
Proof.
  intros g0 g s. split; [| split].
  - intros question q p Hcur Hq Hap.
    destruct (run_inv file msgs) as [[_ Hanswering] _ _].
    pose proof (Hanswering question q p Hq Hap) as Hlt.
    split; [apply lookup_lt_is_Some; exact Hlt |].
    apply (run_players_accounted file msgs p). exact Hlt.
  - intros s0 player. unfold state_after. run_method.
    destruct (list_remove player (players s0)) as [roster |] eqn:Hrem; simpl.
    + do 4 (split; [reflexivity |]). split; [| split].
      * intros other Hne.
        destruct (list_remove_elem_of player other _ _ Hrem) as [Hiff _].
        rewrite Hiff.
        split; [tauto | intros [-> | Hother]; [congruence | exact Hother]].
      * intros before after Hroster Hnotin.
        rewrite Hroster, (list_remove_split _ _ _ Hnotin) in Hrem.
        congruence.
      * intros Hnotin. apply list_remove_not_in in Hnotin. congruence.
    + do 4 (split; [reflexivity |]).
      split; [intros other Hne; reflexivity |]. split; [| reflexivity].
      intros before after Hroster Hnotin.
      rewrite Hroster, (list_remove_split _ _ _ Hnotin) in Hrem.
      discriminate.
  - intros k g'. subst g'. cbn [SocketIO.handle].
    unfold SocketIO.joined_player_only.
    destruct (SocketIO.players_by_key g !! k) as [p |] eqn:Hk; [| auto].
    destruct (inv_keys _ _ (run_inv file msgs) k p Hk) as [_ Hin].
    destruct (run_roster_wf file msgs) as [Hnodup _].
    destruct (leave_member g p Hnodup Hin)
      as (Hq & Hc & Hp & Hb & Hgone & Hothers).
    auto 10.
Qed.

Lemma answering_player_has_joined_witness :
  let g0 := SocketIO.start_game Scenario.file in
  let s := SocketIO.base (SocketIO.run Scenario.buzz_then_leave g0) in
  is_Some (player_objs s !! 0%nat)
  ∧ join_handled g0 Scenario.buzz_then_leave 0
  ∧ (0%nat ∈ players s ∨ leave_handled g0 Scenario.buzz_then_leave 0).
Proof.
  apply (proj1 (answering_player_has_joined Scenario.file
                  Scenario.buzz_then_leave) 0%nat
           (Question.mk "Test Question" "Test Answer" 100 false (Some 0%nat))
           0%nat); reflexivity.
Defined.

(** After the messages of [Scenario.buzz_then_leave] the answering
    player is the one who left: the second case above. *)
Example buzz_then_leave_left :
  leave_handled (SocketIO.start_game Scenario.file) Scenario.buzz_then_leave 0.
Proof.
  exists (take 3 Scenario.buzz_then_leave), 0%nat, [].
  split; [reflexivity |]. split; [reflexivity |]. split.
  - vm_compute. apply list_elem_of_here.
  - vm_compute. intros Hin. inversion Hin.
Qed.
